(** * Bucketized chained hash table: striped-lock and lock-free variants

    Shallow embedding of [chained.h], [chained_locked.c],
    [chained_lock_free.c] and the driver [main.c].

    Conventions of the embedding.
    - [uint64_t] and [size_t] values are integers in [0, 2^64); every
      arithmetic operation on them is followed by its reduction modulo
      [2^64] ([wrap64]).
    - [int] values are integers in [-2^31, 2^31); an increment is followed by
      the two's complement reduction [int_wrap] (what the atomic increment of
      the build does; the statements that depend on a counter give the range
      in which no reduction takes place).
    - A bucket's linked list is the list of its nodes from the head on: the
      [next] pointer of a node is the tail of the list, [NULL] is [[]].
    - [%] by zero has no defined result; operations that may reach one return
      a [result], with [Fault DivisionByZero] in that case.  Reading a bucket
      outside the allocated array is [Fault OutOfBounds].  [Fault Interference]
      marks the retry branch of a compare-and-swap loop, which needs another
      thread to be taken.
    - The operations are modelled in a sequential execution (one operation at
      a time, as at a quiescent point of the driver).  [omp_set_lock] and
      [omp_unset_lock] bracket the critical section and leave the lock array
      as they found it, so the lock states are not part of the table state;
      the lock index is still computed, since its computation can fault. *)

From Stdlib Require Import ZArith Lia Bool List.
From Stdlib Require DecimalFacts DecimalPos DecimalN.
From stdpp Require Import base list.
Import ListNotations.

Local Open Scope Z_scope.

(** ** Machine integers *)

Definition UINT64_MAX : Z := 2 ^ 64 - 1.
Definition SIZE_MAX : Z := 2 ^ 64 - 1.
Definition INT_MAX : Z := 2 ^ 31 - 1.
Definition INT_MIN : Z := - 2 ^ 31.

(** Reduction of an unsigned 64-bit result. *)
Definition wrap64 (z : Z) : Z := z mod 2 ^ 64.

(** Two's complement reduction of an [int] result. *)
Definition int_wrap (z : Z) : Z := (z + 2 ^ 31) mod 2 ^ 32 - 2 ^ 31.

(** Conversion of an [int] to [size_t] at a call. *)
Definition size_t_of_int (z : Z) : Z := wrap64 z.

Definition is_u64 (z : Z) : Prop := 0 <= z <= UINT64_MAX.

(** ** chained.h *)

Definition INVALID_KEY : Z := UINT64_MAX.
Definition INVALID_VALUE : Z := UINT64_MAX.
Definition DEFAULT_NUM_THREADS : Z := 16.

(** Local constants of both table files. *)
Definition MAX_CHAIN_SIZE : Z := 8.

(** ** Faults *)

Inductive fault : Type :=
| DivisionByZero
| OutOfBounds
| Interference.

Inductive result (A : Type) : Type :=
| Ok (a : A)
| Fault (f : fault).

Arguments Ok {A} a.
Arguments Fault {A} f.

Definition bind {A B : Type} (r : result A) (k : A -> result B) : result B :=
  match r with
  | Ok a => k a
  | Fault f => Fault f
  end.

Notation "x <- r ;; k" := (bind r (fun x => k))
  (at level 100, r at next level, right associativity).

(** The process-wide configuration flags and the resize flag. *)
Record Globals : Type := mkGlobals {
  resize_enabled : Z;
  speed_test : Z;
  resize_needed : Z
}.

(** The initial values of the three globals. *)
Definition initial_globals : Globals :=
  {| resize_enabled := 1; speed_test := 0; resize_needed := 0 |}.

Definition set_resize_needed (g : Globals) (v : Z) : Globals :=
  {| resize_enabled := resize_enabled g;
     speed_test := speed_test g;
     resize_needed := v |}.

(** ** Hash function (the same text in both table files)

    [key = (key * 37) + 13; return key % num_buckets;] *)
Definition hash1 (key num_buckets : Z) : result Z :=
  let key := wrap64 (wrap64 (key * 37) + 13) in
  if num_buckets =? 0 then Fault DivisionByZero
  else Ok (key mod num_buckets).

(** The formula of the specification, over the integers. *)
Definition hash_formula (k B : Z) : Z := (k * 37 + 13) mod B.

(** ** Chains and bucket arrays (the same declarations in both table files) *)

(** [struct Item]: the [next] pointer is the rest of the list. *)
Record Item : Type := mkItem {
  key : Z;
  value : Z
}.

Definition chain : Type := list Item.

#[global] Instance Item_eq_dec : EqDecision Item.
Proof. solve_decision. Defined.

(** [Bucket]: the head pointer of a chain. *)
Record Bucket : Type := mkBucket {
  head : chain
}.

(** The scan of [lookup]:
    [while (curr != NULL) { if (curr->key == key) { value = curr->value; break; }
                            curr = curr->next; }]
    started with [value = INVALID_VALUE]; the result is the final [value]. *)
Fixpoint lookup_scan (k : Z) (curr : chain) (val : Z) : Z :=
  match curr with
  | [] => val
  | it :: next => if key it =? k then value it else lookup_scan k next val
  end.

(** The scan of [insert]:
    [while (curr != NULL) { if (curr->key == key) { curr->value = value;
                                                    succeeded = 1; break; }
                            depth++; curr = curr->next; }]
    The result is [succeeded], the final [depth], and the chain after the
    write to the matching node (the chain itself when none matches). *)
Fixpoint insert_scan (k v : Z) (curr : chain) (depth : Z) : bool * Z * chain :=
  match curr with
  | [] => (false, depth, [])
  | it :: next =>
      if key it =? k then (true, depth, mkItem (key it) v :: next)
      else
        let '(succeeded, d, next') := insert_scan k v next (int_wrap (depth + 1)) in
        (succeeded, d, it :: next')
  end.

(** [buckets[i]] of an array with the given cells. *)
Definition read_bucket (bs : list Bucket) (i : Z) : result Bucket :=
  match bs !! Z.to_nat i with
  | Some b => Ok b
  | None => Fault OutOfBounds
  end.

(** [buckets[i].head = h]. *)
Definition write_head (bs : list Bucket) (i : Z) (h : chain) : list Bucket :=
  <[Z.to_nat i := mkBucket h]> bs.

(** [calloc(num_buckets, sizeof(Bucket))]: all heads [NULL]. *)
Definition calloc_buckets (num_buckets : Z) : list Bucket :=
  replicate (Z.to_nat num_buckets) (mkBucket []).

(** An operation of a sequential history of a table: an [insert] call or a
    [resize] of the driver. *)
Inductive table_op : Type :=
| OpInsert (k v : Z)
| OpResize.

(** ** Striped-lock variant: chained_locked.c *)

Module Locked.

Record ChainedHashTable : Type := mkTable {
  buckets : list Bucket;
  num_buckets : Z;
  num_locks : Z;
  num_items : Z
}.

Definition set_buckets (t : ChainedHashTable) (bs : list Bucket) : ChainedHashTable :=
  mkTable bs (num_buckets t) (num_locks t) (num_items t).

Definition set_num_items (t : ChainedHashTable) (n : Z) : ChainedHashTable :=
  mkTable (buckets t) (num_buckets t) (num_locks t) n.

(** [return bucket_index % chained->num_locks;] *)
Definition get_lock_idx (chained : ChainedHashTable) (bucket_index : Z) : result Z :=
  if num_locks chained =? 0 then Fault DivisionByZero
  else Ok (bucket_index mod num_locks chained).

Definition create_table (num_buckets num_locks : Z) : ChainedHashTable :=
  mkTable (calloc_buckets num_buckets) num_buckets num_locks 0.

Definition lookup (chained : ChainedHashTable) (k : Z) : result Z :=
  if k =? INVALID_KEY then Ok INVALID_VALUE
  else
    bucket <- hash1 k (num_buckets chained) ;;
    lock_idx <- get_lock_idx chained bucket ;;
    b <- read_bucket (buckets chained) bucket ;;
    Ok (lookup_scan k (head b) INVALID_VALUE).

(** The part of [insert] between the sentinel checks and the final
    [if (added_node)]: the table after it, [added_node] and [depth]. *)
Definition insert_section (chained : ChainedHashTable) (k v : Z)
  : result (ChainedHashTable * bool * Z) :=
  bucket <- hash1 k (num_buckets chained) ;;
  lock_idx <- get_lock_idx chained bucket ;;
  b <- read_bucket (buckets chained) bucket ;;
  let '(succeeded, depth, curr') := insert_scan k v (head b) 0 in
  if succeeded then
    Ok (set_buckets chained (write_head (buckets chained) bucket curr'), false, depth)
  else
    let add_item := mkItem k v in
    Ok (set_buckets chained (write_head (buckets chained) bucket (add_item :: head b)),
        true, depth).

(** The final [if (added_node) { ... }] of [insert]. *)
Definition insert_epilogue (g : Globals) (chained : ChainedHashTable)
    (added_node : bool) (depth : Z) : Globals * ChainedHashTable :=
  if added_node then
    let chained' :=
      if speed_test g =? 0
      then set_num_items chained (int_wrap (num_items chained + 1))
      else chained in
    let g' :=
      if negb (resize_enabled g =? 0) && (MAX_CHAIN_SIZE <=? depth) then
        let temp_resize := resize_needed g in
        if temp_resize =? 0 then set_resize_needed g 1 else g
      else g in
    (g', chained')
  else (g, chained).

Definition insert (g : Globals) (chained : ChainedHashTable) (k v : Z)
  : result (Globals * ChainedHashTable) :=
  if k =? INVALID_KEY then Ok (g, chained)
  else if v =? INVALID_VALUE then Ok (g, chained)
  else
    r <- insert_section chained k v ;;
    let '(chained', added_node, depth) := r in
    Ok (insert_epilogue g chained' added_node depth).

Definition resize_insert (chained : ChainedHashTable) (k v : Z)
  : result ChainedHashTable :=
  bucket <- hash1 k (num_buckets chained) ;;
  lock_idx <- get_lock_idx chained bucket ;;
  b <- read_bucket (buckets chained) bucket ;;
  let add_item := mkItem k v in
  Ok (set_buckets chained (write_head (buckets chained) bucket (add_item :: head b))).

(** The inner loop of [resize] over one chain of the old table. *)
Fixpoint rehash_chain (next_chained : ChainedHashTable) (curr : chain)
  : result ChainedHashTable :=
  match curr with
  | [] => Ok next_chained
  | it :: next =>
      t <- resize_insert next_chained (key it) (value it) ;;
      rehash_chain t next
  end.

(** The loop [for (i = 0; i < curr_chained->num_buckets; i++)] of [resize],
    from index [i] with [n] iterations left, in index order. *)
Fixpoint rehash_buckets (curr_chained next_chained : ChainedHashTable)
    (i : Z) (n : nat) : result ChainedHashTable :=
  match n with
  | O => Ok next_chained
  | S n' =>
      b <- read_bucket (buckets curr_chained) i ;;
      t <- rehash_chain next_chained (head b) ;;
      rehash_buckets curr_chained t (i + 1) n'
  end.

(** [resize]: the table returned is the one the handle points to afterwards. *)
Definition resize (g : Globals) (curr_chained : ChainedHashTable)
  : result (Globals * ChainedHashTable) :=
  let next_num_buckets := wrap64 (num_buckets curr_chained * 2) in
  let next_num_locks := wrap64 (num_locks curr_chained * 2) in
  let next_chained :=
    set_num_items (create_table next_num_buckets next_num_locks)
                  (num_items curr_chained) in
  t <- rehash_buckets curr_chained next_chained 0
         (Z.to_nat (num_buckets curr_chained)) ;;
  Ok (set_resize_needed g 0, t).

(** A sequence of [insert] calls, one after the other. *)
Fixpoint run_inserts (g : Globals) (chained : ChainedHashTable)
    (ops : list (Z * Z)) : result (Globals * ChainedHashTable) :=
  match ops with
  | [] => Ok (g, chained)
  | (k, v) :: rest =>
      r <- insert g chained k v ;;
      run_inserts (fst r) (snd r) rest
  end.

(** A history of [insert] and [resize] calls, one after the other. *)
Fixpoint run_ops (g : Globals) (chained : ChainedHashTable)
    (ops : list table_op) : result (Globals * ChainedHashTable) :=
  match ops with
  | [] => Ok (g, chained)
  | OpInsert k v :: rest =>
      r <- insert g chained k v ;;
      run_ops (fst r) (snd r) rest
  | OpResize :: rest =>
      r <- resize g chained ;;
      run_ops (fst r) (snd r) rest
  end.

End Locked.

(** ** Lock-free variant: chained_lock_free.c *)

Module LockFree.

Record ChainedHashTable : Type := mkTable {
  buckets : list Bucket;
  num_buckets : Z;
  num_items : Z
}.

Definition set_buckets (t : ChainedHashTable) (bs : list Bucket) : ChainedHashTable :=
  mkTable bs (num_buckets t) (num_items t).

Definition set_num_items (t : ChainedHashTable) (n : Z) : ChainedHashTable :=
  mkTable (buckets t) (num_buckets t) n.

(** [num_locks] is accepted and not used. *)
Definition create_table (num_buckets num_locks : Z) : ChainedHashTable :=
  mkTable (calloc_buckets num_buckets) num_buckets 0.

Definition lookup (chained : ChainedHashTable) (k : Z) : result Z :=
  if k =? INVALID_KEY then Ok INVALID_VALUE
  else
    bucket <- hash1 k (num_buckets chained) ;;
    b <- read_bucket (buckets chained) bucket ;;
    Ok (lookup_scan k (head b) INVALID_VALUE).

(** [#pragma omp atomic compare capture
     { old_head = head; if (head == expected) { head = add_item; } }]
    on the cell [buckets[bucket].head]: the captured [old_head] and the
    array afterwards.  [add_item] is given with its [next] already set, as
    the chain that starts at it. *)
Definition compare_capture (bs : list Bucket) (bucket : Z)
    (expected add_item : chain) : result (chain * list Bucket) :=
  b <- read_bucket bs bucket ;;
  let old_head := head b in
  if decide (old_head = expected)
  then Ok (old_head, write_head bs bucket add_item)
  else Ok (old_head, bs).

(** The [while (1)] loop of [insert], in a sequential execution: no other
    thread writes the head between the snapshot [expected] and the
    compare-and-capture, so the loop is left in its first iteration.  The
    branch in which the captured head differs from the snapshot (the retry)
    is [Fault Interference]; [insert_section_no_retry] below shows that it is
    never taken.  The result is the table, [added_node] and [depth]. *)
Definition insert_section (chained : ChainedHashTable) (k v : Z)
  : result (ChainedHashTable * bool * Z) :=
  bucket <- hash1 k (num_buckets chained) ;;
  let add_item := mkItem k v in
  b <- read_bucket (buckets chained) bucket ;;
  let expected := head b in
  let '(succeeded, depth, curr') := insert_scan k v expected 0 in
  if succeeded then
    Ok (set_buckets chained (write_head (buckets chained) bucket curr'), false, depth)
  else
    r <- compare_capture (buckets chained) bucket expected (add_item :: expected) ;;
    let '(old_head, bs') := r in
    if decide (old_head = expected)
    then Ok (set_buckets chained bs', true, depth)
    else Fault Interference.

(** The final [if (added_node) { ... }] of [insert]. *)
Definition insert_epilogue (g : Globals) (chained : ChainedHashTable)
    (added_node : bool) (depth : Z) : Globals * ChainedHashTable :=
  if added_node then
    let chained' :=
      if speed_test g =? 0
      then set_num_items chained (int_wrap (num_items chained + 1))
      else chained in
    let g' :=
      if negb (resize_enabled g =? 0) && (MAX_CHAIN_SIZE <=? depth) then
        let temp_resize := resize_needed g in
        if temp_resize =? 0 then set_resize_needed g 1 else g
      else g in
    (g', chained')
  else (g, chained).

Definition insert (g : Globals) (chained : ChainedHashTable) (k v : Z)
  : result (Globals * ChainedHashTable) :=
  if k =? INVALID_KEY then Ok (g, chained)
  else if v =? INVALID_VALUE then Ok (g, chained)
  else
    r <- insert_section chained k v ;;
    let '(chained', added_node, depth) := r in
    Ok (insert_epilogue g chained' added_node depth).

(** [resize_insert]: the same loop without the scan. *)
Definition resize_insert (chained : ChainedHashTable) (k v : Z)
  : result ChainedHashTable :=
  bucket <- hash1 k (num_buckets chained) ;;
  let add_item := mkItem k v in
  b <- read_bucket (buckets chained) bucket ;;
  let expected := head b in
  r <- compare_capture (buckets chained) bucket expected (add_item :: expected) ;;
  let '(old_head, bs') := r in
  if decide (old_head = expected)
  then Ok (set_buckets chained bs')
  else Fault Interference.

Fixpoint rehash_chain (next_chained : ChainedHashTable) (curr : chain)
  : result ChainedHashTable :=
  match curr with
  | [] => Ok next_chained
  | it :: next =>
      t <- resize_insert next_chained (key it) (value it) ;;
      rehash_chain t next
  end.

Fixpoint rehash_buckets (curr_chained next_chained : ChainedHashTable)
    (i : Z) (n : nat) : result ChainedHashTable :=
  match n with
  | O => Ok next_chained
  | S n' =>
      b <- read_bucket (buckets curr_chained) i ;;
      t <- rehash_chain next_chained (head b) ;;
      rehash_buckets curr_chained t (i + 1) n'
  end.

Definition resize (g : Globals) (curr_chained : ChainedHashTable)
  : result (Globals * ChainedHashTable) :=
  let next_num_buckets := wrap64 (num_buckets curr_chained * 2) in
  let next_chained :=
    set_num_items (create_table next_num_buckets 1) (num_items curr_chained) in
  t <- rehash_buckets curr_chained next_chained 0
         (Z.to_nat (num_buckets curr_chained)) ;;
  Ok (set_resize_needed g 0, t).

Fixpoint run_inserts (g : Globals) (chained : ChainedHashTable)
    (ops : list (Z * Z)) : result (Globals * ChainedHashTable) :=
  match ops with
  | [] => Ok (g, chained)
  | (k, v) :: rest =>
      r <- insert g chained k v ;;
      run_inserts (fst r) (snd r) rest
  end.

(** A history of [insert] and [resize] calls, one after the other. *)
Fixpoint run_ops (g : Globals) (chained : ChainedHashTable)
    (ops : list table_op) : result (Globals * ChainedHashTable) :=
  match ops with
  | [] => Ok (g, chained)
  | OpInsert k v :: rest =>
      r <- insert g chained k v ;;
      run_ops (fst r) (snd r) rest
  | OpResize :: rest =>
      r <- resize g chained ;;
      run_ops (fst r) (snd r) rest
  end.

End LockFree.

(** ** Driver: main.c *)

Module Driver.

Definition MAX_LINE_LENGTH : Z := 256.
Definition INIT_NUM_BUCKETS : Z := 64.
Definition INIT_NUM_LOCKS_RATIO : Z := 8.
Definition MAX_TASK_POOL : Z := 256.
Definition FILE_CHUNK_SIZE : Z := 32768.

(** [case 'b'] of the option loop; the argument is the [int] returned by
    [atoi(optarg)], the result is [initial_buckets] afterwards. *)
Definition opt_b (atoi_optarg : Z) : Z :=
  let initial_buckets := atoi_optarg in
  if initial_buckets =? 0 then INIT_NUM_BUCKETS else initial_buckets.

(** [case 't'] of the option loop. *)
Definition opt_t (atoi_optarg : Z) : Z :=
  let num_threads := atoi_optarg in
  if num_threads <? 1 then DEFAULT_NUM_THREADS else num_threads.

(** The arguments of
    [create_table(initial_buckets, initial_buckets / INIT_NUM_LOCKS_RATIO)]:
    the division is the truncating division of [int], and both [int] values
    are converted to [size_t]. *)
Definition table_num_buckets (initial_buckets : Z) : Z :=
  size_t_of_int initial_buckets.

Definition table_num_locks (initial_buckets : Z) : Z :=
  size_t_of_int (Z.quot initial_buckets INIT_NUM_LOCKS_RATIO).

(** The table of the striped-lock executable. *)
Definition initial_table (initial_buckets : Z) : Locked.ChainedHashTable :=
  Locked.create_table (table_num_buckets initial_buckets)
                      (table_num_locks initial_buckets).

(** The table of the lock-free executable. *)
Definition initial_table_lock_free (initial_buckets : Z) : LockFree.ChainedHashTable :=
  LockFree.create_table (table_num_buckets initial_buckets)
                        (table_num_locks initial_buckets).

(** The input stream: its bytes by offset, its size and the file position. *)
Record FILE : Type := mkFILE {
  contents : Z -> Z;
  size : Z;
  pos : Z
}.

(** [fread(buffer, 1, FILE_CHUNK_SIZE, f)]: the number of bytes read and the
    stream afterwards.  The buffer holds the bytes from the old position on. *)
Definition fread (f : FILE) : Z * FILE :=
  let bytes_read := Z.min FILE_CHUNK_SIZE (Z.max 0 (size f - pos f)) in
  (bytes_read, mkFILE (contents f) (size f) (pos f + bytes_read)).

(** [fseek(f, offset, SEEK_CUR)]. *)
Definition fseek_cur (f : FILE) (offset : Z) : FILE :=
  mkFILE (contents f) (size f) (pos f + offset).

Definition newline : Z := 10.

(** [for (size_t i = bytes_read; i > 0; i--)
       if (buffer[i-1] == '\n') { last_newline = &buffer[i-1]; break; }]
    The result is the index of [last_newline] in the buffer, if any. *)
Fixpoint find_last_newline (buffer : Z -> Z) (i : nat) : option Z :=
  match i with
  | O => None
  | S i' =>
      if buffer (Z.of_nat i') =? newline then Some (Z.of_nat i')
      else find_last_newline buffer i'
  end.

(** A spawned task owns the bytes [task_start, task_start + task_bytes) of
    the input. *)
Record Task : Type := mkTask {
  task_start : Z;
  task_bytes : Z
}.

(** The state of the [single] region: the stream, the global [end_of_file],
    the locals [count] and [temp_resize_needed], the tasks spawned so far and
    the values returned by [fread] so far (both most recent first). *)
Record Dispatch : Type := mkDispatch {
  file : FILE;
  end_of_file : Z;
  count : Z;
  temp_resize_needed : Z;
  tasks : list Task;
  reads : list Z
}.

(** The [while (1)] loop of the [single] region.  [flag c] is the value of
    [resize_needed] that the atomic read finds after [c] tasks have been
    spawned; the tasks run concurrently with the loop and may set it at any
    time.  The loop is left by a [break]: [Some] is the state at the break,
    [None] is a run that has not reached one within [fuel] iterations. *)
Fixpoint dispatch_loop (flag : Z -> Z) (fuel : nat) (st : Dispatch) : option Dispatch :=
  match fuel with
  | O => None
  | S fuel' =>
      let start := pos (file st) in
      let '(bytes_read, f1) := fread (file st) in
      let reads1 := bytes_read :: reads st in
      if bytes_read =? 0 then
        Some (mkDispatch f1 1 (count st) (temp_resize_needed st) (tasks st) reads1)
      else
        let buffer := fun i => contents (file st) (start + i) in
        let '(bytes_read1, f2) :=
          if bytes_read =? FILE_CHUNK_SIZE then
            match find_last_newline buffer (Z.to_nat bytes_read) with
            | Some last_newline =>
                let valid_bytes := last_newline + 1 in
                (valid_bytes, fseek_cur f1 (- (bytes_read - valid_bytes)))
            | None => (bytes_read, f1)
            end
          else (bytes_read, f1) in
        let tasks1 := mkTask start bytes_read1 :: tasks st in
        if negb (end_of_file st =? 0) then
          Some (mkDispatch f2 (end_of_file st) (count st) (temp_resize_needed st)
                           tasks1 reads1)
        else
          let count1 := int_wrap (count st + 1) in
          if MAX_TASK_POOL - 1 <=? count1 then
            Some (mkDispatch f2 (end_of_file st) count1 (temp_resize_needed st)
                             tasks1 reads1)
          else
            let temp := flag count1 in
            if negb (temp =? 0) then
              Some (mkDispatch f2 (end_of_file st) count1 temp tasks1 reads1)
            else
              dispatch_loop flag fuel'
                (mkDispatch f2 (end_of_file st) count1 temp tasks1 reads1)
  end.

(** The statement after the loop:
    [if (!(count == MAX_TASK_POOL - 1) && !(temp_resize_needed)) end_of_file = 1;] *)
Definition after_loop (st : Dispatch) : Dispatch :=
  if negb (count st =? MAX_TASK_POOL - 1) && (temp_resize_needed st =? 0)
  then mkDispatch (file st) 1 (count st) (temp_resize_needed st) (tasks st) (reads st)
  else st.

(** The [single] region of one iteration of [while (!end_of_file)], entered
    with the stream [f] and the global [end_of_file] as they are. *)
Definition dispatch_phase (flag : Z -> Z) (fuel : nat) (f : FILE) (eof : Z)
  : option Dispatch :=
  let temp_resize_needed := 0 in
  let count := 0 in
  match dispatch_loop flag fuel (mkDispatch f eof count temp_resize_needed [] []) with
  | Some st => Some (after_loop st)
  | None => None
  end.

End Driver.

(** ** Notions used in the statements *)

(** The index [hash1] returns for a table of [nb] buckets, when [nb <> 0]. *)
Definition slot (nb k : Z) : Z := wrap64 (k * 37 + 13) mod nb.

(** The chain that hangs off [buckets[i]] ([[]] outside the array). *)
Definition chain_at (bs : list Bucket) (i : Z) : chain :=
  match bs !! Z.to_nat i with
  | Some b => head b
  | None => []
  end.

(** What a scan of the bucket of [k] finds. *)
Definition find_in (bs : list Bucket) (nb k : Z) : Z :=
  lookup_scan k (chain_at bs (slot nb k)) INVALID_VALUE.

(** Whether a node with key [k] is in the chain. *)
Definition has_key (k : Z) (c : chain) : bool :=
  existsb (fun it => key it =? k) c.

(** A key is at most once in a list of nodes. *)
Fixpoint once (k : Z) (c : chain) : bool :=
  match c with
  | [] => true
  | it :: next => if key it =? k then negb (has_key k next) else once k next
  end.

(** An argument pair that [insert] does not reject. *)
Definition valid_op (op : Z * Z) : Prop :=
  fst op <> INVALID_KEY /\ snd op <> INVALID_VALUE.

(** The value of the most recent insert under [k] in [ops] (executed from
    the head of the list on), [dflt] if there is none. *)
Fixpoint latest (k : Z) (ops : list (Z * Z)) (dflt : Z) : Z :=
  match ops with
  | [] => dflt
  | (k', v) :: rest => latest k rest (if k' =? k then v else dflt)
  end.

(** The inserts of a history, in order, and the number of its resizes. *)
Fixpoint inserts_of (ops : list table_op) : list (Z * Z) :=
  match ops with
  | [] => []
  | OpInsert k v :: rest => (k, v) :: inserts_of rest
  | OpResize :: rest => inserts_of rest
  end.

Fixpoint resizes_of (ops : list table_op) : nat :=
  match ops with
  | [] => O
  | OpInsert _ _ :: rest => resizes_of rest
  | OpResize :: rest => S (resizes_of rest)
  end.

(** I1: no key twice in a chain. *)
Fixpoint distinct_keys (c : chain) : bool :=
  match c with
  | [] => true
  | it :: next =>
      negb (existsb (fun it' => key it' =? key it) next) && distinct_keys next
  end.

(** I2: the nodes of the buckets from index [i] on are in the bucket their
    key hashes to. *)
Fixpoint placed (nb i : Z) (bs : list Bucket) : bool :=
  match bs with
  | [] => true
  | b :: rest =>
      forallb (fun it => slot nb (key it) =? i) (head b) && placed nb (i + 1) rest
  end.

(** The bucket array of a table: [nb >= 1] cells (I5), I1 and I2. *)
Definition buckets_ok (nb : Z) (bs : list Bucket) : bool :=
  (1 <=? nb) && (Z.of_nat (length bs) =? nb)
  && forallb (fun b => distinct_keys (head b)) bs
  && placed nb 0 bs.

(** The bucket array after the critical section of [insert k v]: the write
    to the matching node, or the new node at the head. *)
Definition put (bs : list Bucket) (nb k v : Z) : list Bucket :=
  let i := slot nb k in
  let '(succeeded, _, curr') := insert_scan k v (chain_at bs i) 0 in
  write_head bs i (if succeeded then curr' else mkItem k v :: chain_at bs i).

(** The bucket array after [resize_insert] of a node. *)
Definition prepend (nb : Z) (bs : list Bucket) (it : Item) : list Bucket :=
  let i := slot nb (key it) in
  write_head bs i (mkItem (key it) (value it) :: chain_at bs i).

(** All nodes of a bucket array, bucket after bucket, each from its head. *)
Definition all_items (bs : list Bucket) : list Item :=
  concat (map head bs).

(** Tables whose sizes allow every access of [lookup] and [insert]: at least
    one bucket, a bucket array of [num_buckets] cells, and (striped variant)
    at least one lock. *)
Definition locked_sized (t : Locked.ChainedHashTable) : Prop :=
  1 <= Locked.num_buckets t
  /\ Z.of_nat (length (Locked.buckets t)) = Locked.num_buckets t
  /\ 1 <= Locked.num_locks t.

Definition lockfree_sized (t : LockFree.ChainedHashTable) : Prop :=
  1 <= LockFree.num_buckets t
  /\ Z.of_nat (length (LockFree.buckets t)) = LockFree.num_buckets t.

(** ** Tables used as concrete inputs *)

(** Eight nodes with the keys 16, 14, ..., 2, which [hash1] sends to bucket 1
    of a table of two buckets. *)
Definition chain_of_eight : chain :=
  map (fun i => mkItem (2 * i) i) [8; 7; 6; 5; 4; 3; 2; 1].

Definition locked_example : Locked.ChainedHashTable :=
  Locked.mkTable [mkBucket []; mkBucket chain_of_eight] 2 1 8.

Definition lockfree_example : LockFree.ChainedHashTable :=
  LockFree.mkTable [mkBucket []; mkBucket chain_of_eight] 2 8.

(** The state of the dispatch loop at the top of an iteration: no end of
    file declared, no resize observed, fewer than [MAX_TASK_POOL - 1] tasks
    spawned, one task per counted iteration, and no empty read so far. *)
Definition dispatching (st : Driver.Dispatch) : Prop :=
  Driver.end_of_file st = 0
  /\ Driver.temp_resize_needed st = 0
  /\ 0 <= Driver.count st < Driver.MAX_TASK_POOL - 1
  /\ Z.of_nat (length (Driver.tasks st)) = Driver.count st
  /\ ~ In 0 (Driver.reads st).

(** The three ways the dispatch loop is left: an empty read, a full task
    pool, an observed resize request. *)
Definition left_at_empty_read (st : Driver.Dispatch) : Prop :=
  Driver.end_of_file st = 1
  /\ Driver.temp_resize_needed st = 0
  /\ 0 <= Driver.count st < Driver.MAX_TASK_POOL - 1
  /\ Z.of_nat (length (Driver.tasks st)) = Driver.count st
  /\ In 0 (Driver.reads st).

Definition left_at_full_pool (st : Driver.Dispatch) : Prop :=
  Driver.end_of_file st = 0
  /\ Driver.temp_resize_needed st = 0
  /\ Driver.count st = Driver.MAX_TASK_POOL - 1
  /\ Z.of_nat (length (Driver.tasks st)) = Driver.count st
  /\ ~ In 0 (Driver.reads st).

Definition left_at_resize (st : Driver.Dispatch) : Prop :=
  Driver.end_of_file st = 0
  /\ Driver.temp_resize_needed st <> 0
  /\ 0 <= Driver.count st < Driver.MAX_TASK_POOL - 1
  /\ Z.of_nat (length (Driver.tasks st)) = Driver.count st
  /\ ~ In 0 (Driver.reads st).

(** An input of 255 full chunks and five more bytes, every byte a newline. *)
Definition newlines_file : Driver.FILE :=
  Driver.mkFILE (fun _ => Driver.newline) (255 * Driver.FILE_CHUNK_SIZE + 5) 0.

(** A seven-byte input: one line. *)
Definition one_line_file : Driver.FILE :=
  Driver.mkFILE (fun i => if i <? 6 then 65 else Driver.newline) 7 0.

(** The tables the code can build: made by [create_table] with at least one
    bucket (and one lock), then changed by [insert] and by [resize] (with
    sizes that can be doubled within [size_t]). *)
Inductive locked_built : Locked.ChainedHashTable -> Prop :=
| locked_built_create nb nl :
    1 <= nb -> 1 <= nl -> locked_built (Locked.create_table nb nl)
| locked_built_insert g t k v g' t' :
    locked_built t -> Locked.insert g t k v = Ok (g', t') -> locked_built t'
| locked_built_resize g t g' t' :
    locked_built t ->
    2 * Locked.num_buckets t <= SIZE_MAX -> 2 * Locked.num_locks t <= SIZE_MAX ->
    Locked.resize g t = Ok (g', t') -> locked_built t'.

Inductive lockfree_built : LockFree.ChainedHashTable -> Prop :=
| lockfree_built_create nb nl :
    1 <= nb -> lockfree_built (LockFree.create_table nb nl)
| lockfree_built_insert g t k v g' t' :
    lockfree_built t -> LockFree.insert g t k v = Ok (g', t') -> lockfree_built t'
| lockfree_built_resize g t g' t' :
    lockfree_built t ->
    2 * LockFree.num_buckets t <= SIZE_MAX ->
    LockFree.resize g t = Ok (g', t') -> lockfree_built t'.

(** A chain with the key 6 twice, in bucket 1 of two. *)
Definition locked_duplicate : Locked.ChainedHashTable :=
  Locked.mkTable [mkBucket []; mkBucket [mkItem 6 1; mkItem 6 2]] 2 1 2.

(** A node with the key 6 in bucket 0 of two, where [hash1] does not look
    for it. *)
Definition locked_misplaced : Locked.ChainedHashTable :=
  Locked.mkTable [mkBucket [mkItem 6 1]; mkBucket []] 2 1 1.

(** ** Notions used in the further properties *)

(** The number of nodes in a bucket array. *)
Definition node_count (bs : list Bucket) : Z :=
  Z.of_nat (length (all_items bs)).

(** Whether a history holds an insert under the key [k]. *)
Definition inserted (k : Z) (ops : list (Z * Z)) : bool :=
  existsb (fun op => fst op =? k) ops.

(** A table of four buckets with the key 7 in its bucket (bucket 0). *)
Definition locked_with_seven : Locked.ChainedHashTable :=
  Locked.mkTable [mkBucket [mkItem 7 1]; mkBucket []; mkBucket []; mkBucket []] 4 1 1.

Definition lockfree_with_seven : LockFree.ChainedHashTable :=
  LockFree.mkTable [mkBucket [mkItem 7 1]; mkBucket []; mkBucket []; mkBucket []] 4 1.

(** The tasks of a dispatch (most recent first) own the bytes from [p0] to
    [pend], one after the other, without gap or overlap. *)
Fixpoint tasks_cover (ts : list Driver.Task) (p0 pend : Z) : Prop :=
  match ts with
  | [] => pend = p0
  | T :: rest =>
      Driver.task_start T + Driver.task_bytes T = pend
      /\ tasks_cover rest p0 (Driver.task_start T)
  end.

(** Where the chunk of a task may end: after a newline, at the end of the
    input, or, for a full chunk without any newline, inside a line. *)
Definition chunk_ok (f : Driver.FILE) (T : Driver.Task) : Prop :=
  1 <= Driver.task_bytes T <= Driver.FILE_CHUNK_SIZE
  /\ (Driver.contents f (Driver.task_start T + Driver.task_bytes T - 1) = Driver.newline
      \/ Driver.task_start T + Driver.task_bytes T = Driver.size f
      \/ (Driver.task_bytes T = Driver.FILE_CHUNK_SIZE
          /\ forall j, 0 <= j < Driver.FILE_CHUNK_SIZE ->
                       Driver.contents f (Driver.task_start T + j) <> Driver.newline)).

(** The stream and the tasks of a dispatch that started at offset [p0] of the
    input [f0]. *)
Definition covering (f0 : Driver.FILE) (p0 : Z) (st : Driver.Dispatch) : Prop :=
  Driver.contents (Driver.file st) = Driver.contents f0
  /\ Driver.size (Driver.file st) = Driver.size f0
  /\ 0 <= Driver.pos (Driver.file st) <= Driver.size f0
  /\ tasks_cover (Driver.tasks st) p0 (Driver.pos (Driver.file st))
  /\ Forall (chunk_ok f0) (Driver.tasks st).

(** An input of two lines, [I 1 2] and [L 1 2]. *)
Definition two_lines : list Z :=
  [73; 32; 49; 32; 50; 10; 76; 32; 49; 32; 50; 10].

Definition two_lines_file : Driver.FILE :=
  Driver.mkFILE (fun i => nth (Z.to_nat i) two_lines 0) 12 0.

(** ** The line parser and the task body: main.c

    [main.c] sees the table through [chained.h] only, and is linked with
    either table file: [TableOps] is that interface.  A pointer into the
    buffer of a task is the list of the bytes from it to the end of the
    chunk; the ['\0'] that the driver stores at [buffer[bytes_read]] follows
    the last byte.  The two [double] time stamps of [MetricObject] are left
    out. *)

Module Task.

Record TableOps : Type := mkTableOps {
  table : Type;
  lookup : table -> Z -> result Z;
  insert : Globals -> table -> Z -> Z -> result (Globals * table);
  resize : Globals -> table -> result (Globals * table)
}.

Definition locked_ops : TableOps :=
  mkTableOps Locked.ChainedHashTable Locked.lookup Locked.insert Locked.resize.

Definition lock_free_ops : TableOps :=
  mkTableOps LockFree.ChainedHashTable LockFree.lookup LockFree.insert
             LockFree.resize.

(** [*cursor]. *)
Definition deref (cursor : list Z) : Z :=
  match cursor with
  | [] => 0
  | c :: _ => c
  end.

(** [isspace] and [isdigit] of the C locale. *)
Definition isspace (c : Z) : bool := (c =? 32) || ((9 <=? c) && (c <=? 13)).
Definition isdigit (c : Z) : bool := (48 <=? c) && (c <=? 57).

Fixpoint skip_spaces (s : list Z) : list Z :=
  match s with
  | [] => []
  | c :: rest => if isspace c then skip_spaces rest else s
  end.

(** The digits at the head of [s], read after the digits that gave [acc]:
    their value and the rest of [s]. *)
Fixpoint read_digits (s : list Z) (acc : Z) : Z * list Z :=
  match s with
  | [] => (acc, [])
  | c :: rest =>
      if isdigit c then read_digits rest (acc * 10 + (c - 48)) else (acc, s)
  end.

(** [strtoull(nptr, &end_ptr, 10)] of the C library: white space, an
    optional sign, decimal digits.  Without a digit nothing is converted and
    [end_ptr] is [nptr]; a value above [ULLONG_MAX] gives [ULLONG_MAX]; with
    a minus sign the value is negated as an [unsigned long long].  The
    result is the value and [end_ptr]. *)
Definition strtoull (nptr : list Z) : Z * list Z :=
  let s := skip_spaces nptr in
  let '(negative, s) :=
    match s with
    | 45 :: rest => (true, rest)
    | 43 :: rest => (false, rest)
    | _ => (false, s)
    end in
  if isdigit (deref s) then
    let '(n, end_ptr) := read_digits s 0 in
    if UINT64_MAX <? n then (UINT64_MAX, end_ptr)
    else ((if negative then wrap64 (- n) else n), end_ptr)
  else (0, nptr).

(** The first loop of [parse_line]: [cursor++] while [*cursor] is a space,
    a tab or a newline. *)
Fixpoint skip_blanks (cursor : list Z) : list Z :=
  match cursor with
  | [] => []
  | c :: rest =>
      if (c =? 32) || (c =? 9) || (c =? 10) then skip_blanks rest else cursor
  end.

(** [parse_line]: [None] is the [NULL] result; otherwise the values stored
    through [op], [key] and [val], and the returned cursor. *)
Definition parse_line (cursor : list Z) : option (Z * Z * Z * list Z) :=
  let cursor := skip_blanks cursor in
  match cursor with
  | [] => None
  | c :: rest =>
      if c =? 0 then None
      else
        let op := c in
        let cursor := rest in
        let '(key, end_ptr) := strtoull cursor in
        let cursor := end_ptr in
        let '(val, end_ptr) := strtoull cursor in
        let cursor := end_ptr in
        Some (op, key, val, cursor)
  end.

(** The six counters of [MetricObject]. *)
Record MetricObject : Type := mkMetrics {
  total_ops : Z;
  total_lookups : Z;
  successful_lookups : Z;
  missed_lookups : Z;
  total_inserts : Z;
  failed_match : Z
}.

(** The six [temp_] counters of a task. *)
Record Temps : Type := mkTemps {
  temp_ops : Z;
  temp_lookups : Z;
  temp_succ_lookups : Z;
  temp_missed_lookups : Z;
  temp_inserts : Z;
  temp_failed_match : Z
}.

(** [x++] on a [uint64_t]. *)
Definition incr (x : Z) : Z := wrap64 (x + 1).

(** The [while (cursor < end && *cursor != '\0')] loop of a task.  [None]
    is a run that has not left the loop within [fuel] iterations. *)
Fixpoint task_loop (ops : TableOps) (fuel : nat) (cursor : list Z)
    (g : Globals) (chained : table ops) (m : Temps)
  : option (result (Globals * table ops * Temps)) :=
  match fuel with
  | O => None
  | S fuel' =>
      if match cursor with [] => false | _ => true end && negb (deref cursor =? 0) then
        match parse_line cursor with
        | None => Some (Ok (g, chained, m))
        | Some (hash_op, key, value, cursor') =>
            let m := mkTemps (incr (temp_ops m)) (temp_lookups m)
                       (temp_succ_lookups m) (temp_missed_lookups m)
                       (temp_inserts m) (temp_failed_match m) in
            if hash_op =? 76 then
              let m := mkTemps (temp_ops m) (incr (temp_lookups m))
                         (temp_succ_lookups m) (temp_missed_lookups m)
                         (temp_inserts m) (temp_failed_match m) in
              match lookup ops chained key with
              | Fault f => Some (Fault f)
              | Ok lookup_val =>
                  let m :=
                    if speed_test g =? 0 then
                      if lookup_val =? INVALID_VALUE then
                        mkTemps (temp_ops m) (temp_lookups m)
                          (temp_succ_lookups m) (incr (temp_missed_lookups m))
                          (temp_inserts m) (temp_failed_match m)
                      else
                        mkTemps (temp_ops m) (temp_lookups m)
                          (incr (temp_succ_lookups m)) (temp_missed_lookups m)
                          (temp_inserts m)
                          (if negb (lookup_val =? value)
                           then incr (temp_failed_match m)
                           else temp_failed_match m)
                    else m in
                  task_loop ops fuel' cursor' g chained m
              end
            else if hash_op =? 73 then
              let m := mkTemps (temp_ops m) (temp_lookups m)
                         (temp_succ_lookups m) (temp_missed_lookups m)
                         (incr (temp_inserts m)) (temp_failed_match m) in
              match insert ops g chained key value with
              | Fault f => Some (Fault f)
              | Ok (g', chained') => task_loop ops fuel' cursor' g' chained' m
              end
            else task_loop ops fuel' cursor' g chained m
        end
      else Some (Ok (g, chained, m))
  end.

(** The [+=] of the six counters at the end of a task. *)
Definition add_metrics (run_metrics : MetricObject) (m : Temps) : MetricObject :=
  mkMetrics (wrap64 (total_ops run_metrics + temp_ops m))
            (wrap64 (total_lookups run_metrics + temp_lookups m))
            (wrap64 (successful_lookups run_metrics + temp_succ_lookups m))
            (wrap64 (missed_lookups run_metrics + temp_missed_lookups m))
            (wrap64 (total_inserts run_metrics + temp_inserts m))
            (wrap64 (failed_match run_metrics + temp_failed_match m)).

(** The body of a task on its buffer: the globals, the table and
    [run_metrics] afterwards. *)
Definition run_task (ops : TableOps) (fuel : nat) (buffer : list Z)
    (g : Globals) (chained : table ops) (run_metrics : MetricObject)
  : option (result (Globals * table ops * MetricObject)) :=
  match task_loop ops fuel buffer g chained (mkTemps 0 0 0 0 0 0) with
  | None => None
  | Some (Fault f) => Some (Fault f)
  | Some (Ok (g', chained', m)) =>
      Some (Ok (g', chained',
                if speed_test g' =? 0 then add_metrics run_metrics m
                else run_metrics))
  end.

End Task.

(** The bytes of a decimal numeral, and the decimal numeral of a number. *)
Fixpoint uint_bytes (d : Decimal.uint) : list Z :=
  match d with
  | Decimal.Nil => []
  | Decimal.D0 r => 48 :: uint_bytes r
  | Decimal.D1 r => 49 :: uint_bytes r
  | Decimal.D2 r => 50 :: uint_bytes r
  | Decimal.D3 r => 51 :: uint_bytes r
  | Decimal.D4 r => 52 :: uint_bytes r
  | Decimal.D5 r => 53 :: uint_bytes r
  | Decimal.D6 r => 54 :: uint_bytes r
  | Decimal.D7 r => 55 :: uint_bytes r
  | Decimal.D8 r => 56 :: uint_bytes r
  | Decimal.D9 r => 57 :: uint_bytes r
  end.

Definition decimal (n : Z) : list Z := uint_bytes (N.to_uint (Z.to_N n)).

(** A line of the input: an opcode byte, a key and a value. *)
Record Line : Type := mkLine {
  line_op : Z;
  line_key : Z;
  line_value : Z
}.

(** The text of a line: the opcode, a space, the key in decimal, a space,
    the value in decimal, a newline. *)
Definition format_line (l : Line) : list Z :=
  line_op l :: 32 :: decimal (line_key l) ++ 32 :: decimal (line_value l) ++ [10].

Definition format_lines (ls : list Line) : list Z :=
  concat (map format_line ls).

(** The opcode is a byte that [parse_line] neither skips nor takes for the
    end of the buffer, and key and value are 64-bit numbers. *)
Definition well_formed_line (l : Line) : Prop :=
  line_op l <> 0 /\ line_op l <> 32 /\ line_op l <> 9 /\ line_op l <> 10
  /\ is_u64 (line_key l) /\ is_u64 (line_value l).

(** The inserts of a list of lines, in order. *)
Fixpoint line_inserts (ls : list Line) : list (Z * Z) :=
  match ls with
  | [] => []
  | l :: rest =>
      if line_op l =? 73 then (line_key l, line_value l) :: line_inserts rest
      else line_inserts rest
  end.

(** The number of lines with the opcode [c]. *)
Definition count_op (c : Z) (ls : list Line) : Z :=
  Z.of_nat (length (List.filter (fun l => line_op l =? c) ls)).

(** A buffer does not go on with a digit. *)
Definition no_digit_ahead (rest : list Z) : Prop :=
  Task.isdigit (Task.deref rest) = false.

(** A sequence of [insert] calls through the interface of [chained.h]. *)
Fixpoint insert_all (ops : Task.TableOps) (g : Globals) (chained : Task.table ops)
    (pairs : list (Z * Z)) : result (Globals * Task.table ops) :=
  match pairs with
  | [] => Ok (g, chained)
  | (k, v) :: rest =>
      r <- Task.insert ops g chained k v ;;
      insert_all ops (fst r) (snd r) rest
  end.

(** The counters of a task are 64-bit numbers, the lookups are the hits and
    the misses, a failed match is a hit, and every counted line is at most
    one lookup or insert. *)
Definition temps_consistent (m : Task.Temps) : Prop :=
  0 <= Task.temp_succ_lookups m /\ 0 <= Task.temp_missed_lookups m
  /\ 0 <= Task.temp_inserts m
  /\ 0 <= Task.temp_failed_match m <= Task.temp_succ_lookups m
  /\ Task.temp_lookups m = Task.temp_succ_lookups m + Task.temp_missed_lookups m
  /\ Task.temp_lookups m + Task.temp_inserts m <= Task.temp_ops m.

(** What a task that returns has added to [run_metrics]: consistent counters,
    with at most one counted line per byte of the buffer. *)
Definition adds_consistent_counters {T : Type} (buffer : list Z)
    (run_metrics : Task.MetricObject)
    (r : result (Globals * T * Task.MetricObject)) : Prop :=
  forall g' chained' run_metrics',
    r = Ok (g', chained', run_metrics') ->
    exists m,
      temps_consistent m
      /\ Task.temp_ops m <= Z.of_nat (length buffer)
      /\ run_metrics' = Task.add_metrics run_metrics m.

(** What a task has added to three counters of [run_metrics] after the lines
    [ls]: nothing in a speed test, else the lines, the lookups and the
    inserts. *)
Definition counted_lines (g : Globals) (ls : list Line)
    (run_metrics run_metrics' : Task.MetricObject) : Prop :=
  if speed_test g =? 0
  then Task.total_ops run_metrics'
       = wrap64 (Task.total_ops run_metrics + Z.of_nat (length ls))
       /\ Task.total_lookups run_metrics'
          = wrap64 (Task.total_lookups run_metrics + count_op 76 ls)
       /\ Task.total_inserts run_metrics'
          = wrap64 (Task.total_inserts run_metrics + count_op 73 ls)
  else run_metrics' = run_metrics.

(** A reference for the lookups of a task: the table as a function from keys
    to values ([INVALID_VALUE] where there is no node), an insert as an
    update of the function, and the hits, misses and failed matches of the
    ['L'] lines of a list of lines. *)
Definition store_insert (f : Z -> Z) (k v : Z) : Z -> Z :=
  fun k' =>
    if (k =? INVALID_KEY) || (v =? INVALID_VALUE) then f k'
    else if k' =? k then v else f k'.

Fixpoint reference_counts (f : Z -> Z) (ls : list Line) : Z * Z * Z :=
  match ls with
  | [] => (0, 0, 0)
  | l :: rest =>
      if line_op l =? 76 then
        let r := reference_counts f rest in
        if f (line_key l) =? INVALID_VALUE then (r.1.1, r.1.2 + 1, r.2)
        else (r.1.1 + 1, r.1.2,
              if f (line_key l) =? line_value l then r.2 else r.2 + 1)
      else if line_op l =? 73 then
        reference_counts (store_insert f (line_key l) (line_value l)) rest
      else reference_counts f rest
  end.

(** The function a sized table stands for. *)
Definition locked_contents (t : Locked.ChainedHashTable) : Z -> Z :=
  fun k => if k =? INVALID_KEY then INVALID_VALUE
           else find_in (Locked.buckets t) (Locked.num_buckets t) k.

Definition lockfree_contents (t : LockFree.ChainedHashTable) : Z -> Z :=
  fun k => if k =? INVALID_KEY then INVALID_VALUE
           else find_in (LockFree.buckets t) (LockFree.num_buckets t) k.

(** What a task has added to the three lookup counters of [run_metrics]
    after the lines [ls] on a table that stands for [f]. *)
Definition counted_lookups (f : Z -> Z) (ls : list Line)
    (run_metrics run_metrics' : Task.MetricObject) : Prop :=
  Task.successful_lookups run_metrics'
  = wrap64 (Task.successful_lookups run_metrics + (reference_counts f ls).1.1)
  /\ Task.missed_lookups run_metrics'
     = wrap64 (Task.missed_lookups run_metrics + (reference_counts f ls).1.2)
  /\ Task.failed_match run_metrics'
     = wrap64 (Task.failed_match run_metrics + (reference_counts f ls).2).

(** ** The parallel region of [main]

    One iteration of [while (!end_of_file)] is a phase: the [single] region
    hands out chunks, the [taskwait] and the barrier wait for their tasks,
    and the table is resized if [resize_needed] is set.  The tasks of a
    phase are run here one after the other, in the order of their creation;
    what the [single] region reads from [resize_needed] while they run is
    the oracle [flag] of [Driver.dispatch_loop], one per phase.

    Every thread of the team tests [end_of_file] itself: it is a plain
    [int], and no barrier stands between the test of a thread and the
    [single] region of the same iteration, in which another thread may
    write it.  [team] is the number of threads of the team, and
    [late phase] says whether, in the iteration [phase], a thread other than
    the one in the [single] region tests the condition only after that
    region has written [end_of_file]. *)

Module Program.

(** The bytes of the chunk of a task. *)
Definition buffer_of (f : Driver.FILE) (T : Driver.Task) : list Z :=
  map (fun i => Driver.contents f (Driver.task_start T + Z.of_nat i))
      (seq 0 (Z.to_nat (Driver.task_bytes T))).

(** The tasks of a phase, oldest first.  A task takes at most one loop
    iteration per byte of its buffer. *)
Fixpoint run_tasks (ops : Task.TableOps) (f : Driver.FILE)
    (tasks : list Driver.Task) (g : Globals) (chained : Task.table ops)
    (run_metrics : Task.MetricObject)
  : option (result (Globals * Task.table ops * Task.MetricObject)) :=
  match tasks with
  | [] => Some (Ok (g, chained, run_metrics))
  | T :: rest =>
      let buffer := buffer_of f T in
      match Task.run_task ops (S (length buffer)) buffer g chained run_metrics with
      | None => None
      | Some (Fault e) => Some (Fault e)
      | Some (Ok (g', chained', run_metrics')) =>
          run_tasks ops f rest g' chained' run_metrics'
      end
  end.

(** [if (resize_needed) { resize(&chained); resize_needed = 0; }] *)
Definition resize_if_needed (ops : Task.TableOps) (g : Globals)
    (chained : Task.table ops) : result (Globals * Task.table ops) :=
  if negb (resize_needed g =? 0) then
    r <- Task.resize ops g chained ;;
    Ok (set_resize_needed r.1 0, r.2)
  else Ok (g, chained).

(** The state of the parallel region between two phases. *)
Record Run (ops : Task.TableOps) : Type := mkRun {
  globals : Globals;
  chained : Task.table ops;
  run_metrics : Task.MetricObject;
  stream : Driver.FILE;
  end_of_file : Z
}.

Arguments mkRun {ops}.
Arguments globals {ops}.
Arguments chained {ops}.
Arguments run_metrics {ops}.
Arguments stream {ops}.
Arguments end_of_file {ops}.

(** How the parallel region goes on from the loop: every thread has left
    the loop, in the same iteration ([Finished]); a table operation has
    faulted ([Stopped]); or a thread has left the loop while the others are
    inside the iteration ([Parted]).  After [Parted] the threads no longer
    meet the same barriers: the thread that left waits at the end of the
    region, the others at the barrier of the [single] region, and the
    program has no defined behaviour from there on (it may hang). *)
Inductive outcome (ops : Task.TableOps) : Type :=
| Finished (st : Run ops)
| Stopped (e : fault)
| Parted.

Arguments Finished {ops}.
Arguments Stopped {ops}.
Arguments Parted {ops}.

(** Whether the threads part in an iteration in which the [single] region
    leaves [end_of_file] at [eof]: the threads that tested the condition
    before the write are inside the iteration, a late thread of a team of
    two or more reads the value written. *)
Definition parts (team : Z) (late : bool) (eof : Z) : bool :=
  (1 <? team) && late && negb (eof =? 0).

(** [while (!end_of_file) { ... }]: [phase] counts the iterations, [None] is
    a run that has not come to one of the three outcomes within [fuel] tests
    of the condition by the thread that enters the [single] region. *)
Fixpoint main_loop (ops : Task.TableOps) (team : Z) (late : nat -> bool)
    (flag : nat -> Z -> Z) (fuel : nat) (phase : nat) (st : Run ops)
  : option (outcome ops) :=
  match fuel with
  | O => None
  | S fuel' =>
      if end_of_file st =? 0 then
        match Driver.dispatch_phase (flag phase)
                (Z.to_nat (Driver.MAX_TASK_POOL - 1)) (stream st) (end_of_file st) with
        | None => None
        | Some d =>
            if parts team (late phase) (Driver.end_of_file d) then Some Parted
            else
              match run_tasks ops (stream st) (rev (Driver.tasks d))
                      (globals st) (chained st) (run_metrics st) with
              | None => None
              | Some (Fault e) => Some (Stopped e)
              | Some (Ok (g1, chained1, run_metrics1)) =>
                  match resize_if_needed ops g1 chained1 with
                  | Fault e => Some (Stopped e)
                  | Ok (g2, chained2) =>
                      main_loop ops team late flag fuel' (S phase)
                        (mkRun g2 chained2 run_metrics1 (Driver.file d)
                               (Driver.end_of_file d))
                  end
              end
        end
      else Some (Finished st)
  end.

End Program.

(** No thread tests the loop condition late: a team of one thread, or a
    schedule in which every thread tests it before the [single] region of
    the iteration writes [end_of_file]. *)
Definition in_step (team : Z) (late : nat -> bool) : Prop :=
  team <= 1 \/ forall phase, late phase = false.

(** An input stream with the given bytes, at its start. *)
Definition file_of (bytes : list Z) : Driver.FILE :=
  Driver.mkFILE (fun i => nth (Z.to_nat i) bytes 0) (Z.of_nat (length bytes)) 0.

(** The reference function after a sequence of inserts. *)
Definition store_after (f : Z -> Z) (pairs : list (Z * Z)) : Z -> Z :=
  fold_left (fun f' p => store_insert f' p.1 p.2) pairs f.

(** The final state of a run on the lines [ls], started with the globals [g]
    on a table that stands for [f]: the loop has ended, no resize is
    pending, the whole input has been read, every lookup on the final table
    gives the value of the reference function after the inserts of the
    lines, and the counters are those of the lines. *)
Definition run_agrees {ops : Task.TableOps} (g : Globals) (f : Z -> Z)
    (ls : list Line) (r : Program.Run ops) : Prop :=
  Program.end_of_file r = 1
  /\ resize_needed (Program.globals r) = 0
  /\ Driver.pos (Program.stream r) = Z.of_nat (length (format_lines ls))
  /\ (forall k, Task.lookup ops (Program.chained r) k
                = Ok (store_after f (line_inserts ls) k))
  /\ counted_lines g ls (Task.mkMetrics 0 0 0 0 0 0) (Program.run_metrics r)
  /\ (speed_test g = 0 ->
      counted_lookups f ls (Task.mkMetrics 0 0 0 0 0 0) (Program.run_metrics r)).


(** * Properties *)

(** ** Machine arithmetic and the hash function *)


Lemma wrap64_small z : 0 <= z <= UINT64_MAX -> wrap64 z = z.
Proof. unfold wrap64, UINT64_MAX. intros H. apply Z.mod_small. lia. Qed.

Lemma wrap64_mul_add k : wrap64 (wrap64 (k * 37) + 13) = wrap64 (k * 37 + 13).
Proof. unfold wrap64. apply Zplus_mod_idemp_l. Qed.

Lemma hash1_ok key nb :
  nb <> 0 -> hash1 key nb = Ok (wrap64 (key * 37 + 13) mod nb).
Proof.
  intros H. unfold hash1. rewrite wrap64_mul_add.
  destruct (Z.eqb_spec nb 0); [contradiction | reflexivity].
Qed.

Lemma hash1_zero key : hash1 key 0 = Fault DivisionByZero.
Proof. reflexivity. Qed.

Lemma hash1_range key nb b :
  0 < nb -> hash1 key nb = Ok b -> 0 <= b < nb.
Proof.
  intros Hnb. rewrite hash1_ok by lia. intros [= <-].
  apply Z.mod_pos_bound; lia.
Qed.

(** ** Chains *)

Lemma insert_scan_found k v c d :
  (insert_scan k v c d).1.1 = true ->
  lookup_scan k (insert_scan k v c d).2 INVALID_VALUE = v.
Proof.
  revert d. induction c as [|it c IH]; intros d; simpl.
  - discriminate.
  - destruct (Z.eqb_spec (key it) k) as [E|E]; simpl.
    + intros _. rewrite E, Z.eqb_refl. reflexivity.
    + specialize (IH (int_wrap (d + 1))).
      destruct (insert_scan k v c (int_wrap (d + 1))) as [[s d'] c']; simpl in *.
      intros Hs. destruct (Z.eqb_spec (key it) k); [contradiction | auto].
Qed.

Lemma insert_scan_missing k v c d :
  (insert_scan k v c d).1.1 = false ->
  (insert_scan k v c d).2 = c /\ forall dflt, lookup_scan k c dflt = dflt.
Proof.
  revert d. induction c as [|it c IH]; intros d; simpl.
  - auto.
  - destruct (Z.eqb_spec (key it) k) as [E|E]; simpl.
    + discriminate.
    + specialize (IH (int_wrap (d + 1))).
      destruct (insert_scan k v c (int_wrap (d + 1))) as [[s d'] c']; simpl in *.
      intros Hs. destruct (IH Hs) as [-> H]. auto.
Qed.

Lemma insert_scan_other k v c d k' dflt :
  k' <> k ->
  lookup_scan k' (insert_scan k v c d).2 dflt = lookup_scan k' c dflt.
Proof.
  intros Hne. revert d. induction c as [|it c IH]; intros d; simpl.
  - reflexivity.
  - destruct (Z.eqb_spec (key it) k) as [E|E]; simpl.
    + destruct (Z.eqb_spec (key it) k'); [congruence | reflexivity].
    + specialize (IH (int_wrap (d + 1))).
      destruct (insert_scan k v c (int_wrap (d + 1))) as [[s d'] c']; simpl in *.
      destruct (Z.eqb_spec (key it) k'); auto.
Qed.

Lemma insert_scan_keys k v c d :
  map key (insert_scan k v c d).2 = map key c.
Proof.
  revert d. induction c as [|it c IH]; intros d; simpl.
  - reflexivity.
  - destruct (Z.eqb_spec (key it) k) as [E|E]; simpl.
    + reflexivity.
    + specialize (IH (int_wrap (d + 1))).
      destruct (insert_scan k v c (int_wrap (d + 1))) as [[s d'] c']; simpl in *.
      congruence.
Qed.

(** ** Bucket arrays *)

Lemma read_bucket_Ok bs i b :
  read_bucket bs i = Ok b <-> bs !! Z.to_nat i = Some b.
Proof.
  unfold read_bucket. destruct (bs !! Z.to_nat i); split; congruence.
Qed.

Lemma read_bucket_in_range bs i :
  0 <= i < Z.of_nat (length bs) ->
  read_bucket bs i = Ok (mkBucket (chain_at bs i)).
Proof.
  intros Hi. unfold read_bucket, chain_at.
  destruct (bs !! Z.to_nat i) as [[h]|] eqn:E; [reflexivity|].
  apply lookup_ge_None in E. lia.
Qed.

Lemma length_write_head bs i h : length (write_head bs i h) = length bs.
Proof. unfold write_head. apply length_insert. Qed.

Lemma chain_at_write_head_eq bs i h :
  0 <= i < Z.of_nat (length bs) -> chain_at (write_head bs i h) i = h.
Proof.
  intros Hi. unfold chain_at, write_head.
  rewrite list_lookup_insert_eq by lia. reflexivity.
Qed.

Lemma chain_at_write_head_ne bs i j h :
  0 <= i -> 0 <= j -> i <> j -> chain_at (write_head bs i h) j = chain_at bs j.
Proof.
  intros Hi Hj Hne. unfold chain_at, write_head.
  rewrite list_lookup_insert_ne by lia. reflexivity.
Qed.

Lemma slot_range nb k : 0 < nb -> 0 <= slot nb k < nb.
Proof. intros H. unfold slot. apply Z.mod_pos_bound. lia. Qed.

Lemma hash1_slot k nb : 0 < nb -> hash1 k nb = Ok (slot nb k).
Proof. intros H. unfold slot. apply hash1_ok. lia. Qed.

Lemma length_put bs nb k v : length (put bs nb k v) = length bs.
Proof.
  unfold put. destruct (insert_scan _ _ _ _) as [[s d] c'].
  apply length_write_head.
Qed.

Lemma find_in_put bs nb k v k' :
  0 < nb -> Z.of_nat (length bs) = nb ->
  find_in (put bs nb k v) nb k' = if k' =? k then v else find_in bs nb k'.
Proof.
  intros Hnb Hlen. unfold find_in, put.
  pose proof (slot_range nb k Hnb) as Hk.
  pose proof (slot_range nb k' Hnb) as Hk'.
  pose proof (insert_scan_found k v (chain_at bs (slot nb k)) 0) as Hfound.
  pose proof (insert_scan_missing k v (chain_at bs (slot nb k)) 0) as Hmiss.
  pose proof (fun d => insert_scan_other k v (chain_at bs (slot nb k)) 0 k' d) as Hoth.
  destruct (insert_scan k v (chain_at bs (slot nb k)) 0) as [[s d] c']; simpl in *.
  destruct (Z.eqb_spec k' k) as [->|Hne].
  - rewrite chain_at_write_head_eq by lia.
    destruct s; [auto | simpl; rewrite Z.eqb_refl; reflexivity].
  - destruct (Z.eq_dec (slot nb k) (slot nb k')) as [E|E].
    + rewrite <- E. rewrite chain_at_write_head_eq by lia.
      destruct s.
      * apply Hoth; assumption.
      * simpl. destruct (Z.eqb_spec k k'); [congruence | reflexivity].
    + rewrite chain_at_write_head_ne by lia. reflexivity.
Qed.

(** ** Striped-lock variant: lookup and insert *)

Lemma locked_get_lock_idx_ok t i :
  1 <= Locked.num_locks t ->
  Locked.get_lock_idx t i = Ok (i mod Locked.num_locks t).
Proof.
  intros H. unfold Locked.get_lock_idx.
  destruct (Z.eqb_spec (Locked.num_locks t) 0); [lia | reflexivity].
Qed.

Lemma locked_lookup_find t k :
  locked_sized t ->
  Locked.lookup t k =
  Ok (if k =? INVALID_KEY then INVALID_VALUE
      else find_in (Locked.buckets t) (Locked.num_buckets t) k).
Proof.
  intros (Hnb & Hlen & Hnl). unfold Locked.lookup.
  destruct (k =? INVALID_KEY); [reflexivity|].
  rewrite hash1_slot by lia. simpl.
  rewrite locked_get_lock_idx_ok by assumption. simpl.
  pose proof (slot_range (Locked.num_buckets t) k ltac:(lia)).
  rewrite read_bucket_in_range by lia. reflexivity.
Qed.

Lemma locked_insert_section_put t k v :
  locked_sized t ->
  Locked.insert_section t k v =
  Ok (Locked.set_buckets t (put (Locked.buckets t) (Locked.num_buckets t) k v),
      negb (insert_scan k v (chain_at (Locked.buckets t)
                                      (slot (Locked.num_buckets t) k)) 0).1.1,
      (insert_scan k v (chain_at (Locked.buckets t)
                                 (slot (Locked.num_buckets t) k)) 0).1.2).
Proof.
  intros (Hnb & Hlen & Hnl). unfold Locked.insert_section, put.
  rewrite hash1_slot by lia. simpl.
  rewrite locked_get_lock_idx_ok by assumption. simpl.
  pose proof (slot_range (Locked.num_buckets t) k ltac:(lia)).
  rewrite read_bucket_in_range by lia. simpl.
  destruct (insert_scan _ _ _ _) as [[[] d] c']; reflexivity.
Qed.

Lemma locked_insert_put g t k v :
  locked_sized t -> k <> INVALID_KEY -> v <> INVALID_VALUE ->
  let c := chain_at (Locked.buckets t) (slot (Locked.num_buckets t) k) in
  Locked.insert g t k v =
  Ok (Locked.insert_epilogue g
        (Locked.set_buckets t (put (Locked.buckets t) (Locked.num_buckets t) k v))
        (negb (insert_scan k v c 0).1.1) (insert_scan k v c 0).1.2).
Proof.
  intros Hs Hk Hv c. unfold Locked.insert.
  destruct (Z.eqb_spec k INVALID_KEY); [contradiction|].
  destruct (Z.eqb_spec v INVALID_VALUE); [contradiction|].
  rewrite locked_insert_section_put by assumption. reflexivity.
Qed.

Lemma locked_epilogue_shape g t a d :
  Locked.buckets (Locked.insert_epilogue g t a d).2 = Locked.buckets t
  /\ Locked.num_buckets (Locked.insert_epilogue g t a d).2 = Locked.num_buckets t
  /\ Locked.num_locks (Locked.insert_epilogue g t a d).2 = Locked.num_locks t.
Proof.
  unfold Locked.insert_epilogue.
  destruct a; simpl; [|auto]. destruct (speed_test g =? 0); simpl; auto.
Qed.

(** ** Lock-free variant: lookup and insert *)

Lemma lockfree_lookup_find t k :
  lockfree_sized t ->
  LockFree.lookup t k =
  Ok (if k =? INVALID_KEY then INVALID_VALUE
      else find_in (LockFree.buckets t) (LockFree.num_buckets t) k).
Proof.
  intros (Hnb & Hlen). unfold LockFree.lookup.
  destruct (k =? INVALID_KEY); [reflexivity|].
  rewrite hash1_slot by lia. simpl.
  pose proof (slot_range (LockFree.num_buckets t) k ltac:(lia)).
  rewrite read_bucket_in_range by lia. reflexivity.
Qed.

(** The compare-and-capture of a sequential run finds the snapshot. *)
Lemma compare_capture_snapshot bs i add_item :
  0 <= i < Z.of_nat (length bs) ->
  LockFree.compare_capture bs i (chain_at bs i) add_item =
  Ok (chain_at bs i, write_head bs i add_item).
Proof.
  intros Hi. unfold LockFree.compare_capture.
  rewrite read_bucket_in_range by assumption. simpl.
  destruct (decide (chain_at bs i = chain_at bs i)); [reflexivity | contradiction].
Qed.

Lemma lockfree_insert_section_put t k v :
  lockfree_sized t ->
  LockFree.insert_section t k v =
  Ok (LockFree.set_buckets t (put (LockFree.buckets t) (LockFree.num_buckets t) k v),
      negb (insert_scan k v (chain_at (LockFree.buckets t)
                                      (slot (LockFree.num_buckets t) k)) 0).1.1,
      (insert_scan k v (chain_at (LockFree.buckets t)
                                 (slot (LockFree.num_buckets t) k)) 0).1.2).
Proof.
  intros (Hnb & Hlen). unfold LockFree.insert_section, put.
  rewrite hash1_slot by lia. simpl.
  pose proof (slot_range (LockFree.num_buckets t) k ltac:(lia)).
  rewrite read_bucket_in_range by lia. simpl.
  destruct (insert_scan _ _ _ _) as [[[] d] c']; [reflexivity|].
  rewrite compare_capture_snapshot by lia. simpl.
  destruct (decide (_ = _)); [reflexivity | contradiction].
Qed.

(** The retry branch of [insert] is not taken in a sequential run. *)
Lemma insert_section_no_retry t k v :
  LockFree.insert_section t k v <> Fault Interference.
Proof.
  unfold LockFree.insert_section.
  destruct (hash1 k (LockFree.num_buckets t)) as [b|f] eqn:Eh; simpl.
  - destruct (read_bucket (LockFree.buckets t) b) as [bk|f] eqn:Er; simpl.
    + destruct (insert_scan _ _ _ _) as [[[] d] c']; [discriminate|].
      unfold LockFree.compare_capture. rewrite Er. simpl.
      destruct (decide (head bk = head bk)); [simpl | contradiction].
      destruct (decide (head bk = head bk)); [discriminate | contradiction].
    + unfold read_bucket in Er. destruct (_ !! _); [discriminate|].
      injection Er as <-. discriminate.
  - unfold hash1 in Eh. destruct (_ =? 0); [|discriminate].
    injection Eh as <-. discriminate.
Qed.

Lemma lockfree_insert_put g t k v :
  lockfree_sized t -> k <> INVALID_KEY -> v <> INVALID_VALUE ->
  let c := chain_at (LockFree.buckets t) (slot (LockFree.num_buckets t) k) in
  LockFree.insert g t k v =
  Ok (LockFree.insert_epilogue g
        (LockFree.set_buckets t (put (LockFree.buckets t) (LockFree.num_buckets t) k v))
        (negb (insert_scan k v c 0).1.1) (insert_scan k v c 0).1.2).
Proof.
  intros Hs Hk Hv c. unfold LockFree.insert.
  destruct (Z.eqb_spec k INVALID_KEY); [contradiction|].
  destruct (Z.eqb_spec v INVALID_VALUE); [contradiction|].
  rewrite lockfree_insert_section_put by assumption. reflexivity.
Qed.

Lemma lockfree_epilogue_shape g t a d :
  LockFree.buckets (LockFree.insert_epilogue g t a d).2 = LockFree.buckets t
  /\ LockFree.num_buckets (LockFree.insert_epilogue g t a d).2 = LockFree.num_buckets t.
Proof.
  unfold LockFree.insert_epilogue.
  destruct a; simpl; [|auto]. destruct (speed_test g =? 0); simpl; auto.
Qed.

(** ** Sequences of inserts *)

Lemma latest_absent k ops d :
  Forall (fun op : Z * Z => op.1 <> k) ops -> latest k ops d = d.
Proof.
  intros H. revert d. induction H as [|[k' v] ops Hk _ IH]; intros d; simpl.
  - reflexivity.
  - simpl in Hk. destruct (Z.eqb_spec k' k); [contradiction | apply IH].
Qed.

Lemma chain_at_calloc nb i : chain_at (calloc_buckets nb) i = [].
Proof.
  unfold chain_at, calloc_buckets.
  destruct (replicate _ _ !! _) as [b|] eqn:E; [|reflexivity].
  apply lookup_replicate in E as [-> _]. reflexivity.
Qed.

Lemma length_calloc nb : 0 <= nb -> Z.of_nat (length (calloc_buckets nb)) = nb.
Proof. intros H. unfold calloc_buckets. rewrite length_replicate. lia. Qed.

Lemma find_in_calloc nb nb' k : find_in (calloc_buckets nb) nb' k = INVALID_VALUE.
Proof. unfold find_in. rewrite chain_at_calloc. reflexivity. Qed.

Lemma locked_run_inserts_find ops : forall g t,
  locked_sized t -> Forall valid_op ops ->
  exists g' t',
    Locked.run_inserts g t ops = Ok (g', t')
    /\ locked_sized t'
    /\ Locked.num_buckets t' = Locked.num_buckets t
    /\ forall k, find_in (Locked.buckets t') (Locked.num_buckets t) k
                 = latest k ops (find_in (Locked.buckets t) (Locked.num_buckets t) k).
Proof.
  induction ops as [|[k0 v0] ops IH]; intros g t Hs Hops; simpl.
  - exists g, t. auto.
  - inversion Hops as [|? ? [Hk Hv] Hrest]; subst. simpl in Hk, Hv.
    rewrite locked_insert_put by assumption. simpl.
    set (r := Locked.insert_epilogue _ _ _ _).
    destruct (locked_epilogue_shape g
      (Locked.set_buckets t (put (Locked.buckets t) (Locked.num_buckets t) k0 v0))
      (negb (insert_scan k0 v0 (chain_at (Locked.buckets t)
                                  (slot (Locked.num_buckets t) k0)) 0).1.1)
      (insert_scan k0 v0 (chain_at (Locked.buckets t)
                            (slot (Locked.num_buckets t) k0)) 0).1.2)
      as (Hb & Hnb & Hnl).
    fold r in Hb, Hnb, Hnl. simpl in Hb, Hnb, Hnl.
    destruct Hs as (H1 & H2 & H3).
    assert (Hs1 : locked_sized r.2).
    { unfold locked_sized. rewrite Hb, Hnb, Hnl, length_put. auto. }
    destruct (IH r.1 r.2 Hs1 Hrest) as (g' & t' & Hrun & Hs' & Hnb' & Hfind).
    exists g', t'. split; [exact Hrun|]. split; [exact Hs'|].
    split; [congruence|]. intros k.
    rewrite Hnb in Hfind. rewrite Hfind, Hb.
    rewrite find_in_put by (assumption || lia).
    rewrite (Z.eqb_sym k k0). reflexivity.
Qed.

Lemma lockfree_run_inserts_find ops : forall g t,
  lockfree_sized t -> Forall valid_op ops ->
  exists g' t',
    LockFree.run_inserts g t ops = Ok (g', t')
    /\ lockfree_sized t'
    /\ LockFree.num_buckets t' = LockFree.num_buckets t
    /\ forall k, find_in (LockFree.buckets t') (LockFree.num_buckets t) k
                 = latest k ops (find_in (LockFree.buckets t) (LockFree.num_buckets t) k).
Proof.
  induction ops as [|[k0 v0] ops IH]; intros g t Hs Hops; simpl.
  - exists g, t. auto.
  - inversion Hops as [|? ? [Hk Hv] Hrest]; subst. simpl in Hk, Hv.
    rewrite lockfree_insert_put by assumption. simpl.
    set (r := LockFree.insert_epilogue _ _ _ _).
    destruct (lockfree_epilogue_shape g
      (LockFree.set_buckets t (put (LockFree.buckets t) (LockFree.num_buckets t) k0 v0))
      (negb (insert_scan k0 v0 (chain_at (LockFree.buckets t)
                                  (slot (LockFree.num_buckets t) k0)) 0).1.1)
      (insert_scan k0 v0 (chain_at (LockFree.buckets t)
                            (slot (LockFree.num_buckets t) k0)) 0).1.2)
      as (Hb & Hnb).
    fold r in Hb, Hnb. simpl in Hb, Hnb.
    destruct Hs as (H1 & H2).
    assert (Hs1 : lockfree_sized r.2).
    { unfold lockfree_sized. rewrite Hb, Hnb, length_put. auto. }
    destruct (IH r.1 r.2 Hs1 Hrest) as (g' & t' & Hrun & Hs' & Hnb' & Hfind).
    exists g', t'. split; [exact Hrun|]. split; [exact Hs'|].
    split; [congruence|]. intros k.
    rewrite Hnb in Hfind. rewrite Hfind, Hb.
    rewrite find_in_put by (assumption || lia).
    rewrite (Z.eqb_sym k k0). reflexivity.
Qed.

Lemma locked_sized_create nb nl :
  1 <= nb -> 1 <= nl -> locked_sized (Locked.create_table nb nl).
Proof.
  intros H1 H2. unfold locked_sized; simpl. rewrite length_calloc by lia. auto.
Qed.

Lemma lockfree_sized_create nb nl :
  1 <= nb -> lockfree_sized (LockFree.create_table nb nl).
Proof.
  intros H1. unfold lockfree_sized; simpl. rewrite length_calloc by lia. auto.
Qed.

Lemma latest_sentinel ops d :
  Forall valid_op ops -> latest INVALID_KEY ops d = d.
Proof.
  intros H. apply latest_absent. eapply Forall_impl; [exact H|].
  intros op [Hk _]. exact Hk.
Qed.

(** C1.  On a table made by [create_table] with at least one bucket (and, in
    the striped variant, at least one lock), every sequence of inserts with
    non-sentinel keys and values runs to completion, and a lookup of any key
    [k] afterwards returns the value of the most recent insert under [k],
    [INVALID_VALUE] if there was none.  Both variants. *)
Theorem lookup_after_inserts_latest (nb nl : Z) (g : Globals)
    (ops : list (Z * Z)) (k : Z) :
  1 <= nb -> 1 <= nl -> Forall valid_op ops ->
  (exists g' t',
      Locked.run_inserts g (Locked.create_table nb nl) ops = Ok (g', t')
      /\ Locked.lookup t' k = Ok (latest k ops INVALID_VALUE))
  /\ (exists g' t',
      LockFree.run_inserts g (LockFree.create_table nb nl) ops = Ok (g', t')
      /\ LockFree.lookup t' k = Ok (latest k ops INVALID_VALUE)).
Proof.
  intros Hnb Hnl Hops. split.
  - destruct (locked_run_inserts_find ops g (Locked.create_table nb nl)
                (locked_sized_create nb nl Hnb Hnl) Hops)
      as (g' & t' & Hrun & Hs & Hnb' & Hfind).
    exists g', t'. split; [exact Hrun|].
    rewrite locked_lookup_find by assumption.
    destruct (Z.eqb_spec k INVALID_KEY) as [->|Hk].
    + rewrite latest_sentinel by assumption. reflexivity.
    + rewrite Hnb', Hfind. simpl. rewrite find_in_calloc. reflexivity.
  - destruct (lockfree_run_inserts_find ops g (LockFree.create_table nb nl)
                (lockfree_sized_create nb nl Hnb) Hops)
      as (g' & t' & Hrun & Hs & Hnb' & Hfind).
    exists g', t'. split; [exact Hrun|].
    rewrite lockfree_lookup_find by assumption.
    destruct (Z.eqb_spec k INVALID_KEY) as [->|Hk].
    + rewrite latest_sentinel by assumption. reflexivity.
    + rewrite Hnb', Hfind. simpl. rewrite find_in_calloc. reflexivity.
Qed.

Lemma lookup_after_inserts_latest_witness :
  (exists g' t',
      Locked.run_inserts initial_globals (Locked.create_table 4 1) [(7, 1); (7, 2)]
      = Ok (g', t')
      /\ Locked.lookup t' 7 = Ok 2)
  /\ (exists g' t',
      LockFree.run_inserts initial_globals (LockFree.create_table 4 1) [(7, 1); (7, 2)]
      = Ok (g', t')
      /\ LockFree.lookup t' 7 = Ok 2).
Proof.
  apply (lookup_after_inserts_latest 4 1 initial_globals [(7, 1); (7, 2)] 7).
  - lia.
  - lia.
  - repeat constructor; simpl; unfold INVALID_KEY, INVALID_VALUE, UINT64_MAX; lia.
Defined.

(** ** Sentinel arguments *)

(** C3.  [insert] with key [INVALID_KEY], or with value [INVALID_VALUE],
    returns with the globals and the table exactly as they were, and [lookup]
    of [INVALID_KEY] returns [INVALID_VALUE]; this holds for every table,
    also one without buckets or locks, in which computing a bucket or lock
    index would fault: the sentinel paths return before any of it.  Both
    variants. *)
Theorem sentinel_arguments_rejected (g : Globals) (k v : Z)
    (t : Locked.ChainedHashTable) (u : LockFree.ChainedHashTable) :
  Locked.insert g t INVALID_KEY v = Ok (g, t)
  /\ Locked.insert g t k INVALID_VALUE = Ok (g, t)
  /\ Locked.lookup t INVALID_KEY = Ok INVALID_VALUE
  /\ LockFree.insert g u INVALID_KEY v = Ok (g, u)
  /\ LockFree.insert g u k INVALID_VALUE = Ok (g, u)
  /\ LockFree.lookup u INVALID_KEY = Ok INVALID_VALUE.
Proof.
  unfold Locked.insert, LockFree.insert, Locked.lookup, LockFree.lookup.
  rewrite !Z.eqb_refl.
  destruct (k =? INVALID_KEY); repeat split; reflexivity.
Qed.

Lemma locked_insert_sentinel g t k v :
  k = INVALID_KEY \/ v = INVALID_VALUE -> Locked.insert g t k v = Ok (g, t).
Proof.
  unfold Locked.insert. intros [-> | ->]; rewrite Z.eqb_refl;
    [reflexivity | destruct (k =? INVALID_KEY); reflexivity].
Qed.

Lemma lockfree_insert_sentinel g t k v :
  k = INVALID_KEY \/ v = INVALID_VALUE -> LockFree.insert g t k v = Ok (g, t).
Proof.
  unfold LockFree.insert. intros [-> | ->]; rewrite Z.eqb_refl;
    [reflexivity | destruct (k =? INVALID_KEY); reflexivity].
Qed.

(** ** Scan depth, resize trigger and item counter *)

Lemma insert_scan_succeeded k v c d :
  (insert_scan k v c d).1.1 = has_key k c.
Proof.
  revert d. induction c as [|it c IH]; intros d; simpl.
  - reflexivity.
  - destruct (Z.eqb_spec (key it) k) as [E|E]; simpl; [reflexivity|].
    specialize (IH (int_wrap (d + 1))).
    destruct (insert_scan k v c (int_wrap (d + 1))) as [[s d'] c']; simpl in *.
    exact IH.
Qed.

Lemma int_wrap_small z : INT_MIN <= z <= INT_MAX -> int_wrap z = z.
Proof.
  unfold int_wrap, INT_MIN, INT_MAX. intros H.
  rewrite Z.mod_small by lia. lia.
Qed.

(** Without a match the scan counts every node of the chain. *)
Lemma insert_scan_depth k v c d :
  0 <= d -> d + Z.of_nat (length c) <= INT_MAX ->
  has_key k c = false ->
  (insert_scan k v c d).1.2 = d + Z.of_nat (length c).
Proof.
  revert d. induction c as [|it c IH]; intros d Hd Hlen; simpl.
  - intros _. lia.
  - destruct (Z.eqb_spec (key it) k) as [E|E]; simpl; [discriminate|].
    intros Hno. simpl length in Hlen.
    assert (Hw : int_wrap (d + 1) = d + 1).
    { apply int_wrap_small. unfold INT_MIN, INT_MAX in *. lia. }
    specialize (IH (int_wrap (d + 1))). rewrite Hw in *.
    destruct (insert_scan k v c (d + 1)) as [[s d'] c']; simpl in *.
    rewrite IH by (assumption || lia). lia.
Qed.

Lemma has_key_insert_scan k v c d :
  has_key k (insert_scan k v c d).2 = has_key k c.
Proof.
  revert d. induction c as [|it c IH]; intros d; simpl.
  - reflexivity.
  - destruct (Z.eqb_spec (key it) k) as [E|E]; simpl.
    + rewrite E, Z.eqb_refl. reflexivity.
    + specialize (IH (int_wrap (d + 1))).
      destruct (insert_scan k v c (int_wrap (d + 1))) as [[s d'] c']; simpl in *.
      destruct (Z.eqb_spec (key it) k); [contradiction | exact IH].
Qed.

Lemma has_key_put bs nb k v :
  0 < nb -> Z.of_nat (length bs) = nb ->
  has_key k (chain_at (put bs nb k v) (slot nb k)) = true.
Proof.
  intros Hnb Hlen. unfold put.
  pose proof (slot_range nb k Hnb) as Hk.
  pose proof (has_key_insert_scan k v (chain_at bs (slot nb k)) 0) as Hh.
  pose proof (insert_scan_succeeded k v (chain_at bs (slot nb k)) 0) as Hs.
  destruct (insert_scan k v (chain_at bs (slot nb k)) 0) as [[s d] c']; simpl in *.
  rewrite chain_at_write_head_eq by lia.
  destruct s; [congruence | simpl; rewrite Z.eqb_refl; reflexivity].
Qed.

(** The globals after the final [if (added_node)] of [insert]. *)
Lemma epilogue_globals_cases g (a : bool) d g' :
  g' = (if a then
          if negb (resize_enabled g =? 0) && (MAX_CHAIN_SIZE <=? d)
          then if resize_needed g =? 0 then set_resize_needed g 1 else g
          else g
        else g) ->
  (resize_needed g = 0 ->
   (resize_needed g' = 1 <->
    a = true /\ resize_enabled g <> 0 /\ MAX_CHAIN_SIZE <= d))
  /\ (a = false -> g' = g)
  /\ (resize_needed g <> 0 -> g' = g).
Proof.
  intros ->. destruct a.
  - destruct (Z.eqb_spec (resize_enabled g) 0) as [E|E]; simpl.
    + repeat split; try tauto; try congruence; try lia.
    + destruct (Z.leb_spec MAX_CHAIN_SIZE d) as [L|L].
      * destruct (Z.eqb_spec (resize_needed g) 0) as [R|R]; simpl;
          repeat split; try tauto; try congruence; try lia.
      * repeat split; try tauto; try congruence; try lia.
  - repeat split; try tauto; try congruence; try lia.
Qed.

Lemma locked_epilogue_globals g t a d :
  (Locked.insert_epilogue g t a d).1 =
  (if a then
     if negb (resize_enabled g =? 0) && (MAX_CHAIN_SIZE <=? d)
     then if resize_needed g =? 0 then set_resize_needed g 1 else g
     else g
   else g).
Proof. unfold Locked.insert_epilogue. destruct a; reflexivity. Qed.

Lemma lockfree_epilogue_globals g t a d :
  (LockFree.insert_epilogue g t a d).1 =
  (if a then
     if negb (resize_enabled g =? 0) && (MAX_CHAIN_SIZE <=? d)
     then if resize_needed g =? 0 then set_resize_needed g 1 else g
     else g
   else g).
Proof. unfold LockFree.insert_epilogue. destruct a; reflexivity. Qed.

Lemma locked_epilogue_items g t a d :
  Locked.num_items (Locked.insert_epilogue g t a d).2 =
  (if a && (speed_test g =? 0) then int_wrap (Locked.num_items t + 1)
   else Locked.num_items t).
Proof.
  unfold Locked.insert_epilogue.
  destruct a; simpl; [|reflexivity]. destruct (speed_test g =? 0); reflexivity.
Qed.

Lemma lockfree_epilogue_items g t a d :
  LockFree.num_items (LockFree.insert_epilogue g t a d).2 =
  (if a && (speed_test g =? 0) then int_wrap (LockFree.num_items t + 1)
   else LockFree.num_items t).
Proof.
  unfold LockFree.insert_epilogue.
  destruct a; simpl; [|reflexivity]. destruct (speed_test g =? 0); reflexivity.
Qed.

(** What [insert] does to [num_items], on a sized table. *)
Lemma locked_insert_items g t k v :
  locked_sized t ->
  exists g' t',
    Locked.insert g t k v = Ok (g', t')
    /\ speed_test g' = speed_test g
    /\ Locked.num_items t' =
       (if (k =? INVALID_KEY) || (v =? INVALID_VALUE)
           || has_key k (chain_at (Locked.buckets t) (slot (Locked.num_buckets t) k))
           || negb (speed_test g =? 0)
        then Locked.num_items t
        else int_wrap (Locked.num_items t + 1)).
Proof.
  intros Ht.
  destruct (Z.eqb_spec k INVALID_KEY) as [Ek|Ek].
  { exists g, t. unfold Locked.insert. rewrite Ek, Z.eqb_refl. auto. }
  destruct (Z.eqb_spec v INVALID_VALUE) as [Ev|Ev].
  { exists g, t. unfold Locked.insert. rewrite Ev, Z.eqb_refl.
    destruct (k =? INVALID_KEY); auto. }
  eexists _, _.
  split; [rewrite locked_insert_put by assumption; f_equal; apply surjective_pairing|].
  split.
  { rewrite locked_epilogue_globals.
    repeat match goal with |- context [if ?b then _ else _] => destruct b end;
      reflexivity. }
  rewrite locked_epilogue_items, insert_scan_succeeded. simpl.
  destruct (has_key k _); simpl; [reflexivity|].
  destruct (speed_test g =? 0); reflexivity.
Qed.

Lemma lockfree_insert_items g t k v :
  lockfree_sized t ->
  exists g' t',
    LockFree.insert g t k v = Ok (g', t')
    /\ speed_test g' = speed_test g
    /\ LockFree.num_items t' =
       (if (k =? INVALID_KEY) || (v =? INVALID_VALUE)
           || has_key k (chain_at (LockFree.buckets t) (slot (LockFree.num_buckets t) k))
           || negb (speed_test g =? 0)
        then LockFree.num_items t
        else int_wrap (LockFree.num_items t + 1)).
Proof.
  intros Ht.
  destruct (Z.eqb_spec k INVALID_KEY) as [Ek|Ek].
  { exists g, t. unfold LockFree.insert. rewrite Ek, Z.eqb_refl. auto. }
  destruct (Z.eqb_spec v INVALID_VALUE) as [Ev|Ev].
  { exists g, t. unfold LockFree.insert. rewrite Ev, Z.eqb_refl.
    destruct (k =? INVALID_KEY); auto. }
  eexists _, _.
  split; [rewrite lockfree_insert_put by assumption; f_equal; apply surjective_pairing|].
  split.
  { rewrite lockfree_epilogue_globals.
    repeat match goal with |- context [if ?b then _ else _] => destruct b end;
      reflexivity. }
  rewrite lockfree_epilogue_items, insert_scan_succeeded. simpl.
  destruct (has_key k _); simpl; [reflexivity|].
  destruct (speed_test g =? 0); reflexivity.
Qed.

Lemma locked_insert_buckets g t k v g' t' :
  locked_sized t -> k <> INVALID_KEY -> v <> INVALID_VALUE ->
  Locked.insert g t k v = Ok (g', t') ->
  Locked.buckets t' = put (Locked.buckets t) (Locked.num_buckets t) k v
  /\ Locked.num_buckets t' = Locked.num_buckets t
  /\ Locked.num_locks t' = Locked.num_locks t.
Proof.
  intros Ht Hk Hv. rewrite locked_insert_put by assumption.
  intros [= H]. apply (f_equal snd) in H. simpl in H. rewrite <- H.
  match goal with
  | |- context [Locked.insert_epilogue ?g0 ?t0 ?a ?d] =>
      destruct (locked_epilogue_shape g0 t0 a d) as (A & B & C)
  end.
  rewrite A, B, C. simpl. auto.
Qed.

Lemma lockfree_insert_buckets g t k v g' t' :
  lockfree_sized t -> k <> INVALID_KEY -> v <> INVALID_VALUE ->
  LockFree.insert g t k v = Ok (g', t') ->
  LockFree.buckets t' = put (LockFree.buckets t) (LockFree.num_buckets t) k v
  /\ LockFree.num_buckets t' = LockFree.num_buckets t.
Proof.
  intros Ht Hk Hv. rewrite lockfree_insert_put by assumption.
  intros [= H]. apply (f_equal snd) in H. simpl in H. rewrite <- H.
  match goal with
  | |- context [LockFree.insert_epilogue ?g0 ?t0 ?a ?d] =>
      destruct (lockfree_epilogue_shape g0 t0 a d) as (A & B)
  end.
  rewrite A, B. simpl. auto.
Qed.

Lemma seven_valid : 7 <> INVALID_KEY /\ 1 <> INVALID_VALUE /\ 2 <> INVALID_VALUE.
Proof. unfold INVALID_KEY, INVALID_VALUE, UINT64_MAX. lia. Qed.

Lemma locked_overwrite_items g nb nl :
  speed_test g = 0 -> 1 <= nb -> 1 <= nl ->
  exists g' t',
    Locked.run_inserts g (Locked.create_table nb nl) [(7, 1); (7, 2)] = Ok (g', t')
    /\ Locked.num_items t' = 1.
Proof.
  intros Hsp Hnb Hnl. destruct seven_valid as (H7 & H1 & H2).
  pose proof (locked_sized_create nb nl Hnb Hnl) as Hs0.
  destruct (locked_insert_items g (Locked.create_table nb nl) 7 1 Hs0)
    as (g1 & t1 & Hi1 & Hsp1 & Hn1).
  destruct (locked_insert_buckets _ _ _ _ _ _ Hs0 H7 H1 Hi1) as (Hb1 & Hnb1 & Hnl1).
  assert (Hs1 : locked_sized t1).
  { unfold locked_sized. rewrite Hb1, Hnb1, Hnl1, length_put.
    simpl. rewrite length_calloc by lia. auto. }
  destruct (locked_insert_items g1 t1 7 2 Hs1) as (g2 & t2 & Hi2 & Hsp2 & Hn2).
  exists g2, t2. simpl. rewrite Hi1. simpl. rewrite Hi2. simpl.
  split; [reflexivity|].
  rewrite Hn2, Hb1, Hnb1. simpl Locked.num_buckets. simpl Locked.buckets.
  rewrite has_key_put by (try apply length_calloc; lia).
  rewrite orb_true_r. simpl.
  rewrite Hn1. simpl Locked.buckets. rewrite chain_at_calloc. rewrite Hsp.
  reflexivity.
Qed.

Lemma lockfree_overwrite_items g nb nl :
  speed_test g = 0 -> 1 <= nb ->
  exists g' t',
    LockFree.run_inserts g (LockFree.create_table nb nl) [(7, 1); (7, 2)] = Ok (g', t')
    /\ LockFree.num_items t' = 1.
Proof.
  intros Hsp Hnb. destruct seven_valid as (H7 & H1 & H2).
  pose proof (lockfree_sized_create nb nl Hnb) as Hs0.
  destruct (lockfree_insert_items g (LockFree.create_table nb nl) 7 1 Hs0)
    as (g1 & t1 & Hi1 & Hsp1 & Hn1).
  destruct (lockfree_insert_buckets _ _ _ _ _ _ Hs0 H7 H1 Hi1) as (Hb1 & Hnb1).
  assert (Hs1 : lockfree_sized t1).
  { unfold lockfree_sized. rewrite Hb1, Hnb1, length_put.
    simpl. rewrite length_calloc by lia. auto. }
  destruct (lockfree_insert_items g1 t1 7 2 Hs1) as (g2 & t2 & Hi2 & Hsp2 & Hn2).
  exists g2, t2. simpl. rewrite Hi1. simpl. rewrite Hi2. simpl.
  split; [reflexivity|].
  rewrite Hn2, Hb1, Hnb1. simpl LockFree.num_buckets. simpl LockFree.buckets.
  rewrite has_key_put by (try apply length_calloc; lia).
  rewrite orb_true_r. simpl.
  rewrite Hn1. simpl LockFree.buckets. rewrite chain_at_calloc. rewrite Hsp.
  reflexivity.
Qed.

(** C5.  With metric tracking enabled ([speed_test == 0]), on a sized table:
    an insert that adds a node leaves [num_items] incremented by one (the
    [int] increment; exactly [num_items + 1] when the counter is below
    [INT_MAX]); an insert that writes to an existing node and an insert
    rejected for a sentinel argument leave [num_items] as it was.  After
    [insert(7,1); insert(7,2)] on a fresh table, [num_items == 1].  Both
    variants. *)
Theorem num_items_counts_new_nodes (g : Globals) (k v nb nl : Z)
    (t : Locked.ChainedHashTable) (u : LockFree.ChainedHashTable) :
  speed_test g = 0 ->
  locked_sized t -> lockfree_sized u ->
  1 <= nb -> 1 <= nl ->
  (exists g' t',
      Locked.insert g t k v = Ok (g', t')
      /\ (k = INVALID_KEY \/ v = INVALID_VALUE ->
          Locked.num_items t' = Locked.num_items t)
      /\ (has_key k (chain_at (Locked.buckets t)
                              (slot (Locked.num_buckets t) k)) = true ->
          Locked.num_items t' = Locked.num_items t)
      /\ (k <> INVALID_KEY -> v <> INVALID_VALUE ->
          has_key k (chain_at (Locked.buckets t)
                              (slot (Locked.num_buckets t) k)) = false ->
          Locked.num_items t' = int_wrap (Locked.num_items t + 1)
          /\ (INT_MIN <= Locked.num_items t < INT_MAX ->
              Locked.num_items t' = Locked.num_items t + 1)))
  /\ (exists g' t',
      Locked.run_inserts g (Locked.create_table nb nl) [(7, 1); (7, 2)] = Ok (g', t')
      /\ Locked.num_items t' = 1)
  /\ (exists g' u',
      LockFree.insert g u k v = Ok (g', u')
      /\ (k = INVALID_KEY \/ v = INVALID_VALUE ->
          LockFree.num_items u' = LockFree.num_items u)
      /\ (has_key k (chain_at (LockFree.buckets u)
                              (slot (LockFree.num_buckets u) k)) = true ->
          LockFree.num_items u' = LockFree.num_items u)
      /\ (k <> INVALID_KEY -> v <> INVALID_VALUE ->
          has_key k (chain_at (LockFree.buckets u)
                              (slot (LockFree.num_buckets u) k)) = false ->
          LockFree.num_items u' = int_wrap (LockFree.num_items u + 1)
          /\ (INT_MIN <= LockFree.num_items u < INT_MAX ->
              LockFree.num_items u' = LockFree.num_items u + 1)))
  /\ (exists g' u',
      LockFree.run_inserts g (LockFree.create_table nb nl) [(7, 1); (7, 2)] = Ok (g', u')
      /\ LockFree.num_items u' = 1).
Proof.
  intros Hsp Ht Hu Hnb Hnl.
  split; [|split; [apply locked_overwrite_items; assumption|
           split; [|apply lockfree_overwrite_items; assumption]]].
  - destruct (locked_insert_items g t k v Ht) as (g' & t' & Hi & _ & Hn).
    exists g', t'. split; [exact Hi|]. rewrite Hn, Hsp. simpl.
    split; [|split].
    + intros [-> | ->]; rewrite Z.eqb_refl; [reflexivity|].
      rewrite orb_true_r. reflexivity.
    + intros ->. rewrite orb_true_r. reflexivity.
    + intros Hk Hv ->.
      destruct (Z.eqb_spec k INVALID_KEY); [contradiction|].
      destruct (Z.eqb_spec v INVALID_VALUE); [contradiction|]. simpl.
      split; [reflexivity|]. intros Hr. apply int_wrap_small.
      unfold INT_MIN, INT_MAX in *. lia.
  - destruct (lockfree_insert_items g u k v Hu) as (g' & u' & Hi & _ & Hn).
    exists g', u'. split; [exact Hi|]. rewrite Hn, Hsp. simpl.
    split; [|split].
    + intros [-> | ->]; rewrite Z.eqb_refl; [reflexivity|].
      rewrite orb_true_r. reflexivity.
    + intros ->. rewrite orb_true_r. reflexivity.
    + intros Hk Hv ->.
      destruct (Z.eqb_spec k INVALID_KEY); [contradiction|].
      destruct (Z.eqb_spec v INVALID_VALUE); [contradiction|]. simpl.
      split; [reflexivity|]. intros Hr. apply int_wrap_small.
      unfold INT_MIN, INT_MAX in *. lia.
Qed.

Lemma num_items_counts_new_nodes_witness :
  (exists g' t',
      Locked.insert initial_globals locked_example 18 9 = Ok (g', t')
      /\ Locked.num_items t' = 9)
  /\ (exists g' t',
      Locked.insert initial_globals locked_example 16 9 = Ok (g', t')
      /\ Locked.num_items t' = 8)
  /\ (exists g' t',
      Locked.run_inserts initial_globals (Locked.create_table 4 1) [(7, 1); (7, 2)]
      = Ok (g', t')
      /\ Locked.num_items t' = 1).
Proof.
  assert (Hk : 18 <> INVALID_KEY) by (unfold INVALID_KEY, UINT64_MAX; lia).
  assert (Hv : 9 <> INVALID_VALUE) by (unfold INVALID_VALUE, UINT64_MAX; lia).
  assert (Ht : locked_sized locked_example) by (repeat split; simpl; lia).
  assert (Hu : lockfree_sized lockfree_example) by (repeat split; simpl; lia).
  assert (H1 : 1 <= 4) by lia.
  assert (H2 : 1 <= 1) by lia.
  split; [|split].
  - destruct (num_items_counts_new_nodes initial_globals 18 9 4 1
                locked_example lockfree_example eq_refl Ht Hu H1 H2)
      as [(g' & t' & Hi & _ & _ & Hnew) _].
    exists g', t'. split; [exact Hi|].
    destruct (Hnew Hk Hv eq_refl) as [_ Hplus].
    rewrite Hplus; [reflexivity | unfold INT_MIN, INT_MAX; simpl; lia].
  - destruct (num_items_counts_new_nodes initial_globals 16 9 4 1
                locked_example lockfree_example eq_refl Ht Hu H1 H2)
      as [(g' & t' & Hi & _ & Hupd & _) _].
    exists g', t'. split; [exact Hi|]. rewrite Hupd; reflexivity.
  - destruct (num_items_counts_new_nodes initial_globals 18 9 4 1
                locked_example lockfree_example eq_refl Ht Hu H1 H2)
      as (_ & Hover & _).
    exact Hover.
Defined.

(** ** The hash function and the formula of the specification *)

(** C7, as stated, fails: for the key [2^59] and a table of 10 buckets
    [(k * 37) + 13] exceeds [2^64]; [hash1] reduces it modulo [2^64] first and
    returns 3, the formula over the integers gives 9. *)
Lemma hash1_differs_from_integer_formula :
  is_u64 (2 ^ 59) /\ 1 <= 10
  /\ hash1 (2 ^ 59) 10 = Ok 3
  /\ hash_formula (2 ^ 59) 10 = 9
  /\ hash1 (2 ^ 59) 10 <> Ok (hash_formula (2 ^ 59) 10).
Proof.
  split; [unfold is_u64, UINT64_MAX; lia|].
  split; [lia|].
  split; [reflexivity|]. split; [reflexivity|].
  vm_compute. discriminate.
Qed.

(** C7, amended.  For every 64-bit key [k] and every [B >= 1], [hash1]
    returns [((k * 37 + 13) mod 2^64) mod B].  This is the formula over the
    integers, [(k * 37 + 13) mod B], whenever [k * 37 + 13] does not exceed
    [UINT64_MAX], and for every key whenever [B] divides [2^64] (the default
    64 and every table size reached from it by doubling). *)
Theorem hash1_is_wrapping_formula (k B : Z) :
  is_u64 k -> 1 <= B ->
  hash1 k B = Ok (wrap64 (k * 37 + 13) mod B)
  /\ (k * 37 + 13 <= UINT64_MAX -> hash1 k B = Ok (hash_formula k B))
  /\ (2 ^ 64 mod B = 0 -> hash1 k B = Ok (hash_formula k B)).
Proof.
  intros [Hk0 Hk1] HB. rewrite hash1_ok by lia.
  split; [reflexivity|]. split.
  - intros Hsmall. rewrite wrap64_small by lia. reflexivity.
  - intros Hdiv. unfold hash_formula, wrap64. f_equal.
    apply Z.mod_mod_divide.
    apply Z.mod_divide; [lia | exact Hdiv].
Qed.

Lemma hash1_is_wrapping_formula_witness :
  hash1 1 4 = Ok (wrap64 (1 * 37 + 13) mod 4)
  /\ (1 * 37 + 13 <= UINT64_MAX -> hash1 1 4 = Ok (hash_formula 1 4))
  /\ (2 ^ 64 mod 4 = 0 -> hash1 1 4 = Ok (hash_formula 1 4)).
Proof.
  apply (hash1_is_wrapping_formula 1 4).
  - unfold is_u64, UINT64_MAX. lia.
  - lia.
Defined.

(** ** The driver's bucket count *)

(** C8 at a negative argument: [-b -5] leaves [initial_buckets] at -5, which
    [create_table] receives as [2^64 - 5] buckets and 0 locks; the same
    argument to [-t] is reset to the default. *)
Lemma opt_b_keeps_negative :
  Driver.opt_b (-5) = -5
  /\ Driver.opt_b 0 = Driver.INIT_NUM_BUCKETS
  /\ Driver.table_num_buckets (Driver.opt_b (-5)) = 2 ^ 64 - 5
  /\ Driver.table_num_locks (Driver.opt_b (-5)) = 0
  /\ Driver.opt_t (-5) = DEFAULT_NUM_THREADS.
Proof. repeat split; reflexivity. Qed.

(** [-b] resets to the default exactly at 0. *)
Lemma opt_b_cases n :
  Driver.opt_b n = (if n =? 0 then 64 else n).
Proof. reflexivity. Qed.

(** ** Lock striping with no locks *)




(** ** Rehashing a bucket array *)

Lemma length_prepend nb bs it : length (prepend nb bs it) = length bs.
Proof. apply length_write_head. Qed.

Lemma length_fold_prepend nb items : forall bs,
  length (fold_left (prepend nb) items bs) = length bs.
Proof.
  induction items as [|it items IH]; intros bs; simpl; [reflexivity|].
  rewrite IH. apply length_prepend.
Qed.

Lemma prepend_eta nb bs it : prepend nb bs (mkItem (key it) (value it)) = prepend nb bs it.
Proof. reflexivity. Qed.

(** After the rehash a chain holds, in reverse order of arrival, the nodes
    whose key hashes to its bucket. *)
Lemma chain_at_fold_prepend nb i items : forall bs,
  0 < nb -> Z.of_nat (length bs) = nb -> 0 <= i ->
  chain_at (fold_left (prepend nb) items bs) i =
  rev (List.filter (fun it => slot nb (key it) =? i) items) ++ chain_at bs i.
Proof.
  induction items as [|it items IH]; intros bs Hnb Hlen Hi; simpl.
  - reflexivity.
  - rewrite IH by (rewrite ?length_prepend; assumption).
    pose proof (slot_range nb (key it) Hnb) as Hs.
    unfold prepend. destruct (Z.eqb_spec (slot nb (key it)) i) as [E|E].
    + rewrite E. rewrite chain_at_write_head_eq by lia.
      simpl. rewrite <- app_assoc. simpl. destruct it; reflexivity.
    + rewrite chain_at_write_head_ne by lia. reflexivity.
Qed.

Lemma lookup_scan_app k c1 c2 d :
  lookup_scan k (c1 ++ c2) d = lookup_scan k c1 (lookup_scan k c2 d).
Proof.
  induction c1 as [|it c1 IH]; simpl; [reflexivity|].
  destruct (key it =? k); [reflexivity | exact IH].
Qed.

Lemma lookup_scan_absent k c d : has_key k c = false -> lookup_scan k c d = d.
Proof.
  induction c as [|it c IH]; simpl; [reflexivity|].
  destruct (key it =? k); simpl; [discriminate | exact IH].
Qed.

Lemma has_key_app k c1 c2 : has_key k (c1 ++ c2) = has_key k c1 || has_key k c2.
Proof. unfold has_key. apply existsb_app. Qed.

Lemma has_key_rev k c : has_key k (rev c) = has_key k c.
Proof.
  induction c as [|it c IH]; simpl; [reflexivity|].
  rewrite has_key_app, IH. simpl. rewrite orb_false_r. apply orb_comm.
Qed.

(** The nodes with key [k] pass every filter on the bucket of [k]. *)
Lemma lookup_scan_filter k (p : Item -> bool) c d :
  (forall it, key it = k -> p it = true) ->
  lookup_scan k (List.filter p c) d = lookup_scan k c d.
Proof.
  intros Hp. induction c as [|it c IH]; simpl; [reflexivity|].
  destruct (Z.eqb_spec (key it) k) as [E|E].
  - rewrite (Hp it E). simpl. rewrite E, Z.eqb_refl. reflexivity.
  - destruct (p it); simpl; [|exact IH].
    destruct (Z.eqb_spec (key it) k); [contradiction | exact IH].
Qed.

Lemma has_key_filter k (p : Item -> bool) c :
  (forall it, key it = k -> p it = true) ->
  has_key k (List.filter p c) = has_key k c.
Proof.
  intros Hp. induction c as [|it c IH]; simpl; [reflexivity|].
  destruct (Z.eqb_spec (key it) k) as [E|E].
  - rewrite (Hp it E). simpl. rewrite E, Z.eqb_refl. reflexivity.
  - destruct (p it); simpl; [|exact IH].
    destruct (Z.eqb_spec (key it) k); [contradiction | exact IH].
Qed.

Lemma once_filter k (p : Item -> bool) c :
  (forall it, key it = k -> p it = true) ->
  once k c = true -> once k (List.filter p c) = true.
Proof.
  intros Hp. induction c as [|it c IH]; simpl; [reflexivity|].
  destruct (Z.eqb_spec (key it) k) as [E|E].
  - rewrite (Hp it E). simpl. rewrite E, Z.eqb_refl.
    rewrite has_key_filter by assumption. auto.
  - destruct (p it); simpl; [|exact IH].
    destruct (Z.eqb_spec (key it) k); [contradiction | exact IH].
Qed.

(** Reversing a chain in which [k] occurs at most once does not change what
    a scan for [k] finds. *)
Lemma lookup_scan_rev k c d :
  once k c = true -> lookup_scan k (rev c) d = lookup_scan k c d.
Proof.
  induction c as [|it c IH]; simpl; [reflexivity|].
  rewrite lookup_scan_app. simpl.
  destruct (Z.eqb_spec (key it) k) as [E|E].
  - intros Hno. apply negb_true_iff in Hno.
    apply lookup_scan_absent. rewrite has_key_rev. exact Hno.
  - exact IH.
Qed.

Lemma absent_once k c : has_key k c = false -> once k c = true.
Proof.
  induction c as [|it c IH]; simpl; [reflexivity|].
  destruct (key it =? k); simpl; [discriminate | exact IH].
Qed.

Lemma once_app_l k c1 c2 :
  once k c1 = true -> has_key k c2 = false -> once k (c1 ++ c2) = true.
Proof.
  intros H1 H2. induction c1 as [|it c1 IH]; simpl in *.
  - apply absent_once. exact H2.
  - destruct (key it =? k); [|auto].
    rewrite has_key_app, H2, orb_false_r. exact H1.
Qed.

Lemma once_app_r k c1 c2 :
  has_key k c1 = false -> once k c2 = true -> once k (c1 ++ c2) = true.
Proof.
  intros H1 H2. induction c1 as [|it c1 IH]; simpl in *; [exact H2|].
  destruct (key it =? k); simpl in *; [discriminate | auto].
Qed.

Lemma distinct_keys_once k c : distinct_keys c = true -> once k c = true.
Proof.
  induction c as [|it c IH]; simpl; [reflexivity|].
  intros H. apply andb_true_iff in H as [Hit Hc].
  destruct (Z.eqb_spec (key it) k) as [E|E]; [|auto].
  rewrite <- E. exact Hit.
Qed.

(** A chain of bucket [i] holds no key of another bucket. *)
Lemma placed_chain_absent nb i k c :
  forallb (fun it => slot nb (key it) =? i) c = true ->
  slot nb k <> i -> has_key k c = false.
Proof.
  intros Hc Hne. induction c as [|it c IH]; simpl in *; [reflexivity|].
  apply andb_true_iff in Hc as [Hit Hc].
  destruct (Z.eqb_spec (key it) k) as [E|E]; simpl; [|auto].
  apply Z.eqb_eq in Hit. congruence.
Qed.

(** Under I1 and I2 a scan of all nodes of the array finds what the scan of
    the key's bucket finds, and meets the key at most once. *)
Lemma all_items_scan nb k d bs : forall i,
  0 <= i ->
  placed nb i bs = true ->
  forallb (fun b => distinct_keys (head b)) bs = true ->
  (slot nb k < i -> has_key k (all_items bs) = false)
  /\ (i <= slot nb k ->
      lookup_scan k (all_items bs) d = lookup_scan k (chain_at bs (slot nb k - i)) d
      /\ once k (all_items bs) = true).
Proof.
  induction bs as [|b bs IH]; intros i Hi Hpl Hd.
  - split; [reflexivity|]. intros _. unfold chain_at.
    rewrite lookup_nil. auto.
  - simpl in Hpl, Hd.
    apply andb_true_iff in Hpl as [Hb Hpl].
    apply andb_true_iff in Hd as [Hdb Hd].
    destruct (IH (i + 1) ltac:(lia) Hpl Hd) as [IHlt IHge].
    unfold all_items in *. simpl. split.
    + intros Hlt. rewrite has_key_app.
      rewrite (placed_chain_absent nb i k (head b)) by (assumption || lia).
      apply IHlt. lia.
    + intros Hge. destruct (Z.eq_dec (slot nb k) i) as [E|E].
      * assert (Hrest : has_key k (concat (map head bs)) = false)
          by (apply IHlt; lia).
        rewrite lookup_scan_app, (lookup_scan_absent k _ d Hrest).
        replace (slot nb k - i) with 0 by lia. split; [reflexivity|].
        apply once_app_l; [apply distinct_keys_once; exact Hdb | exact Hrest].
      * assert (Hhead : has_key k (head b) = false)
          by (apply (placed_chain_absent nb i); assumption).
        destruct (IHge ltac:(lia)) as [IHscan IHonce].
        rewrite lookup_scan_app, IHscan.
        rewrite (lookup_scan_absent k (head b)) by exact Hhead.
        split; [|apply once_app_r; assumption].
        unfold chain_at.
        replace (Z.to_nat (slot nb k - i)) with (S (Z.to_nat (slot nb k - (i + 1))))
          by lia.
        reflexivity.
Qed.

(** Rehashing an array that satisfies I1 and I2 into an empty array of [nb']
    buckets keeps what a scan for any key finds. *)
Lemma find_in_rehash nb nb' bs k :
  buckets_ok nb bs = true -> 0 < nb' ->
  find_in (fold_left (prepend nb') (all_items bs) (calloc_buckets nb')) nb' k
  = find_in bs nb k.
Proof.
  intros Hok Hnb'. unfold buckets_ok in Hok.
  apply andb_true_iff in Hok as [Hok Hpl].
  apply andb_true_iff in Hok as [Hok Hd].
  apply andb_true_iff in Hok as [Hnb Hlen].
  apply Z.leb_le in Hnb. apply Z.eqb_eq in Hlen.
  pose proof (slot_range nb k ltac:(lia)) as Hs.
  pose proof (slot_range nb' k Hnb') as Hs'.
  destruct (all_items_scan nb k INVALID_VALUE bs 0 ltac:(lia) Hpl Hd) as [_ Hall].
  destruct (Hall ltac:(lia)) as [Hscan Honce].
  unfold find_in.
  rewrite chain_at_fold_prepend by (try apply length_calloc; lia).
  rewrite chain_at_calloc, app_nil_r.
  assert (Hp : forall it, key it = k ->
                 (slot nb' (key it) =? slot nb' k) = true).
  { intros it ->. apply Z.eqb_refl. }
  rewrite lookup_scan_rev by (apply once_filter; assumption).
  rewrite lookup_scan_filter by assumption.
  rewrite Hscan. replace (slot nb k - 0) with (slot nb k) by lia. reflexivity.
Qed.

(** ** Striped-lock variant: resize *)

Lemma locked_resize_insert_prepend t k v :
  locked_sized t ->
  Locked.resize_insert t k v =
  Ok (Locked.set_buckets t
        (prepend (Locked.num_buckets t) (Locked.buckets t) (mkItem k v))).
Proof.
  intros (Hnb & Hlen & Hnl). unfold Locked.resize_insert, prepend.
  rewrite hash1_slot by lia. simpl.
  rewrite locked_get_lock_idx_ok by assumption. simpl.
  pose proof (slot_range (Locked.num_buckets t) k ltac:(lia)).
  rewrite read_bucket_in_range by lia. reflexivity.
Qed.

Lemma locked_sized_set_buckets t bs :
  locked_sized t -> length bs = length (Locked.buckets t) ->
  locked_sized (Locked.set_buckets t bs).
Proof.
  intros (Hnb & Hlen & Hnl) Hbs. unfold locked_sized. simpl.
  rewrite Hbs. auto.
Qed.

Lemma locked_rehash_chain c : forall t,
  locked_sized t ->
  Locked.rehash_chain t c =
  Ok (Locked.set_buckets t
        (fold_left (prepend (Locked.num_buckets t)) c (Locked.buckets t))).
Proof.
  induction c as [|it c IH]; intros t Ht; simpl.
  - destruct t; reflexivity.
  - rewrite locked_resize_insert_prepend by assumption. simpl.
    rewrite IH by (apply locked_sized_set_buckets;
                   [assumption | apply length_prepend]).
    reflexivity.
Qed.

Lemma locked_rehash_buckets cur n : forall i next,
  locked_sized next -> 0 <= i ->
  (Z.to_nat i + n <= length (Locked.buckets cur))%nat ->
  Locked.rehash_buckets cur next i n =
  Ok (Locked.set_buckets next
        (fold_left (prepend (Locked.num_buckets next))
           (all_items (take n (drop (Z.to_nat i) (Locked.buckets cur))))
           (Locked.buckets next))).
Proof.
  induction n as [|n IH]; intros i next Hs Hi Hlen; simpl.
  - destruct next; reflexivity.
  - destruct (Locked.buckets cur !! Z.to_nat i) as [b|] eqn:Eb;
      [|apply lookup_ge_None in Eb; lia].
    unfold read_bucket. rewrite Eb. simpl.
    rewrite locked_rehash_chain by assumption. simpl.
    rewrite IH; [| apply locked_sized_set_buckets;
                     [assumption | apply length_fold_prepend] | lia | lia].
    simpl. rewrite (drop_S _ _ _ Eb). simpl.
    unfold all_items. simpl. rewrite fold_left_app.
    replace (Z.to_nat (i + 1)) with (S (Z.to_nat i)) by lia. reflexivity.
Qed.

Lemma locked_resize_result g t :
  locked_sized t ->
  2 * Locked.num_buckets t <= SIZE_MAX -> 2 * Locked.num_locks t <= SIZE_MAX ->
  Locked.resize g t =
  Ok (set_resize_needed g 0,
      Locked.mkTable
        (fold_left (prepend (2 * Locked.num_buckets t))
           (all_items (Locked.buckets t))
           (calloc_buckets (2 * Locked.num_buckets t)))
        (2 * Locked.num_buckets t) (2 * Locked.num_locks t) (Locked.num_items t)).
Proof.
  intros (Hnb & Hlen & Hnl) Hfit Hfitl. unfold Locked.resize.
  replace (Locked.num_buckets t * 2) with (2 * Locked.num_buckets t) by lia.
  replace (Locked.num_locks t * 2) with (2 * Locked.num_locks t) by lia.
  rewrite !wrap64_small by (unfold SIZE_MAX, UINT64_MAX in *; lia).
  rewrite locked_rehash_buckets.
  - simpl. rewrite drop_0, take_ge by lia. reflexivity.
  - unfold locked_sized. simpl. rewrite length_calloc by lia. lia.
  - lia.
  - lia.
Qed.

(** ** Lock-free variant: resize *)

Lemma lockfree_resize_insert_prepend t k v :
  lockfree_sized t ->
  LockFree.resize_insert t k v =
  Ok (LockFree.set_buckets t
        (prepend (LockFree.num_buckets t) (LockFree.buckets t) (mkItem k v))).
Proof.
  intros (Hnb & Hlen). unfold LockFree.resize_insert, prepend.
  rewrite hash1_slot by lia. simpl.
  pose proof (slot_range (LockFree.num_buckets t) k ltac:(lia)).
  rewrite read_bucket_in_range by lia. simpl.
  rewrite compare_capture_snapshot by lia. simpl.
  destruct (decide (_ = _)); [reflexivity | contradiction].
Qed.

Lemma lockfree_sized_set_buckets t bs :
  lockfree_sized t -> length bs = length (LockFree.buckets t) ->
  lockfree_sized (LockFree.set_buckets t bs).
Proof.
  intros (Hnb & Hlen) Hbs. unfold lockfree_sized. simpl.
  rewrite Hbs. auto.
Qed.

Lemma lockfree_rehash_chain c : forall t,
  lockfree_sized t ->
  LockFree.rehash_chain t c =
  Ok (LockFree.set_buckets t
        (fold_left (prepend (LockFree.num_buckets t)) c (LockFree.buckets t))).
Proof.
  induction c as [|it c IH]; intros t Ht; simpl.
  - destruct t; reflexivity.
  - rewrite lockfree_resize_insert_prepend by assumption. simpl.
    rewrite IH by (apply lockfree_sized_set_buckets;
                   [assumption | apply length_prepend]).
    reflexivity.
Qed.

Lemma lockfree_rehash_buckets cur n : forall i next,
  lockfree_sized next -> 0 <= i ->
  (Z.to_nat i + n <= length (LockFree.buckets cur))%nat ->
  LockFree.rehash_buckets cur next i n =
  Ok (LockFree.set_buckets next
        (fold_left (prepend (LockFree.num_buckets next))
           (all_items (take n (drop (Z.to_nat i) (LockFree.buckets cur))))
           (LockFree.buckets next))).
Proof.
  induction n as [|n IH]; intros i next Hs Hi Hlen; simpl.
  - destruct next; reflexivity.
  - destruct (LockFree.buckets cur !! Z.to_nat i) as [b|] eqn:Eb;
      [|apply lookup_ge_None in Eb; lia].
    unfold read_bucket. rewrite Eb. simpl.
    rewrite lockfree_rehash_chain by assumption. simpl.
    rewrite IH; [| apply lockfree_sized_set_buckets;
                     [assumption | apply length_fold_prepend] | lia | lia].
    simpl. rewrite (drop_S _ _ _ Eb). simpl.
    unfold all_items. simpl. rewrite fold_left_app.
    replace (Z.to_nat (i + 1)) with (S (Z.to_nat i)) by lia. reflexivity.
Qed.

Lemma lockfree_resize_result g t :
  lockfree_sized t ->
  2 * LockFree.num_buckets t <= SIZE_MAX ->
  LockFree.resize g t =
  Ok (set_resize_needed g 0,
      LockFree.mkTable
        (fold_left (prepend (2 * LockFree.num_buckets t))
           (all_items (LockFree.buckets t))
           (calloc_buckets (2 * LockFree.num_buckets t)))
        (2 * LockFree.num_buckets t) (LockFree.num_items t)).
Proof.
  intros (Hnb & Hlen) Hfit. unfold LockFree.resize.
  replace (LockFree.num_buckets t * 2) with (2 * LockFree.num_buckets t) by lia.
  rewrite !wrap64_small by (unfold SIZE_MAX, UINT64_MAX in *; lia).
  rewrite lockfree_rehash_buckets.
  - simpl. rewrite drop_0, take_ge by lia. reflexivity.
  - unfold lockfree_sized. simpl. rewrite length_calloc by lia. lia.
  - lia.
  - lia.
Qed.

Lemma buckets_ok_sized nb bs :
  buckets_ok nb bs = true -> 1 <= nb /\ Z.of_nat (length bs) = nb.
Proof.
  unfold buckets_ok. intros H.
  apply andb_true_iff in H as [H _]. apply andb_true_iff in H as [H _].
  apply andb_true_iff in H as [H1 H2].
  apply Z.leb_le in H1. apply Z.eqb_eq in H2. auto.
Qed.

(** C6.  On a sized table whose sizes can be doubled within [size_t],
    [resize] returns a table with [2 * num_buckets] buckets (a bucket array
    of that many cells, at least one), in the striped variant with
    [2 * num_locks] locks, and with the [num_items] of the old table; it
    clears [resize_needed].  Both variants. *)
Theorem resize_doubles_and_copies_counter (g : Globals)
    (t : Locked.ChainedHashTable) (u : LockFree.ChainedHashTable) :
  locked_sized t -> lockfree_sized u ->
  2 * Locked.num_buckets t <= SIZE_MAX ->
  2 * Locked.num_locks t <= SIZE_MAX ->
  2 * LockFree.num_buckets u <= SIZE_MAX ->
  (exists g' t',
      Locked.resize g t = Ok (g', t')
      /\ Locked.num_buckets t' = 2 * Locked.num_buckets t
      /\ Z.of_nat (length (Locked.buckets t')) = 2 * Locked.num_buckets t
      /\ 1 <= Locked.num_buckets t'
      /\ Locked.num_locks t' = 2 * Locked.num_locks t
      /\ Locked.num_items t' = Locked.num_items t
      /\ resize_needed g' = 0)
  /\ (exists g' u',
      LockFree.resize g u = Ok (g', u')
      /\ LockFree.num_buckets u' = 2 * LockFree.num_buckets u
      /\ Z.of_nat (length (LockFree.buckets u')) = 2 * LockFree.num_buckets u
      /\ 1 <= LockFree.num_buckets u'
      /\ LockFree.num_items u' = LockFree.num_items u
      /\ resize_needed g' = 0).
Proof.
  intros Ht Hu Hfb Hfl Hfu. split.
  - eexists _, _. split; [apply locked_resize_result; assumption|]. simpl.
    destruct Ht as (Hnb & _ & _).
    rewrite length_fold_prepend, length_calloc by lia.
    repeat split; lia.
  - eexists _, _. split; [apply lockfree_resize_result; assumption|]. simpl.
    destruct Hu as (Hnb & _).
    rewrite length_fold_prepend, length_calloc by lia.
    repeat split; lia.
Qed.

Lemma resize_doubles_and_copies_counter_witness :
  (exists g' t',
      Locked.resize initial_globals locked_example = Ok (g', t')
      /\ Locked.num_buckets t' = 4
      /\ Locked.num_locks t' = 2
      /\ Locked.num_items t' = 8)
  /\ (exists g' u',
      LockFree.resize initial_globals lockfree_example = Ok (g', u')
      /\ LockFree.num_buckets u' = 4
      /\ LockFree.num_items u' = 8).
Proof.
  assert (Ht : locked_sized locked_example) by (repeat split; simpl; lia).
  assert (Hu : lockfree_sized lockfree_example) by (repeat split; simpl; lia).
  assert (H1 : 2 * Locked.num_buckets locked_example <= SIZE_MAX)
    by (unfold SIZE_MAX; simpl; lia).
  assert (H2 : 2 * Locked.num_locks locked_example <= SIZE_MAX)
    by (unfold SIZE_MAX; simpl; lia).
  assert (H3 : 2 * LockFree.num_buckets lockfree_example <= SIZE_MAX)
    by (unfold SIZE_MAX; simpl; lia).
  destruct (resize_doubles_and_copies_counter initial_globals
              locked_example lockfree_example Ht Hu H1 H2 H3)
    as [(g' & t' & Hr & Hb & _ & _ & Hl & Hi & _)
        (g2 & u' & Hr2 & Hb2 & _ & _ & Hi2 & _)].
  split.
  - exists g', t'. auto.
  - exists g2, u'. auto.
Defined.

(** ** Resize keeps the contents *)

(** C2.  For a table that satisfies I1 (no key twice in a chain) and the
    other invariants of the data model (I2: every node in the bucket of its
    key; I5: a bucket array of [num_buckets >= 1] cells; at least one lock in
    the striped variant), whose sizes can be doubled within [size_t]:
    [resize] returns a table, and for every key [k] the lookup of [k] on it
    returns the value that the lookup of [k] returned before.  Both
    variants. *)
Theorem resize_preserves_lookup (g : Globals) (k : Z)
    (t : Locked.ChainedHashTable) (u : LockFree.ChainedHashTable) :
  buckets_ok (Locked.num_buckets t) (Locked.buckets t) = true ->
  1 <= Locked.num_locks t ->
  2 * Locked.num_buckets t <= SIZE_MAX ->
  2 * Locked.num_locks t <= SIZE_MAX ->
  buckets_ok (LockFree.num_buckets u) (LockFree.buckets u) = true ->
  2 * LockFree.num_buckets u <= SIZE_MAX ->
  (exists g' t' v,
      Locked.resize g t = Ok (g', t')
      /\ Locked.lookup t k = Ok v
      /\ Locked.lookup t' k = Ok v)
  /\ (exists g' u' v,
      LockFree.resize g u = Ok (g', u')
      /\ LockFree.lookup u k = Ok v
      /\ LockFree.lookup u' k = Ok v).
Proof.
  intros Hok Hnl Hfb Hfl Hoku Hfu.
  destruct (buckets_ok_sized _ _ Hok) as [Hnb Hlen].
  destruct (buckets_ok_sized _ _ Hoku) as [Hnbu Hlenu].
  split.
  - assert (Ht : locked_sized t) by (unfold locked_sized; auto).
    eexists _, _, _. split; [apply locked_resize_result; assumption|].
    split; [apply locked_lookup_find; assumption|].
    rewrite locked_lookup_find.
    + simpl. destruct (k =? INVALID_KEY); [reflexivity|].
      f_equal. apply find_in_rehash; [assumption | lia].
    + unfold locked_sized. simpl.
      rewrite length_fold_prepend, length_calloc by lia. lia.
  - assert (Hu : lockfree_sized u) by (unfold lockfree_sized; auto).
    eexists _, _, _. split; [apply lockfree_resize_result; assumption|].
    split; [apply lockfree_lookup_find; assumption|].
    rewrite lockfree_lookup_find.
    + simpl. destruct (k =? INVALID_KEY); [reflexivity|].
      f_equal. apply find_in_rehash; [assumption | lia].
    + unfold lockfree_sized. simpl.
      rewrite length_fold_prepend, length_calloc by lia. lia.
Qed.

Lemma resize_preserves_lookup_witness :
  (exists g' t',
      Locked.resize initial_globals locked_example = Ok (g', t')
      /\ Locked.lookup locked_example 6 = Ok 3
      /\ Locked.lookup t' 6 = Ok 3)
  /\ (exists g' u',
      LockFree.resize initial_globals lockfree_example = Ok (g', u')
      /\ LockFree.lookup lockfree_example 6 = Ok 3
      /\ LockFree.lookup u' 6 = Ok 3).
Proof.
  assert (H1 : 2 * Locked.num_buckets locked_example <= SIZE_MAX)
    by (unfold SIZE_MAX; simpl; lia).
  assert (H2 : 2 * Locked.num_locks locked_example <= SIZE_MAX)
    by (unfold SIZE_MAX; simpl; lia).
  assert (H3 : 2 * LockFree.num_buckets lockfree_example <= SIZE_MAX)
    by (unfold SIZE_MAX; simpl; lia).
  assert (H4 : 1 <= Locked.num_locks locked_example) by (simpl; lia).
  destruct (resize_preserves_lookup initial_globals 6
              locked_example lockfree_example eq_refl H4 H1 H2 eq_refl H3)
    as [(g' & t' & v & Hr & Hl & Hl') (g2 & u' & v2 & Hr2 & Hl2 & Hl2')].
  assert (Hv : v = 3).
  { assert (E : Locked.lookup locked_example 6 = Ok 3) by reflexivity.
    rewrite E in Hl. injection Hl as <-. reflexivity. }
  assert (Hv2 : v2 = 3).
  { assert (E : LockFree.lookup lockfree_example 6 = Ok 3) by reflexivity.
    rewrite E in Hl2. injection Hl2 as <-. reflexivity. }
  subst v v2. split.
  - exists g', t'. auto.
  - exists g2, u'. auto.
Defined.

(** ** The dispatch phase of the driver *)

Lemma dispatch_loop_exits flag fuel : forall st,
  dispatching st ->
  (forall r, Driver.dispatch_loop flag fuel st = Some r ->
             left_at_empty_read r \/ left_at_full_pool r \/ left_at_resize r)
  /\ (Driver.MAX_TASK_POOL - 1 - Driver.count st <= Z.of_nat fuel ->
      exists r, Driver.dispatch_loop flag fuel st = Some r).
Proof.
  induction fuel as [|fuel IH]; intros st (He & Ht & Hc & Hl & Hr).
  - split; [discriminate|]. simpl. lia.
  - unfold Driver.MAX_TASK_POOL in *.
    assert (Hw : int_wrap (Driver.count st + 1) = Driver.count st + 1).
    { apply int_wrap_small. unfold INT_MIN, INT_MAX. lia. }
    simpl Driver.dispatch_loop. unfold Driver.MAX_TASK_POOL.
    rewrite He, Hw. simpl negb.
    set (bytes := Z.min Driver.FILE_CHUNK_SIZE
                    (Z.max 0 (Driver.size (Driver.file st) - Driver.pos (Driver.file st)))).
    destruct (Z.eqb_spec bytes 0) as [Eb|Eb].
    { split; [|eauto]. intros r [= <-]. left.
      unfold left_at_empty_read, Driver.MAX_TASK_POOL; simpl. rewrite Eb.
      repeat split; auto; lia. }
    destruct (if bytes =? Driver.FILE_CHUNK_SIZE then _ else _) as [bytes1 f2].
    destruct (Z.leb_spec (256 - 1) (Driver.count st + 1)) as [Ec|Ec].
    { split; [|eauto]. intros r [= <-]. right; left.
      unfold left_at_full_pool, Driver.MAX_TASK_POOL; simpl.
      repeat split; auto; try lia. intros [E|E]; [lia | auto]. }
    destruct (Z.eqb_spec (flag (Driver.count st + 1)) 0) as [Ef|Ef]; simpl.
    + match goal with
      | |- context [Driver.dispatch_loop flag fuel ?s] =>
          destruct (IH s) as [IH1 IH2]
      end.
      { unfold dispatching, Driver.MAX_TASK_POOL; simpl.
        repeat split; auto; try lia. intros [E|E]; [lia | auto]. }
      split; [exact IH1|]. intros Hf. apply IH2. simpl. lia.
    + split; [|eauto]. intros r [= <-]. right; right.
      unfold left_at_resize, Driver.MAX_TASK_POOL; simpl.
      repeat split; auto; try lia. intros [E|E]; [lia | auto].
Qed.

Lemma dispatching_initial f :
  dispatching (Driver.mkDispatch f 0 0 0 [] []).
Proof.
  unfold dispatching, Driver.MAX_TASK_POOL; simpl.
  repeat split; auto; lia.
Qed.

(** What the [single] region leaves behind, whatever the input and the
    resize requests: [end_of_file] is 1 after an empty read and 0 otherwise,
    and a phase that spawned [MAX_TASK_POOL - 1] tasks had no empty read. *)
Lemma dispatch_phase_outcome flag fuel f st :
  Driver.dispatch_phase flag fuel f 0 = Some st ->
  (Driver.end_of_file st = 1 /\ In 0 (Driver.reads st)
   /\ Z.of_nat (length (Driver.tasks st)) < Driver.MAX_TASK_POOL - 1)
  \/ (Driver.end_of_file st = 0 /\ ~ In 0 (Driver.reads st)).
Proof.
  unfold Driver.dispatch_phase.
  destruct (Driver.dispatch_loop flag fuel _) as [r|] eqn:El; [|discriminate].
  intros [= <-].
  destruct (dispatch_loop_exits flag fuel _ (dispatching_initial f)) as [Hpost _].
  unfold Driver.after_loop.
  destruct (Hpost r El) as [(He & Ht & Hc & Hl & Hr)
                           |[(He & Ht & Hc & Hl & Hr)|(He & Ht & Hc & Hl & Hr)]].
  - left. destruct (_ && _); simpl; repeat split; auto; lia.
  - right. rewrite Hc, Z.eqb_refl. simpl. auto.
  - right. destruct (Z.eqb_spec (Driver.temp_resize_needed r) 0); [contradiction|].
    rewrite andb_false_r. auto.
Qed.

Lemma dispatch_phase_terminates flag f :
  exists st,
    Driver.dispatch_phase flag (Z.to_nat (Driver.MAX_TASK_POOL - 1)) f 0 = Some st.
Proof.
  destruct (dispatch_loop_exits flag (Z.to_nat (Driver.MAX_TASK_POOL - 1)) _
              (dispatching_initial f)) as [_ Hex].
  destruct Hex as [r Hr]; [simpl; unfold Driver.MAX_TASK_POOL; lia|].
  exists (Driver.after_loop r). unfold Driver.dispatch_phase. rewrite Hr.
  reflexivity.
Qed.

(** C9, as stated, fails: no input stream and no timing of the resize
    requests makes a dispatch phase spawn [MAX_TASK_POOL - 1] tasks without
    an empty read and leave [end_of_file] at 1. *)
Lemma no_premature_end_of_file :
  ~ exists (flag : Z -> Z) (f : Driver.FILE) (fuel : nat) (st : Driver.Dispatch),
      Driver.dispatch_phase flag fuel f 0 = Some st
      /\ Z.of_nat (length (Driver.tasks st)) = Driver.MAX_TASK_POOL - 1
      /\ ~ In 0 (Driver.reads st)
      /\ Driver.end_of_file st = 1.
Proof.
  intros (flag & f & fuel & st & Hrun & Hlen & Hreads & Heof).
  destruct (dispatch_phase_outcome flag fuel f st Hrun)
    as [(_ & Hin & _) | (He & _)].
  - contradiction.
  - congruence.
Qed.

(** C9, amended.  For every input stream and every timing of the resize
    requests, the dispatch phase entered with [end_of_file == 0] ends (within
    [MAX_TASK_POOL - 1] iterations), and it leaves [end_of_file] at 1 if and
    only if one of its reads returned zero bytes; a phase that spawned
    exactly [MAX_TASK_POOL - 1] tasks had no such read and leaves
    [end_of_file] at 0, so the driver loop goes on. *)
Theorem end_of_file_only_after_empty_read (flag : Z -> Z) (f : Driver.FILE) :
  exists st,
    Driver.dispatch_phase flag (Z.to_nat (Driver.MAX_TASK_POOL - 1)) f 0 = Some st
    /\ (Driver.end_of_file st = 1 <-> In 0 (Driver.reads st))
    /\ (Z.of_nat (length (Driver.tasks st)) = Driver.MAX_TASK_POOL - 1 ->
        Driver.end_of_file st = 0 /\ ~ In 0 (Driver.reads st)).
Proof.
  destruct (dispatch_phase_terminates flag f) as [st Hrun].
  exists st. split; [exact Hrun|].
  destruct (dispatch_phase_outcome flag _ f st Hrun)
    as [(He & Hin & Hlen) | (He & Hin)].
  - split; [tauto|]. intros E. lia.
  - split; [|auto]. split; [congruence | contradiction].
Qed.

Lemma end_of_file_only_after_empty_read_witness :
  exists st,
    Driver.dispatch_phase (fun _ => 0) 255 newlines_file 0 = Some st
    /\ Z.of_nat (length (Driver.tasks st)) = Driver.MAX_TASK_POOL - 1
    /\ Driver.end_of_file st = 0
    /\ ~ In 0 (Driver.reads st).
Proof.
  destruct (end_of_file_only_after_empty_read (fun _ => 0) newlines_file)
    as (st & Hrun & _ & Hfull).
  exists st. split; [exact Hrun|].
  assert (Hlen : Z.of_nat (length (Driver.tasks st)) = Driver.MAX_TASK_POOL - 1).
  { assert (E : option_map (fun s => Z.of_nat (length (Driver.tasks s)))
                  (Driver.dispatch_phase (fun _ => 0) 255 newlines_file 0)
                = Some 255) by (vm_compute; reflexivity).
    change (Z.to_nat (Driver.MAX_TASK_POOL - 1)) with 255%nat in Hrun.
    rewrite Hrun in E. simpl in E. injection E as E. exact E. }
  split; [exact Hlen|]. apply Hfull. exact Hlen.
Defined.

(** A phase that fills the task pool: 255 tasks, no empty read, input left
    over, [end_of_file] still 0. *)
Example dispatch_full_pool :
  option_map
    (fun st => (Driver.end_of_file st, Driver.count st,
                length (Driver.tasks st), Driver.pos (Driver.file st),
                existsb (Z.eqb 0) (Driver.reads st)))
    (Driver.dispatch_phase (fun _ => 0) 255 newlines_file 0)
  = Some (0, 255, 255%nat, 255 * Driver.FILE_CHUNK_SIZE, false).
Proof. vm_compute. reflexivity. Qed.

(** A phase that reaches the end of a short input. *)
Example dispatch_short_input :
  option_map
    (fun st => (Driver.end_of_file st, Driver.count st,
                Driver.tasks st, Driver.reads st))
    (Driver.dispatch_phase (fun _ => 0) 255 one_line_file 0)
  = Some (1, 1, [Driver.mkTask 0 7], [0; 7]).
Proof. vm_compute. reflexivity. Qed.

(** A phase left at a resize request after its first task. *)
Example dispatch_resize_request :
  option_map
    (fun st => (Driver.end_of_file st, Driver.count st,
                Driver.temp_resize_needed st, Driver.reads st))
    (Driver.dispatch_phase (fun _ => 1) 255 one_line_file 0)
  = Some (0, 1, 1, [7]).
Proof. vm_compute. reflexivity. Qed.

(** ** The invariants I1, I2 and I5 hold in every table the code builds *)

Lemma once_distinct c : (forall k, once k c = true) -> distinct_keys c = true.
Proof.
  induction c as [|it c IH]; intros H; simpl; [reflexivity|].
  apply andb_true_iff. split.
  - specialize (H (key it)). simpl in H. rewrite Z.eqb_refl in H. exact H.
  - apply IH. intros k. specialize (H k). simpl in H.
    destruct (key it =? k); [|exact H].
    apply absent_once. apply negb_true_iff. exact H.
Qed.

Lemma once_rev k c : once k c = true -> once k (rev c) = true.
Proof.
  induction c as [|it c IH]; simpl; [reflexivity|].
  destruct (Z.eqb_spec (key it) k) as [E|E]; intros H.
  - apply once_app_r.
    + rewrite has_key_rev. apply negb_true_iff. exact H.
    + simpl. rewrite E, Z.eqb_refl. reflexivity.
  - apply once_app_l; [auto|]. simpl.
    destruct (Z.eqb_spec (key it) k); [contradiction | reflexivity].
Qed.

Lemma has_key_keys k c c' : map key c = map key c' -> has_key k c = has_key k c'.
Proof.
  revert c'. induction c as [|it c IH]; intros [|it' c'] H; simpl in *;
    try discriminate; [reflexivity|].
  injection H as -> H. rewrite (IH c' H). reflexivity.
Qed.

Lemma distinct_keys_keys c c' :
  map key c = map key c' -> distinct_keys c = distinct_keys c'.
Proof.
  revert c'. induction c as [|it c IH]; intros [|it' c'] H; simpl in *;
    try discriminate; [reflexivity|].
  injection H as Hk H. rewrite (IH c' H). f_equal. f_equal.
  rewrite <- Hk. apply (has_key_keys (key it) c c' H).
Qed.

Lemma placed_keys nb i c c' :
  map key c = map key c' ->
  forallb (fun it => slot nb (key it) =? i) c
  = forallb (fun it => slot nb (key it) =? i) c'.
Proof.
  revert c'. induction c as [|it c IH]; intros [|it' c'] H; simpl in *;
    try discriminate; [reflexivity|].
  injection H as -> H. rewrite (IH c' H). reflexivity.
Qed.

Lemma placed_lookup nb bs : forall i n b,
  placed nb i bs = true -> bs !! n = Some b ->
  forallb (fun it => slot nb (key it) =? i + Z.of_nat n) (head b) = true.
Proof.
  induction bs as [|b0 bs IH]; intros i n b Hpl Hb; [discriminate|].
  simpl in Hpl. apply andb_true_iff in Hpl as [H0 Hpl].
  destruct n as [|n]; simpl in Hb.
  - injection Hb as <-. replace (i + Z.of_nat 0) with i by lia. exact H0.
  - replace (i + Z.of_nat (S n)) with (i + 1 + Z.of_nat n) by lia. eauto.
Qed.

Lemma placed_insert nb bs : forall i n b,
  placed nb i bs = true ->
  forallb (fun it => slot nb (key it) =? i + Z.of_nat n) (head b) = true ->
  placed nb i (<[n := b]> bs) = true.
Proof.
  induction bs as [|b0 bs IH]; intros i n b Hpl Hb; [reflexivity|].
  simpl in Hpl. apply andb_true_iff in Hpl as [H0 Hpl].
  destruct n as [|n]; simpl.
  - replace (i + Z.of_nat 0) with i in Hb by lia. rewrite Hb, Hpl. reflexivity.
  - rewrite H0. simpl. apply IH; [exact Hpl|].
    replace (i + 1 + Z.of_nat n) with (i + Z.of_nat (S n)) by lia. exact Hb.
Qed.

Lemma forallb_lookup {A} (p : A -> bool) (l : list A) n x :
  forallb p l = true -> l !! n = Some x -> p x = true.
Proof.
  revert n. induction l as [|y l IH]; intros n H Hn; [discriminate|].
  simpl in H. apply andb_true_iff in H as [Hy Hl].
  destruct n as [|n]; simpl in Hn; [injection Hn as <-; exact Hy | eauto].
Qed.

Lemma forallb_insert {A} (p : A -> bool) (l : list A) n x :
  forallb p l = true -> p x = true -> forallb p (<[n := x]> l) = true.
Proof.
  revert n. induction l as [|y l IH]; intros n H Hx; [reflexivity|].
  simpl in H. apply andb_true_iff in H as [Hy Hl].
  destruct n as [|n]; simpl.
  - rewrite Hx, Hl. reflexivity.
  - rewrite Hy. simpl. auto.
Qed.

Lemma forallb_by_lookup {A} (p : A -> bool) (l : list A) :
  (forall n x, l !! n = Some x -> p x = true) -> forallb p l = true.
Proof.
  induction l as [|y l IH]; intros H; simpl; [reflexivity|].
  rewrite (H 0%nat y eq_refl). simpl.
  apply IH. intros n x Hn. apply (H (S n) x Hn).
Qed.

Lemma placed_calloc nb n i :
  placed nb i (replicate n (mkBucket [])) = true.
Proof. revert i. induction n as [|n IH]; intros i; simpl; auto. Qed.

Lemma buckets_ok_calloc nb : 1 <= nb -> buckets_ok nb (calloc_buckets nb) = true.
Proof.
  intros H. unfold buckets_ok.
  rewrite length_calloc by lia.
  apply andb_true_iff; split; [apply andb_true_iff; split|].
  - apply andb_true_iff; split; [apply Z.leb_le; lia | apply Z.eqb_refl].
  - apply forallb_by_lookup. intros n b Hb.
    unfold calloc_buckets in Hb. apply lookup_replicate in Hb as [-> _].
    reflexivity.
  - apply placed_calloc.
Qed.

Lemma chain_at_lookup bs (n : nat) b :
  bs !! n = Some b -> chain_at bs (Z.of_nat n) = head b.
Proof. intros H. unfold chain_at. rewrite Nat2Z.id, H. reflexivity. Qed.

(** The chain written by [put] and by [prepend] keeps I1 and I2. *)
Lemma write_head_ok nb bs i h :
  buckets_ok nb bs = true -> 0 <= i < nb ->
  distinct_keys h = true ->
  forallb (fun it => slot nb (key it) =? i) h = true ->
  buckets_ok nb (write_head bs i h) = true.
Proof.
  unfold buckets_ok. intros Hok Hi Hd Hp.
  apply andb_true_iff in Hok as [Hok Hpl].
  apply andb_true_iff in Hok as [Hok Hdk].
  rewrite length_write_head, Hok. simpl.
  apply andb_true_iff; split.
  - apply forallb_insert; assumption.
  - apply placed_insert; [assumption|]. simpl.
    rewrite Z2Nat.id by lia. exact Hp.
Qed.

Lemma buckets_ok_chain nb bs i :
  buckets_ok nb bs = true -> 0 <= i < nb ->
  distinct_keys (chain_at bs i) = true
  /\ forallb (fun it => slot nb (key it) =? i) (chain_at bs i) = true.
Proof.
  unfold buckets_ok. intros Hok Hi.
  apply andb_true_iff in Hok as [Hok Hpl].
  apply andb_true_iff in Hok as [Hok Hdk].
  unfold chain_at. destruct (bs !! Z.to_nat i) as [b|] eqn:Eb; [|auto].
  split.
  - apply (forallb_lookup _ _ _ _ Hdk Eb).
  - pose proof (placed_lookup nb bs 0 _ _ Hpl Eb) as H.
    rewrite Z2Nat.id in H by lia. exact H.
Qed.

Lemma buckets_ok_put nb bs k v :
  buckets_ok nb bs = true -> buckets_ok nb (put bs nb k v) = true.
Proof.
  intros Hok. destruct (buckets_ok_sized _ _ Hok) as [Hnb Hlen].
  pose proof (slot_range nb k ltac:(lia)) as Hs.
  destruct (buckets_ok_chain nb bs (slot nb k) Hok Hs) as [Hd Hp].
  unfold put.
  pose proof (insert_scan_keys k v (chain_at bs (slot nb k)) 0) as Hkeys.
  pose proof (insert_scan_succeeded k v (chain_at bs (slot nb k)) 0) as Hsucc.
  destruct (insert_scan k v (chain_at bs (slot nb k)) 0) as [[s d] c']; simpl in *.
  apply write_head_ok; try assumption.
  - destruct s.
    + rewrite (distinct_keys_keys _ _ Hkeys). exact Hd.
    + simpl. fold (has_key k (chain_at bs (slot nb k))).
      rewrite <- Hsucc, Hd. reflexivity.
  - destruct s.
    + rewrite (placed_keys nb _ _ _ Hkeys). exact Hp.
    + simpl. rewrite Z.eqb_refl, Hp. reflexivity.
Qed.

Lemma forallb_filter_self {A} (p : A -> bool) (l : list A) :
  forallb p (List.filter p l) = true.
Proof.
  induction l as [|x l IH]; simpl; [reflexivity|].
  destruct (p x) eqn:E; simpl; [rewrite E|]; auto.
Qed.

Lemma fold_prepend_placed nb items : forall bs,
  0 < nb -> Z.of_nat (length bs) = nb ->
  placed nb 0 bs = true ->
  placed nb 0 (fold_left (prepend nb) items bs) = true.
Proof.
  induction items as [|it items IH]; intros bs Hnb Hlen Hpl; simpl; [exact Hpl|].
  apply IH; [assumption | rewrite length_prepend; assumption |].
  pose proof (slot_range nb (key it) Hnb) as Hs.
  unfold prepend, write_head. apply placed_insert; [assumption|].
  simpl. rewrite Z2Nat.id by lia. rewrite Z.eqb_refl. simpl.
  unfold chain_at. destruct (bs !! Z.to_nat (slot nb (key it))) as [b|] eqn:Eb;
    [|reflexivity].
  pose proof (placed_lookup nb bs 0 _ _ Hpl Eb) as H.
  rewrite Z2Nat.id in H by lia. exact H.
Qed.

(** The array that [resize] builds satisfies I1, I2 and I5 again. *)
Lemma buckets_ok_rehash nb nb' bs :
  buckets_ok nb bs = true -> 1 <= nb' ->
  buckets_ok nb' (fold_left (prepend nb') (all_items bs) (calloc_buckets nb')) = true.
Proof.
  intros Hok Hnb'.
  pose proof (buckets_ok_calloc nb' Hnb') as Hc.
  destruct (buckets_ok_sized _ _ Hc) as [_ Hlenc].
  unfold buckets_ok in *.
  apply andb_true_iff in Hok as [Hok Hpl].
  apply andb_true_iff in Hok as [Hok Hd].
  apply andb_true_iff in Hc as [Hc Hplc].
  rewrite length_fold_prepend, Hlenc, Z.eqb_refl.
  replace (1 <=? nb') with true by (symmetry; apply Z.leb_le; lia). simpl.
  apply andb_true_iff; split.
  - apply forallb_by_lookup. intros n b Hb.
    rewrite <- (chain_at_lookup _ _ _ Hb).
    rewrite chain_at_fold_prepend by lia.
    rewrite chain_at_calloc, app_nil_r.
    apply once_distinct. intros k. apply once_rev.
    destruct (Z.eq_dec (slot nb' k) (Z.of_nat n)) as [E|E].
    + apply once_filter.
      * intros it <-. apply Z.eqb_eq. exact E.
      * destruct (all_items_scan nb k 0 bs 0 ltac:(lia) Hpl Hd) as [_ H].
        pose proof (slot_range nb k) as Hs.
        apply andb_true_iff in Hok as [Hnb _]. apply Z.leb_le in Hnb.
        apply H. lia.
    + apply absent_once.
      apply (placed_chain_absent nb' (Z.of_nat n));
        [apply forallb_filter_self | exact E].
  - apply fold_prepend_placed; [lia | exact Hlenc | exact Hplc].
Qed.

Lemma locked_built_ok t :
  locked_built t ->
  buckets_ok (Locked.num_buckets t) (Locked.buckets t) = true
  /\ 1 <= Locked.num_locks t.
Proof.
  induction 1 as [nb nl Hnb Hnl | g t k v g' t' Hb [IH1 IH2] Hi
                 | g t g' t' Hb [IH1 IH2] Hfb Hfl Hr].
  - split; [apply buckets_ok_calloc; assumption | assumption].
  - destruct (buckets_ok_sized _ _ IH1) as [Hnb Hlen].
    assert (Hs : locked_sized t) by (unfold locked_sized; auto).
    destruct (Z.eq_dec k INVALID_KEY) as [Ek|Ek];
      [|destruct (Z.eq_dec v INVALID_VALUE) as [Ev|Ev]].
    + rewrite locked_insert_sentinel in Hi by (left; assumption).
      injection Hi as <- <-. auto.
    + rewrite locked_insert_sentinel in Hi by (right; assumption).
      injection Hi as <- <-. auto.
    + destruct (locked_insert_buckets _ _ _ _ _ _ Hs Ek Ev Hi) as (-> & -> & ->).
      split; [apply buckets_ok_put; assumption | assumption].
  - destruct (buckets_ok_sized _ _ IH1) as [Hnb Hlen].
    assert (Hs : locked_sized t) by (unfold locked_sized; auto).
    rewrite locked_resize_result in Hr by assumption.
    injection Hr as <- <-. simpl.
    split; [apply (buckets_ok_rehash (Locked.num_buckets t)); [assumption | lia] | lia].
Qed.

Lemma lockfree_built_ok t :
  lockfree_built t ->
  buckets_ok (LockFree.num_buckets t) (LockFree.buckets t) = true.
Proof.
  induction 1 as [nb nl Hnb | g t k v g' t' Hb IH Hi | g t g' t' Hb IH Hfb Hr].
  - apply buckets_ok_calloc; assumption.
  - destruct (buckets_ok_sized _ _ IH) as [Hnb Hlen].
    assert (Hs : lockfree_sized t) by (unfold lockfree_sized; auto).
    destruct (Z.eq_dec k INVALID_KEY) as [Ek|Ek];
      [|destruct (Z.eq_dec v INVALID_VALUE) as [Ev|Ev]].
    + rewrite lockfree_insert_sentinel in Hi by (left; assumption).
      injection Hi as <- <-. auto.
    + rewrite lockfree_insert_sentinel in Hi by (right; assumption).
      injection Hi as <- <-. auto.
    + destruct (lockfree_insert_buckets _ _ _ _ _ _ Hs Ek Ev Hi) as (-> & ->).
      apply buckets_ok_put; assumption.
  - destruct (buckets_ok_sized _ _ IH) as [Hnb Hlen].
    assert (Hs : lockfree_sized t) by (unfold lockfree_sized; auto).
    rewrite lockfree_resize_result in Hr by assumption.
    injection Hr as <- <-. simpl.
    apply (buckets_ok_rehash (LockFree.num_buckets t)); [assumption | lia].
Qed.

(** Both invariants are needed for the rehash to keep the lookups: with a
    key twice in a chain the reversal exposes the other node, and a node
    outside the bucket of its key becomes visible. *)
Example resize_with_duplicate_key :
  Locked.lookup locked_duplicate 6 = Ok 1
  /\ (r <- Locked.resize initial_globals locked_duplicate ;; Locked.lookup r.2 6) = Ok 2.
Proof. split; reflexivity. Qed.

Example resize_with_misplaced_node :
  Locked.lookup locked_misplaced 6 = Ok INVALID_VALUE
  /\ (r <- Locked.resize initial_globals locked_misplaced ;; Locked.lookup r.2 6) = Ok 1.
Proof. split; reflexivity. Qed.

(** ** The rehash in any order of arrival

    The [omp for] of [resize] hands the old buckets to the threads of the
    team, so the [resize_insert] calls reach the new table in an order that
    interleaves the chains.  [rehash_chain] run on any arrangement of the
    nodes of the old table covers each of these orders. *)

Lemma has_key_perm k c c' : Permutation c c' -> has_key k c = has_key k c'.
Proof.
  induction 1 as [|x l l' _ IH|x y l|l l' l'' _ IH1 _ IH2]; simpl.
  - reflexivity.
  - rewrite IH. reflexivity.
  - destruct (key y =? k), (key x =? k); reflexivity.
  - congruence.
Qed.

Lemma once_perm k c c' : Permutation c c' -> once k c = once k c'.
Proof.
  induction 1 as [|x l l' Hp IH|x y l|l l' l'' _ IH1 _ IH2]; simpl.
  - reflexivity.
  - rewrite IH, (has_key_perm k l l' Hp). reflexivity.
  - destruct (key y =? k), (key x =? k); simpl; reflexivity.
  - congruence.
Qed.

Lemma lookup_scan_perm k d c c' :
  Permutation c c' -> once k c = true ->
  lookup_scan k c d = lookup_scan k c' d.
Proof.
  induction 1 as [|x l l' Hp IH|x y l|l l' l'' Hp1 IH1 _ IH2]; simpl.
  - reflexivity.
  - destruct (key x =? k); [reflexivity | exact IH].
  - destruct (key y =? k), (key x =? k); simpl; try reflexivity. discriminate.
  - intros Ho. rewrite IH1 by exact Ho. apply IH2.
    rewrite <- (once_perm k l l' Hp1). exact Ho.
Qed.

Lemma find_in_rehash_any_order nb nb' bs items k :
  buckets_ok nb bs = true -> 0 < nb' ->
  Permutation items (all_items bs) ->
  find_in (fold_left (prepend nb') items (calloc_buckets nb')) nb' k
  = find_in bs nb k.
Proof.
  intros Hok Hnb' Hperm.
  rewrite <- (find_in_rehash nb nb' bs k Hok Hnb').
  pose proof (slot_range nb' k Hnb') as Hs'.
  unfold buckets_ok in Hok.
  apply andb_true_iff in Hok as [Hok Hpl].
  apply andb_true_iff in Hok as [Hok Hd].
  apply andb_true_iff in Hok as [Hnb Hlen]. apply Z.leb_le in Hnb.
  pose proof (slot_range nb k ltac:(lia)) as Hs.
  destruct (all_items_scan nb k INVALID_VALUE bs 0 ltac:(lia) Hpl Hd) as [_ Hall].
  destruct (Hall ltac:(lia)) as [_ Honce].
  assert (Honce' : once k items = true)
    by (rewrite (once_perm k _ _ Hperm); exact Honce).
  assert (Hp : forall it, key it = k ->
                 (slot nb' (key it) =? slot nb' k) = true).
  { intros it ->. apply Z.eqb_refl. }
  unfold find_in.
  rewrite !chain_at_fold_prepend by (try apply length_calloc; lia).
  rewrite chain_at_calloc, !app_nil_r.
  rewrite !lookup_scan_rev by (apply once_filter; assumption).
  rewrite !lookup_scan_filter by assumption.
  apply lookup_scan_perm; assumption.
Qed.

(** Whatever the order in which the nodes of the old table reach the new
    one, the lookups are those of the old table. *)
Lemma locked_rehash_any_order t items k :
  buckets_ok (Locked.num_buckets t) (Locked.buckets t) = true ->
  1 <= Locked.num_locks t ->
  Permutation items (all_items (Locked.buckets t)) ->
  exists t',
    Locked.rehash_chain
      (Locked.set_num_items
         (Locked.create_table (2 * Locked.num_buckets t) (2 * Locked.num_locks t))
         (Locked.num_items t))
      items = Ok t'
    /\ Locked.lookup t' k = Locked.lookup t k.
Proof.
  intros Hok Hnl Hperm.
  destruct (buckets_ok_sized _ _ Hok) as [Hnb Hlen].
  eexists. split.
  - apply locked_rehash_chain. unfold locked_sized. simpl.
    rewrite length_calloc by lia. lia.
  - rewrite !locked_lookup_find.
    + simpl. destruct (k =? INVALID_KEY); [reflexivity|]. f_equal.
      apply find_in_rehash_any_order; [assumption | lia | assumption].
    + unfold locked_sized. auto.
    + unfold locked_sized. simpl.
      rewrite length_fold_prepend, length_calloc by lia. lia.
Qed.

Lemma lockfree_rehash_any_order t items k :
  buckets_ok (LockFree.num_buckets t) (LockFree.buckets t) = true ->
  Permutation items (all_items (LockFree.buckets t)) ->
  exists t',
    LockFree.rehash_chain
      (LockFree.set_num_items
         (LockFree.create_table (2 * LockFree.num_buckets t) 1)
         (LockFree.num_items t))
      items = Ok t'
    /\ LockFree.lookup t' k = LockFree.lookup t k.
Proof.
  intros Hok Hperm.
  destruct (buckets_ok_sized _ _ Hok) as [Hnb Hlen].
  eexists. split.
  - apply lockfree_rehash_chain. unfold lockfree_sized. simpl.
    rewrite length_calloc by lia. lia.
  - rewrite !lockfree_lookup_find.
    + simpl. destruct (k =? INVALID_KEY); [reflexivity|]. f_equal.
      apply find_in_rehash_any_order; [assumption | lia | assumption].
    + unfold lockfree_sized. auto.
    + unfold lockfree_sized. simpl.
      rewrite length_fold_prepend, length_calloc by lia. lia.
Qed.

(** ** Histories of inserts and resizes *)

Lemma locked_run_ops_find ops : forall g t,
  buckets_ok (Locked.num_buckets t) (Locked.buckets t) = true ->
  1 <= Locked.num_locks t ->
  Locked.num_buckets t * 2 ^ Z.of_nat (resizes_of ops) <= SIZE_MAX ->
  Locked.num_locks t * 2 ^ Z.of_nat (resizes_of ops) <= SIZE_MAX ->
  Forall valid_op (inserts_of ops) ->
  exists g' t',
    Locked.run_ops g t ops = Ok (g', t')
    /\ locked_sized t'
    /\ forall k, find_in (Locked.buckets t') (Locked.num_buckets t') k
                 = latest k (inserts_of ops)
                     (find_in (Locked.buckets t) (Locked.num_buckets t) k).
Proof.
  induction ops as [|[k0 v0|] ops IH]; intros g t Hok Hnl Hfb Hfl Hops; simpl.
  - exists g, t. destruct (buckets_ok_sized _ _ Hok).
    unfold locked_sized. auto.
  - simpl in Hops, Hfb, Hfl.
    inversion Hops as [|? ? [Hk Hv] Hrest]; subst. simpl in Hk, Hv.
    destruct (buckets_ok_sized _ _ Hok) as [Hnb Hlen].
    assert (Hs : locked_sized t) by (unfold locked_sized; auto).
    destruct (locked_insert_items g t k0 v0 Hs) as (g1 & t1 & Hi & _ & _).
    destruct (locked_insert_buckets _ _ _ _ _ _ Hs Hk Hv Hi) as (Hb1 & Hnb1 & Hnl1).
    rewrite Hi. simpl.
    destruct (IH g1 t1) as (g' & t' & Hrun & Hs' & Hfind);
      try (rewrite ?Hb1, ?Hnb1, ?Hnl1; assumption).
    { rewrite Hb1, Hnb1. apply buckets_ok_put. assumption. }
    exists g', t'. split; [exact Hrun|]. split; [exact Hs'|].
    intros k. rewrite Hfind, Hb1, Hnb1.
    rewrite find_in_put by (assumption || lia).
    rewrite (Z.eqb_sym k k0). reflexivity.
  - simpl in Hops, Hfb, Hfl.
    rewrite Nat2Z.inj_succ, Z.pow_succ_r in Hfb, Hfl by lia.
    destruct (buckets_ok_sized _ _ Hok) as [Hnb Hlen].
    assert (Hpow : 1 <= 2 ^ Z.of_nat (resizes_of ops))
      by (pose proof (Z.pow_pos_nonneg 2 (Z.of_nat (resizes_of ops))); lia).
    assert (Hs : locked_sized t) by (unfold locked_sized; auto).
    rewrite locked_resize_result by (assumption || nia). simpl.
    match goal with
    | |- context [Locked.run_ops ?g1 ?t1 ops] =>
        destruct (IH g1 t1) as (g' & t' & Hrun & Hs' & Hfind)
    end; simpl; try assumption; try lia.
    { apply (buckets_ok_rehash (Locked.num_buckets t)); [assumption | lia]. }
    exists g', t'. split; [exact Hrun|]. split; [exact Hs'|].
    intros k. rewrite Hfind. simpl. f_equal.
    apply find_in_rehash; [assumption | lia].
Qed.

Lemma lockfree_run_ops_find ops : forall g t,
  buckets_ok (LockFree.num_buckets t) (LockFree.buckets t) = true ->
  LockFree.num_buckets t * 2 ^ Z.of_nat (resizes_of ops) <= SIZE_MAX ->
  Forall valid_op (inserts_of ops) ->
  exists g' t',
    LockFree.run_ops g t ops = Ok (g', t')
    /\ lockfree_sized t'
    /\ forall k, find_in (LockFree.buckets t') (LockFree.num_buckets t') k
                 = latest k (inserts_of ops)
                     (find_in (LockFree.buckets t) (LockFree.num_buckets t) k).
Proof.
  induction ops as [|[k0 v0|] ops IH]; intros g t Hok Hfb Hops; simpl.
  - exists g, t. destruct (buckets_ok_sized _ _ Hok).
    unfold lockfree_sized. auto.
  - simpl in Hops, Hfb.
    inversion Hops as [|? ? [Hk Hv] Hrest]; subst. simpl in Hk, Hv.
    destruct (buckets_ok_sized _ _ Hok) as [Hnb Hlen].
    assert (Hs : lockfree_sized t) by (unfold lockfree_sized; auto).
    destruct (lockfree_insert_items g t k0 v0 Hs) as (g1 & t1 & Hi & _ & _).
    destruct (lockfree_insert_buckets _ _ _ _ _ _ Hs Hk Hv Hi) as (Hb1 & Hnb1).
    rewrite Hi. simpl.
    destruct (IH g1 t1) as (g' & t' & Hrun & Hs' & Hfind);
      try (rewrite ?Hb1, ?Hnb1; assumption).
    { rewrite Hb1, Hnb1. apply buckets_ok_put. assumption. }
    exists g', t'. split; [exact Hrun|]. split; [exact Hs'|].
    intros k. rewrite Hfind, Hb1, Hnb1.
    rewrite find_in_put by (assumption || lia).
    rewrite (Z.eqb_sym k k0). reflexivity.
  - simpl in Hops, Hfb.
    rewrite Nat2Z.inj_succ, Z.pow_succ_r in Hfb by lia.
    destruct (buckets_ok_sized _ _ Hok) as [Hnb Hlen].
    assert (Hpow : 1 <= 2 ^ Z.of_nat (resizes_of ops))
      by (pose proof (Z.pow_pos_nonneg 2 (Z.of_nat (resizes_of ops))); lia).
    assert (Hs : lockfree_sized t) by (unfold lockfree_sized; auto).
    rewrite lockfree_resize_result by (assumption || nia). simpl.
    match goal with
    | |- context [LockFree.run_ops ?g1 ?t1 ops] =>
        destruct (IH g1 t1) as (g' & t' & Hrun & Hs' & Hfind)
    end; simpl; try assumption; try lia.
    { apply (buckets_ok_rehash (LockFree.num_buckets t)); [assumption | lia]. }
    exists g', t'. split; [exact Hrun|]. split; [exact Hs'|].
    intros k. rewrite Hfind. simpl. f_equal.
    apply find_in_rehash; [assumption | lia].
Qed.

(** X6.  The lookups after a history of inserts and resizes on a fresh
    table: the most recent insert under the key, through any number of
    resizes that fit in [size_t].  Both variants. *)
Lemma lookup_after_history_latest nb nl g ops k :
  1 <= nb -> 1 <= nl ->
  nb * 2 ^ Z.of_nat (resizes_of ops) <= SIZE_MAX ->
  nl * 2 ^ Z.of_nat (resizes_of ops) <= SIZE_MAX ->
  Forall valid_op (inserts_of ops) ->
  (exists g' t',
      Locked.run_ops g (Locked.create_table nb nl) ops = Ok (g', t')
      /\ Locked.lookup t' k = Ok (latest k (inserts_of ops) INVALID_VALUE))
  /\ (exists g' t',
      LockFree.run_ops g (LockFree.create_table nb nl) ops = Ok (g', t')
      /\ LockFree.lookup t' k = Ok (latest k (inserts_of ops) INVALID_VALUE)).
Proof.
  intros Hnb Hnl Hfb Hfl Hops. split.
  - destruct (locked_run_ops_find ops g (Locked.create_table nb nl))
      as (g' & t' & Hrun & Hs & Hfind); simpl; try assumption.
    { apply buckets_ok_calloc. assumption. }
    exists g', t'. split; [exact Hrun|].
    rewrite locked_lookup_find by assumption.
    destruct (Z.eqb_spec k INVALID_KEY) as [->|Hk].
    + rewrite latest_sentinel by assumption. reflexivity.
    + rewrite Hfind. simpl. rewrite find_in_calloc. reflexivity.
  - destruct (lockfree_run_ops_find ops g (LockFree.create_table nb nl))
      as (g' & t' & Hrun & Hs & Hfind); simpl; try assumption.
    { apply buckets_ok_calloc. assumption. }
    exists g', t'. split; [exact Hrun|].
    rewrite lockfree_lookup_find by assumption.
    destruct (Z.eqb_spec k INVALID_KEY) as [->|Hk].
    + rewrite latest_sentinel by assumption. reflexivity.
    + rewrite Hfind. simpl. rewrite find_in_calloc. reflexivity.
Qed.

(** ** The literal scenarios of the specification, run on both variants *)

(** Scenario 1: four buckets, resizing disabled, inserts [(1,100)], [(5,500)],
    [(9,900)]; the three keys share a bucket (bucket 2), and the lookups
    return 100, 500, 900 and, for the key 2, [INVALID_VALUE]. *)
Example scenario_single_thread :
  let g := mkGlobals 0 0 0 in
  let ops := [(1, 100); (5, 500); (9, 900)] in
  hash1 1 4 = Ok 2 /\ hash1 5 4 = Ok 2 /\ hash1 9 4 = Ok 2
  /\ (r <- Locked.run_inserts g (Locked.create_table 4 1) ops ;;
      a <- Locked.lookup r.2 1 ;; b <- Locked.lookup r.2 5 ;;
      c <- Locked.lookup r.2 9 ;; d <- Locked.lookup r.2 2 ;;
      Ok (a, b, c, d)) = Ok (100, 500, 900, INVALID_VALUE)
  /\ (r <- LockFree.run_inserts g (LockFree.create_table 4 1) ops ;;
      a <- LockFree.lookup r.2 1 ;; b <- LockFree.lookup r.2 5 ;;
      c <- LockFree.lookup r.2 9 ;; d <- LockFree.lookup r.2 2 ;;
      Ok (a, b, c, d)) = Ok (100, 500, 900, INVALID_VALUE).
Proof. repeat split; reflexivity. Qed.

(** Scenario 3: two buckets, resizing enabled, twenty keys of one bucket.
    The ninth insert finds a chain of eight nodes and sets [resize_needed];
    after the resize the table has four buckets and every key is still
    found. *)
Example scenario_resize_trigger :
  let keys := map (fun i => 2 * Z.of_nat i) (seq 1 20) in
  let ops := map (fun k => (k, k + 1)) keys in
  (r <- Locked.run_inserts initial_globals (Locked.create_table 2 1) (take 8 ops) ;;
   Ok (resize_needed r.1)) = Ok 0
  /\ (r <- Locked.run_inserts initial_globals (Locked.create_table 2 1) (take 9 ops) ;;
      Ok (resize_needed r.1)) = Ok 1
  /\ (r <- Locked.run_inserts initial_globals (Locked.create_table 2 1) ops ;;
      r' <- Locked.resize r.1 r.2 ;;
      Ok (resize_needed r'.1, Locked.num_buckets r'.2, Locked.num_items r'.2,
          forallb (fun k => match Locked.lookup r'.2 k with
                            | Ok v => v =? k + 1
                            | Fault _ => false
                            end) keys)) = Ok (0, 4, 20, true).
Proof. repeat split; vm_compute; reflexivity. Qed.

(** Scenario 6: the sentinel inserts leave an empty table empty. *)
Example scenario_sentinel :
  (r <- Locked.run_inserts initial_globals (Locked.create_table 4 1)
          [(INVALID_KEY, 5); (3, INVALID_VALUE)] ;;
   v <- Locked.lookup r.2 3 ;;
   Ok (v, Locked.num_items r.2)) = Ok (INVALID_VALUE, 0)
  /\ (r <- LockFree.run_inserts initial_globals (LockFree.create_table 4 1)
             [(INVALID_KEY, 5); (3, INVALID_VALUE)] ;;
      v <- LockFree.lookup r.2 3 ;;
      Ok (v, LockFree.num_items r.2)) = Ok (INVALID_VALUE, 0).
Proof. split; reflexivity. Qed.

(** * Further properties of the table operations *)

(** ** Insert and lookup on any sized table *)

(** X1.  On every sized table, an insert with non-sentinel arguments returns
    a sized table with the same number of buckets on which the lookup of the
    inserted key returns the inserted value and the lookup of every other
    key returns what it returned before.  Both variants. *)
Theorem insert_then_lookup_and_frame (g : Globals) (k v : Z)
    (t : Locked.ChainedHashTable) (u : LockFree.ChainedHashTable) :
  locked_sized t -> lockfree_sized u ->
  k <> INVALID_KEY -> v <> INVALID_VALUE ->
  (exists g' t',
      Locked.insert g t k v = Ok (g', t')
      /\ locked_sized t'
      /\ Locked.num_buckets t' = Locked.num_buckets t
      /\ Locked.lookup t' k = Ok v
      /\ forall k', k' <> k -> Locked.lookup t' k' = Locked.lookup t k')
  /\ (exists g' u',
      LockFree.insert g u k v = Ok (g', u')
      /\ lockfree_sized u'
      /\ LockFree.num_buckets u' = LockFree.num_buckets u
      /\ LockFree.lookup u' k = Ok v
      /\ forall k', k' <> k -> LockFree.lookup u' k' = LockFree.lookup u k').
Proof.
  intros Ht Hu Hk Hv. split.
  - destruct (locked_insert_items g t k v Ht) as (g' & t' & Hi & _ & _).
    destruct (locked_insert_buckets _ _ _ _ _ _ Ht Hk Hv Hi) as (Hb & Hnb & Hnl).
    destruct Ht as (H1 & H2 & H3).
    assert (Ht' : locked_sized t').
    { unfold locked_sized. rewrite Hb, Hnb, Hnl, length_put. auto. }
    exists g', t'. split; [exact Hi|]. split; [exact Ht'|]. split; [exact Hnb|].
    split.
    + rewrite locked_lookup_find by assumption.
      destruct (Z.eqb_spec k INVALID_KEY); [contradiction|].
      rewrite Hb, Hnb, find_in_put by (assumption || lia).
      rewrite Z.eqb_refl. reflexivity.
    + intros k' Hne. rewrite !locked_lookup_find by (unfold locked_sized; auto).
      destruct (k' =? INVALID_KEY); [reflexivity|].
      rewrite Hb, Hnb, find_in_put by (assumption || lia).
      destruct (Z.eqb_spec k' k); [contradiction | reflexivity].
  - destruct (lockfree_insert_items g u k v Hu) as (g' & u' & Hi & _ & _).
    destruct (lockfree_insert_buckets _ _ _ _ _ _ Hu Hk Hv Hi) as (Hb & Hnb).
    destruct Hu as (H1 & H2).
    assert (Hu' : lockfree_sized u').
    { unfold lockfree_sized. rewrite Hb, Hnb, length_put. auto. }
    exists g', u'. split; [exact Hi|]. split; [exact Hu'|]. split; [exact Hnb|].
    split.
    + rewrite lockfree_lookup_find by assumption.
      destruct (Z.eqb_spec k INVALID_KEY); [contradiction|].
      rewrite Hb, Hnb, find_in_put by (assumption || lia).
      rewrite Z.eqb_refl. reflexivity.
    + intros k' Hne. rewrite !lockfree_lookup_find by (unfold lockfree_sized; auto).
      destruct (k' =? INVALID_KEY); [reflexivity|].
      rewrite Hb, Hnb, find_in_put by (assumption || lia).
      destruct (Z.eqb_spec k' k); [contradiction | reflexivity].
Qed.

Lemma insert_then_lookup_and_frame_witness :
  (exists g' t',
      Locked.insert initial_globals locked_example 18 9 = Ok (g', t')
      /\ Locked.lookup t' 18 = Ok 9
      /\ Locked.lookup t' 6 = Ok 3)
  /\ (exists g' u',
      LockFree.insert initial_globals lockfree_example 18 9 = Ok (g', u')
      /\ LockFree.lookup u' 18 = Ok 9
      /\ LockFree.lookup u' 6 = Ok 3).
Proof.
  assert (Hk : 18 <> INVALID_KEY) by (unfold INVALID_KEY, UINT64_MAX; lia).
  assert (Hv : 9 <> INVALID_VALUE) by (unfold INVALID_VALUE, UINT64_MAX; lia).
  assert (Ht : locked_sized locked_example) by (repeat split; simpl; lia).
  assert (Hu : lockfree_sized lockfree_example) by (repeat split; simpl; lia).
  assert (Hne : 6 <> 18) by lia.
  destruct (insert_then_lookup_and_frame initial_globals 18 9
              locked_example lockfree_example Ht Hu Hk Hv)
    as [(g' & t' & Hi & _ & _ & Hl & Hf) (g2 & u' & Hi2 & _ & _ & Hl2 & Hf2)].
  split.
  - exists g', t'. split; [exact Hi|]. split; [exact Hl|].
    rewrite (Hf 6 Hne). reflexivity.
  - exists g2, u'. split; [exact Hi2|]. split; [exact Hl2|].
    rewrite (Hf2 6 Hne). reflexivity.
Defined.

(** ** Repeating an insert *)

(** A scan that finds the key with the value to write leaves the chain as it
    is. *)
Lemma insert_scan_same k v c d :
  has_key k c = true -> lookup_scan k c INVALID_VALUE = v ->
  (insert_scan k v c d).2 = c.
Proof.
  revert d. induction c as [|it c IH]; intros d; simpl; [discriminate|].
  destruct (Z.eqb_spec (key it) k) as [E|E]; simpl.
  - intros _ <-. destruct it; reflexivity.
  - intros Hh Hl. specialize (IH (int_wrap (d + 1)) Hh Hl).
    destruct (insert_scan k v c (int_wrap (d + 1))) as [[s d'] c']; simpl in *.
    congruence.
Qed.

Lemma put_put_same bs nb k v :
  0 < nb -> Z.of_nat (length bs) = nb ->
  put (put bs nb k v) nb k v = put bs nb k v.
Proof.
  intros Hnb Hlen.
  pose proof (has_key_put bs nb k v Hnb Hlen) as Hh.
  pose proof (find_in_put bs nb k v k Hnb Hlen) as Hf.
  rewrite Z.eqb_refl in Hf. unfold find_in in Hf.
  pose proof (slot_range nb k Hnb) as Hs.
  set (bs1 := put bs nb k v) in *.
  assert (Hlen1 : Z.of_nat (length bs1) = nb)
    by (unfold bs1; rewrite length_put; exact Hlen).
  unfold put at 1.
  pose proof (insert_scan_same k v (chain_at bs1 (slot nb k)) 0 Hh Hf) as Hsame.
  pose proof (insert_scan_succeeded k v (chain_at bs1 (slot nb k)) 0) as Hsucc.
  rewrite Hh in Hsucc.
  destruct (insert_scan k v (chain_at bs1 (slot nb k)) 0) as [[s d] c']; simpl in *.
  subst s c'. unfold write_head, chain_at.
  destruct (bs1 !! Z.to_nat (slot nb k)) as [[h]|] eqn:Eb.
  - simpl. apply list_insert_id. exact Eb.
  - apply lookup_ge_None in Eb. lia.
Qed.

(** X2.  Idempotence: on a sized table, an insert repeated with the same
    non-sentinel arguments right after the first returns the globals and the
    table exactly as the first left them (no second node, no change of
    [num_items] or [resize_needed]).  Both variants. *)
Theorem insert_twice_is_insert_once (g : Globals) (k v : Z)
    (t : Locked.ChainedHashTable) (u : LockFree.ChainedHashTable) :
  locked_sized t -> lockfree_sized u ->
  k <> INVALID_KEY -> v <> INVALID_VALUE ->
  (exists g1 t1,
      Locked.insert g t k v = Ok (g1, t1)
      /\ Locked.insert g1 t1 k v = Ok (g1, t1))
  /\ (exists g1 u1,
      LockFree.insert g u k v = Ok (g1, u1)
      /\ LockFree.insert g1 u1 k v = Ok (g1, u1)).
Proof.
  intros Ht Hu Hk Hv. split.
  - destruct (locked_insert_items g t k v Ht) as (g1 & t1 & Hi & _ & _).
    destruct (locked_insert_buckets _ _ _ _ _ _ Ht Hk Hv Hi) as (Hb & Hnb & Hnl).
    destruct Ht as (H1 & H2 & H3).
    assert (Ht1 : locked_sized t1).
    { unfold locked_sized. rewrite Hb, Hnb, Hnl, length_put. auto. }
    exists g1, t1. split; [exact Hi|].
    rewrite locked_insert_put by assumption.
    rewrite insert_scan_succeeded.
    rewrite Hb, Hnb at 1 2. rewrite has_key_put by (assumption || lia).
    rewrite put_put_same by (assumption || lia).
    simpl. rewrite <- Hb. destruct t1; reflexivity.
  - destruct (lockfree_insert_items g u k v Hu) as (g1 & u1 & Hi & _ & _).
    destruct (lockfree_insert_buckets _ _ _ _ _ _ Hu Hk Hv Hi) as (Hb & Hnb).
    destruct Hu as (H1 & H2).
    assert (Hu1 : lockfree_sized u1).
    { unfold lockfree_sized. rewrite Hb, Hnb, length_put. auto. }
    exists g1, u1. split; [exact Hi|].
    rewrite lockfree_insert_put by assumption.
    rewrite insert_scan_succeeded.
    rewrite Hb, Hnb at 1 2. rewrite has_key_put by (assumption || lia).
    rewrite put_put_same by (assumption || lia).
    simpl. rewrite <- Hb. destruct u1; reflexivity.
Qed.

Lemma insert_twice_is_insert_once_witness :
  (exists g1 t1,
      Locked.insert initial_globals locked_example 18 9 = Ok (g1, t1)
      /\ Locked.insert g1 t1 18 9 = Ok (g1, t1))
  /\ (exists g1 u1,
      LockFree.insert initial_globals lockfree_example 18 9 = Ok (g1, u1)
      /\ LockFree.insert g1 u1 18 9 = Ok (g1, u1)).
Proof.
  apply (insert_twice_is_insert_once initial_globals 18 9
           locked_example lockfree_example).
  - repeat split; simpl; lia.
  - repeat split; simpl; lia.
  - unfold INVALID_KEY, UINT64_MAX. lia.
  - unfold INVALID_VALUE, UINT64_MAX. lia.
Defined.

(** ** When lookup and insert fault *)

Lemma locked_lookup_cases t k :
  Z.of_nat (length (Locked.buckets t)) = Locked.num_buckets t ->
  Locked.lookup t k =
  if k =? INVALID_KEY then Ok INVALID_VALUE
  else if (Locked.num_buckets t =? 0) || (Locked.num_locks t =? 0)
       then Fault DivisionByZero
       else Ok (find_in (Locked.buckets t) (Locked.num_buckets t) k).
Proof.
  intros Hlen. unfold Locked.lookup, Locked.get_lock_idx.
  destruct (k =? INVALID_KEY); [reflexivity|].
  destruct (Z.eqb_spec (Locked.num_buckets t) 0) as [E|E]; [rewrite E; reflexivity|].
  rewrite hash1_slot by lia. simpl.
  destruct (Locked.num_locks t =? 0); [reflexivity|]. simpl.
  pose proof (slot_range (Locked.num_buckets t) k ltac:(lia)).
  rewrite read_bucket_in_range by lia. reflexivity.
Qed.

Lemma locked_insert_cases g t k v :
  Z.of_nat (length (Locked.buckets t)) = Locked.num_buckets t ->
  (k = INVALID_KEY \/ v = INVALID_VALUE -> Locked.insert g t k v = Ok (g, t))
  /\ (k <> INVALID_KEY -> v <> INVALID_VALUE ->
      if (Locked.num_buckets t =? 0) || (Locked.num_locks t =? 0)
      then Locked.insert g t k v = Fault DivisionByZero
      else exists r, Locked.insert g t k v = Ok r).
Proof.
  intros Hlen. split; [apply locked_insert_sentinel|]. intros Hk Hv.
  destruct (Z.eqb_spec (Locked.num_buckets t) 0) as [E|E]; simpl.
  - unfold Locked.insert, Locked.insert_section. rewrite E.
    destruct (Z.eqb_spec k INVALID_KEY); [contradiction|].
    destruct (Z.eqb_spec v INVALID_VALUE); [contradiction|]. reflexivity.
  - destruct (Z.eqb_spec (Locked.num_locks t) 0) as [L|L].
    + unfold Locked.insert, Locked.insert_section, Locked.get_lock_idx.
      destruct (Z.eqb_spec k INVALID_KEY); [contradiction|].
      destruct (Z.eqb_spec v INVALID_VALUE); [contradiction|].
      rewrite hash1_slot by lia. simpl. rewrite L. reflexivity.
    + unfold Locked.insert, Locked.insert_section, Locked.get_lock_idx.
      destruct (Z.eqb_spec k INVALID_KEY); [contradiction|].
      destruct (Z.eqb_spec v INVALID_VALUE); [contradiction|].
      rewrite hash1_slot by lia. simpl.
      destruct (Z.eqb_spec (Locked.num_locks t) 0); [contradiction|]. simpl.
      pose proof (slot_range (Locked.num_buckets t) k ltac:(lia)).
      rewrite read_bucket_in_range by lia. simpl.
      destruct (insert_scan _ _ _ _) as [[[] d] c']; simpl; eauto.
Qed.

Lemma lockfree_lookup_cases t k :
  Z.of_nat (length (LockFree.buckets t)) = LockFree.num_buckets t ->
  LockFree.lookup t k =
  if k =? INVALID_KEY then Ok INVALID_VALUE
  else if LockFree.num_buckets t =? 0 then Fault DivisionByZero
       else Ok (find_in (LockFree.buckets t) (LockFree.num_buckets t) k).
Proof.
  intros Hlen. unfold LockFree.lookup.
  destruct (k =? INVALID_KEY); [reflexivity|].
  destruct (Z.eqb_spec (LockFree.num_buckets t) 0) as [E|E]; [rewrite E; reflexivity|].
  rewrite hash1_slot by lia. simpl.
  pose proof (slot_range (LockFree.num_buckets t) k ltac:(lia)).
  rewrite read_bucket_in_range by lia. reflexivity.
Qed.

Lemma lockfree_insert_cases g t k v :
  Z.of_nat (length (LockFree.buckets t)) = LockFree.num_buckets t ->
  (k = INVALID_KEY \/ v = INVALID_VALUE -> LockFree.insert g t k v = Ok (g, t))
  /\ (k <> INVALID_KEY -> v <> INVALID_VALUE ->
      if LockFree.num_buckets t =? 0
      then LockFree.insert g t k v = Fault DivisionByZero
      else exists r, LockFree.insert g t k v = Ok r).
Proof.
  intros Hlen. split; [apply lockfree_insert_sentinel|]. intros Hk Hv.
  destruct (Z.eqb_spec (LockFree.num_buckets t) 0) as [E|E]; simpl.
  - unfold LockFree.insert, LockFree.insert_section. rewrite E.
    destruct (Z.eqb_spec k INVALID_KEY); [contradiction|].
    destruct (Z.eqb_spec v INVALID_VALUE); [contradiction|]. reflexivity.
  - assert (Hs : lockfree_sized t) by (unfold lockfree_sized; lia).
    rewrite lockfree_insert_put by assumption. eauto.
Qed.

(** X3.  On a table whose bucket array has [num_buckets] cells, a lookup
    divides by zero exactly when its key is not [INVALID_KEY] and the table
    has no buckets or (striped variant) no locks, and so does an insert with
    non-sentinel arguments; neither ever reads outside the bucket array.
    Both variants. *)
Theorem faults_exactly_without_buckets_or_locks (g : Globals) (k v : Z)
    (t : Locked.ChainedHashTable) (u : LockFree.ChainedHashTable) :
  Z.of_nat (length (Locked.buckets t)) = Locked.num_buckets t ->
  Z.of_nat (length (LockFree.buckets u)) = LockFree.num_buckets u ->
  (Locked.lookup t k = Fault DivisionByZero <->
   k <> INVALID_KEY /\ (Locked.num_buckets t = 0 \/ Locked.num_locks t = 0))
  /\ (Locked.insert g t k v = Fault DivisionByZero <->
      k <> INVALID_KEY /\ v <> INVALID_VALUE
      /\ (Locked.num_buckets t = 0 \/ Locked.num_locks t = 0))
  /\ Locked.lookup t k <> Fault OutOfBounds
  /\ Locked.insert g t k v <> Fault OutOfBounds
  /\ (LockFree.lookup u k = Fault DivisionByZero <->
      k <> INVALID_KEY /\ LockFree.num_buckets u = 0)
  /\ (LockFree.insert g u k v = Fault DivisionByZero <->
      k <> INVALID_KEY /\ v <> INVALID_VALUE /\ LockFree.num_buckets u = 0)
  /\ LockFree.lookup u k <> Fault OutOfBounds
  /\ LockFree.insert g u k v <> Fault OutOfBounds.
Proof.
  intros Ht Hu.
  destruct (locked_insert_cases g t k v Ht) as [Hsent Hval].
  destruct (lockfree_insert_cases g u k v Hu) as [Hsentu Hvalu].
  rewrite (locked_lookup_cases t k Ht), (lockfree_lookup_cases u k Hu).
  assert (Hins : (Locked.insert g t k v = Fault DivisionByZero <->
                  k <> INVALID_KEY /\ v <> INVALID_VALUE
                  /\ (Locked.num_buckets t = 0 \/ Locked.num_locks t = 0))
                 /\ Locked.insert g t k v <> Fault OutOfBounds).
  { destruct (Z.eq_dec k INVALID_KEY) as [Ek|Ek];
      [|destruct (Z.eq_dec v INVALID_VALUE) as [Ev|Ev]].
    - rewrite Hsent by auto. split; [|discriminate].
      split; [discriminate | tauto].
    - rewrite Hsent by auto. split; [|discriminate].
      split; [discriminate | tauto].
    - specialize (Hval Ek Ev).
      destruct (Z.eqb_spec (Locked.num_buckets t) 0) as [E|E];
        [|destruct (Z.eqb_spec (Locked.num_locks t) 0) as [L|L]]; simpl in Hval.
      + rewrite Hval. split; [tauto | discriminate].
      + rewrite Hval. split; [tauto | discriminate].
      + destruct Hval as [r ->]. split; [|discriminate].
        split; [discriminate | tauto]. }
  assert (Hinsu : (LockFree.insert g u k v = Fault DivisionByZero <->
                   k <> INVALID_KEY /\ v <> INVALID_VALUE
                   /\ LockFree.num_buckets u = 0)
                  /\ LockFree.insert g u k v <> Fault OutOfBounds).
  { destruct (Z.eq_dec k INVALID_KEY) as [Ek|Ek];
      [|destruct (Z.eq_dec v INVALID_VALUE) as [Ev|Ev]].
    - rewrite Hsentu by auto. split; [|discriminate].
      split; [discriminate | tauto].
    - rewrite Hsentu by auto. split; [|discriminate].
      split; [discriminate | tauto].
    - specialize (Hvalu Ek Ev).
      destruct (Z.eqb_spec (LockFree.num_buckets u) 0) as [E|E].
      + rewrite Hvalu. split; [tauto | discriminate].
      + destruct Hvalu as [r ->]. split; [|discriminate].
        split; [discriminate | tauto]. }
  destruct Hins as [Hi1 Hi2]. destruct Hinsu as [Hu1 Hu2].
  split; [|split; [exact Hi1|split; [|split; [exact Hi2|split;
           [|split; [exact Hu1|split; [|exact Hu2]]]]]]].
  - destruct (Z.eqb_spec k INVALID_KEY) as [Ek|Ek].
    { split; [discriminate | tauto]. }
    destruct (Z.eqb_spec (Locked.num_buckets t) 0) as [E|E];
      [|destruct (Z.eqb_spec (Locked.num_locks t) 0) as [L|L]]; simpl.
    + tauto.
    + tauto.
    + split; [discriminate | tauto].
  - destruct (k =? INVALID_KEY); [discriminate|].
    destruct (_ || _); discriminate.
  - destruct (Z.eqb_spec k INVALID_KEY) as [Ek|Ek].
    { split; [discriminate | tauto]. }
    destruct (Z.eqb_spec (LockFree.num_buckets u) 0) as [E|E].
    + tauto.
    + split; [discriminate | tauto].
  - destruct (k =? INVALID_KEY); [discriminate|].
    destruct (Z.eqb_spec (LockFree.num_buckets u) 0); discriminate.
Qed.

Lemma faults_exactly_without_buckets_or_locks_witness :
  Locked.lookup (Locked.create_table 0 1) 3 = Fault DivisionByZero
  /\ Locked.lookup (Locked.create_table 5 0) 3 = Fault DivisionByZero
  /\ LockFree.insert initial_globals (LockFree.create_table 0 1) 3 30
     = Fault DivisionByZero.
Proof.
  assert (Hk : 3 <> INVALID_KEY) by (unfold INVALID_KEY, UINT64_MAX; lia).
  assert (Hv : 30 <> INVALID_VALUE) by (unfold INVALID_VALUE, UINT64_MAX; lia).
  destruct (faults_exactly_without_buckets_or_locks initial_globals 3 30
              (Locked.create_table 0 1) (LockFree.create_table 0 1)
              eq_refl eq_refl) as (Hl0 & _ & _ & _ & _ & Hi0 & _).
  destruct (faults_exactly_without_buckets_or_locks initial_globals 3 30
              (Locked.create_table 5 0) (LockFree.create_table 0 1)
              eq_refl eq_refl) as (Hl5 & _).
  split; [|split].
  - apply Hl0. split; [exact Hk | left; reflexivity].
  - apply Hl5. split; [exact Hk | right; reflexivity].
  - apply Hi0. split; [exact Hk | split; [exact Hv | reflexivity]].
Defined.

(** ** The sentinel value tells absent from present *)

Lemma latest_invalid_iff k ops : forall d,
  Forall valid_op ops ->
  (latest k ops d = INVALID_VALUE <->
   d = INVALID_VALUE /\ inserted k ops = false).
Proof.
  induction ops as [|[k' v] ops IH]; intros d Hops; simpl.
  - tauto.
  - inversion Hops as [|? ? [Hk Hv] Hrest]; subst. simpl in Hk, Hv.
    rewrite (IH _ Hrest). unfold inserted. simpl.
    destruct (Z.eqb_spec k' k) as [E|E]; simpl.
    + split; [intros [H _]; contradiction | intros [_ H]; discriminate].
    + reflexivity.
Qed.

(** X4.  After a history of inserts (non-sentinel arguments) and resizes on
    a fresh table, a lookup returns [INVALID_VALUE] if and only if the key
    was never inserted: a stored value is never mistaken for a miss, and a
    miss never returns a stored value.  Both variants. *)
Theorem lookup_misses_iff_never_inserted (nb nl : Z) (g : Globals)
    (ops : list table_op) (k : Z) :
  1 <= nb -> 1 <= nl ->
  nb * 2 ^ Z.of_nat (resizes_of ops) <= SIZE_MAX ->
  nl * 2 ^ Z.of_nat (resizes_of ops) <= SIZE_MAX ->
  Forall valid_op (inserts_of ops) ->
  (exists g' t',
      Locked.run_ops g (Locked.create_table nb nl) ops = Ok (g', t')
      /\ (Locked.lookup t' k = Ok INVALID_VALUE <->
          inserted k (inserts_of ops) = false))
  /\ (exists g' u',
      LockFree.run_ops g (LockFree.create_table nb nl) ops = Ok (g', u')
      /\ (LockFree.lookup u' k = Ok INVALID_VALUE <->
          inserted k (inserts_of ops) = false)).
Proof.
  intros Hnb Hnl Hfb Hfl Hops.
  assert (Hiff : forall r : Z,
            r = (if k =? INVALID_KEY then INVALID_VALUE
                 else latest k (inserts_of ops) INVALID_VALUE) ->
            (Ok r = Ok INVALID_VALUE <-> inserted k (inserts_of ops) = false)).
  { intros r ->. destruct (Z.eqb_spec k INVALID_KEY) as [->|Hk].
    - split; [intros _|reflexivity].
      pose proof (latest_invalid_iff INVALID_KEY (inserts_of ops) INVALID_VALUE Hops) as H.
      apply H. apply latest_sentinel. exact Hops.
    - pose proof (latest_invalid_iff k (inserts_of ops) INVALID_VALUE Hops) as H.
      split.
      + intros [= E]. apply H in E. tauto.
      + intros E. f_equal. apply H. auto. }
  split.
  - destruct (locked_run_ops_find ops g (Locked.create_table nb nl))
      as (g' & t' & Hrun & Hs & Hfind); simpl; try assumption.
    { apply buckets_ok_calloc. assumption. }
    exists g', t'. split; [exact Hrun|].
    rewrite locked_lookup_find by assumption. apply Hiff.
    rewrite Hfind. simpl. rewrite find_in_calloc. reflexivity.
  - destruct (lockfree_run_ops_find ops g (LockFree.create_table nb nl))
      as (g' & t' & Hrun & Hs & Hfind); simpl; try assumption.
    { apply buckets_ok_calloc. assumption. }
    exists g', t'. split; [exact Hrun|].
    rewrite lockfree_lookup_find by assumption. apply Hiff.
    rewrite Hfind. simpl. rewrite find_in_calloc. reflexivity.
Qed.

Lemma lookup_misses_iff_never_inserted_witness :
  (exists g' t',
      Locked.run_ops initial_globals (Locked.create_table 2 1)
        [OpInsert 7 1; OpResize; OpInsert 9 2] = Ok (g', t')
      /\ Locked.lookup t' 5 = Ok INVALID_VALUE)
  /\ (exists g' u',
      LockFree.run_ops initial_globals (LockFree.create_table 2 1)
        [OpInsert 7 1; OpResize; OpInsert 9 2] = Ok (g', u')
      /\ LockFree.lookup u' 5 = Ok INVALID_VALUE).
Proof.
  assert (H1 : 1 <= 2) by lia.
  assert (H2 : 1 <= 1) by lia.
  assert (H3 : 2 * 2 ^ Z.of_nat (resizes_of [OpInsert 7 1; OpResize; OpInsert 9 2])
               <= SIZE_MAX) by (unfold SIZE_MAX; simpl; lia).
  assert (H4 : 1 * 2 ^ Z.of_nat (resizes_of [OpInsert 7 1; OpResize; OpInsert 9 2])
               <= SIZE_MAX) by (unfold SIZE_MAX; simpl; lia).
  assert (H5 : Forall valid_op (inserts_of [OpInsert 7 1; OpResize; OpInsert 9 2])).
  { repeat constructor; simpl; unfold INVALID_KEY, INVALID_VALUE, UINT64_MAX; lia. }
  destruct (lookup_misses_iff_never_inserted 2 1 initial_globals
              [OpInsert 7 1; OpResize; OpInsert 9 2] 5 H1 H2 H3 H4 H5)
    as [(g' & t' & Hr & Hiff) (g2 & u' & Hr2 & Hiff2)].
  split.
  - exists g', t'. split; [exact Hr | apply Hiff; reflexivity].
  - exists g2, u'. split; [exact Hr2 | apply Hiff2; reflexivity].
Defined.

(** ** Invariants of the tables the code builds *)

(** X5.  Every table made by [create_table] (at least one bucket and, in the
    striped variant, one lock) and changed by any number of inserts and of
    resizes within [size_t] has at least one bucket, a bucket array of
    [num_buckets] cells, no key twice in a chain (I1) and every node in the
    bucket its key hashes to (I2); the striped table keeps at least one
    lock.  Both variants. *)
Theorem built_tables_keep_invariants
    (t : Locked.ChainedHashTable) (u : LockFree.ChainedHashTable) :
  locked_built t -> lockfree_built u ->
  (buckets_ok (Locked.num_buckets t) (Locked.buckets t) = true
   /\ 1 <= Locked.num_locks t
   /\ forall k, exists v, Locked.lookup t k = Ok v)
  /\ (buckets_ok (LockFree.num_buckets u) (LockFree.buckets u) = true
      /\ forall k, exists v, LockFree.lookup u k = Ok v).
Proof.
  intros Ht Hu.
  destruct (locked_built_ok t Ht) as [Hok Hnl].
  pose proof (lockfree_built_ok u Hu) as Hoku.
  destruct (buckets_ok_sized _ _ Hok) as [Hnb Hlen].
  destruct (buckets_ok_sized _ _ Hoku) as [Hnbu Hlenu].
  split; [split; [exact Hok | split; [exact Hnl|]] | split; [exact Hoku|]].
  - intros k. eexists. apply locked_lookup_find. unfold locked_sized. auto.
  - intros k. eexists. apply lockfree_lookup_find. unfold lockfree_sized. auto.
Qed.

Lemma built_tables_keep_invariants_witness :
  buckets_ok (Locked.num_buckets locked_with_seven)
             (Locked.buckets locked_with_seven) = true
  /\ buckets_ok (LockFree.num_buckets lockfree_with_seven)
                (LockFree.buckets lockfree_with_seven) = true.
Proof.
  assert (Ht : locked_built locked_with_seven).
  { apply (locked_built_insert initial_globals (Locked.create_table 4 1) 7 1
             initial_globals locked_with_seven).
    - apply locked_built_create; lia.
    - reflexivity. }
  assert (Hu : lockfree_built lockfree_with_seven).
  { apply (lockfree_built_insert initial_globals (LockFree.create_table 4 1) 7 1
             initial_globals lockfree_with_seven).
    - apply lockfree_built_create; lia.
    - reflexivity. }
  destruct (built_tables_keep_invariants locked_with_seven lockfree_with_seven Ht Hu)
    as [(H1 & _) (H2 & _)].
  split; assumption.
Defined.

(** ** Histories of inserts and resizes: a concrete run *)

Lemma lookup_after_history_latest_witness :
  (exists g' t',
      Locked.run_ops initial_globals (Locked.create_table 2 1)
        [OpInsert 7 1; OpResize; OpInsert 7 5; OpResize] = Ok (g', t')
      /\ Locked.lookup t' 7 = Ok 5)
  /\ (exists g' u',
      LockFree.run_ops initial_globals (LockFree.create_table 2 1)
        [OpInsert 7 1; OpResize; OpInsert 7 5; OpResize] = Ok (g', u')
      /\ LockFree.lookup u' 7 = Ok 5).
Proof.
  apply (lookup_after_history_latest 2 1 initial_globals
           [OpInsert 7 1; OpResize; OpInsert 7 5; OpResize] 7).
  - lia.
  - lia.
  - unfold SIZE_MAX; simpl; lia.
  - unfold SIZE_MAX; simpl; lia.
  - repeat constructor; simpl; unfold INVALID_KEY, INVALID_VALUE, UINT64_MAX; lia.
Defined.

(** ** The order of arrival in the rehash *)

(** X7.  The new table that [resize] fills gives the lookups of the old one
    whatever the order in which the [resize_insert] calls for the old nodes
    reach it (the threads of the [omp for] interleave them): running them
    in any arrangement of the nodes of a table that satisfies I1, I2 and I5
    returns a table on which every lookup is that of the old table.  Both
    variants. *)
Theorem rehash_order_is_irrelevant (k : Z) (items items' : list Item)
    (t : Locked.ChainedHashTable) (u : LockFree.ChainedHashTable) :
  buckets_ok (Locked.num_buckets t) (Locked.buckets t) = true ->
  1 <= Locked.num_locks t ->
  Permutation items (all_items (Locked.buckets t)) ->
  buckets_ok (LockFree.num_buckets u) (LockFree.buckets u) = true ->
  Permutation items' (all_items (LockFree.buckets u)) ->
  (exists t',
      Locked.rehash_chain
        (Locked.set_num_items
           (Locked.create_table (2 * Locked.num_buckets t) (2 * Locked.num_locks t))
           (Locked.num_items t))
        items = Ok t'
      /\ Locked.lookup t' k = Locked.lookup t k)
  /\ (exists u',
      LockFree.rehash_chain
        (LockFree.set_num_items
           (LockFree.create_table (2 * LockFree.num_buckets u) 1)
           (LockFree.num_items u))
        items' = Ok u'
      /\ LockFree.lookup u' k = LockFree.lookup u k).
Proof.
  intros Hok Hnl Hp Hoku Hpu. split.
  - apply locked_rehash_any_order; assumption.
  - apply lockfree_rehash_any_order; assumption.
Qed.

Lemma rehash_order_is_irrelevant_witness :
  (exists t',
      Locked.rehash_chain
        (Locked.set_num_items (Locked.create_table 4 2) 8)
        (rev chain_of_eight) = Ok t'
      /\ Locked.lookup t' 6 = Ok 3)
  /\ (exists u',
      LockFree.rehash_chain
        (LockFree.set_num_items (LockFree.create_table 4 1) 8)
        (rev chain_of_eight) = Ok u'
      /\ LockFree.lookup u' 6 = Ok 3).
Proof.
  assert (Hp : Permutation (rev chain_of_eight)
                 (all_items (Locked.buckets locked_example))).
  { symmetry. apply Permutation_rev. }
  assert (H1 : 1 <= Locked.num_locks locked_example) by (simpl; lia).
  exact (rehash_order_is_irrelevant 6 (rev chain_of_eight) (rev chain_of_eight)
           locked_example lockfree_example eq_refl H1 Hp eq_refl Hp).
Defined.

(** ** The nodes of a table through insert and resize *)

Lemma all_items_app bs1 bs2 : all_items (bs1 ++ bs2) = all_items bs1 ++ all_items bs2.
Proof. unfold all_items. rewrite map_app, concat_app. reflexivity. Qed.

Lemma all_items_write_head bs i h :
  0 <= i < Z.of_nat (length bs) ->
  Permutation (all_items (write_head bs i h) ++ chain_at bs i) (h ++ all_items bs).
Proof.
  intros Hi. unfold write_head, chain_at.
  destruct (bs !! Z.to_nat i) as [b|] eqn:Eb;
    [|apply lookup_ge_None in Eb; lia].
  rewrite insert_take_drop by lia.
  rewrite <- (take_drop_middle bs (Z.to_nat i) b Eb) at 3.
  rewrite !all_items_app.
  change (all_items (mkBucket h :: drop (S (Z.to_nat i)) bs))
    with (h ++ all_items (drop (S (Z.to_nat i)) bs)).
  change (all_items (b :: drop (S (Z.to_nat i)) bs))
    with (head b ++ all_items (drop (S (Z.to_nat i)) bs)).
  set (A1 := all_items (take (Z.to_nat i) bs)).
  set (A2 := all_items (drop (S (Z.to_nat i)) bs)).
  rewrite <- !app_assoc.
  rewrite (Permutation_app_comm A2 (head b)).
  rewrite !app_assoc. apply Permutation_app_tail. apply Permutation_app_tail.
  apply Permutation_app_comm.
Qed.

Lemma all_items_prepend nb bs it :
  0 < nb -> Z.of_nat (length bs) = nb ->
  Permutation (all_items (prepend nb bs it)) (it :: all_items bs).
Proof.
  intros Hnb Hlen. pose proof (slot_range nb (key it) Hnb) as Hs.
  unfold prepend.
  apply (Permutation_app_inv_r (chain_at bs (slot nb (key it)))).
  rewrite all_items_write_head by lia.
  destruct it as [k v]. simpl.
  apply Permutation_cons; [reflexivity|]. apply Permutation_app_comm.
Qed.

Lemma all_items_fold_prepend nb items : forall bs,
  0 < nb -> Z.of_nat (length bs) = nb ->
  Permutation (all_items (fold_left (prepend nb) items bs)) (items ++ all_items bs).
Proof.
  induction items as [|it items IH]; intros bs Hnb Hlen; simpl; [reflexivity|].
  rewrite IH by (rewrite ?length_prepend; assumption).
  rewrite all_items_prepend by assumption.
  symmetry. apply Permutation_middle.
Qed.

Lemma all_items_calloc nb : all_items (calloc_buckets nb) = [].
Proof.
  unfold calloc_buckets, all_items.
  induction (Z.to_nat nb) as [|n IH]; simpl; auto.
Qed.

(** X8.  On every sized table whose sizes can be doubled within [size_t],
    also one with a key twice in a chain or a node in a foreign bucket, the
    table that [resize] returns holds exactly the nodes of the old table,
    each as often as before: no binding is dropped, duplicated or changed.
    Both variants. *)
Theorem resize_keeps_the_nodes (g : Globals)
    (t : Locked.ChainedHashTable) (u : LockFree.ChainedHashTable) :
  locked_sized t -> lockfree_sized u ->
  2 * Locked.num_buckets t <= SIZE_MAX ->
  2 * Locked.num_locks t <= SIZE_MAX ->
  2 * LockFree.num_buckets u <= SIZE_MAX ->
  (exists g' t',
      Locked.resize g t = Ok (g', t')
      /\ Permutation (all_items (Locked.buckets t')) (all_items (Locked.buckets t))
      /\ node_count (Locked.buckets t') = node_count (Locked.buckets t))
  /\ (exists g' u',
      LockFree.resize g u = Ok (g', u')
      /\ Permutation (all_items (LockFree.buckets u')) (all_items (LockFree.buckets u))
      /\ node_count (LockFree.buckets u') = node_count (LockFree.buckets u)).
Proof.
  intros Ht Hu Hfb Hfl Hfu. split.
  - eexists _, _. split; [apply locked_resize_result; assumption|]. simpl.
    destruct Ht as (Hnb & _ & _).
    assert (Hp : Permutation
                   (all_items (fold_left (prepend (2 * Locked.num_buckets t))
                                 (all_items (Locked.buckets t))
                                 (calloc_buckets (2 * Locked.num_buckets t))))
                   (all_items (Locked.buckets t))).
    { rewrite all_items_fold_prepend by (try apply length_calloc; lia).
      rewrite all_items_calloc, app_nil_r. reflexivity. }
    split; [exact Hp|]. unfold node_count.
    rewrite (Permutation_length Hp). reflexivity.
  - eexists _, _. split; [apply lockfree_resize_result; assumption|]. simpl.
    destruct Hu as (Hnb & _).
    assert (Hp : Permutation
                   (all_items (fold_left (prepend (2 * LockFree.num_buckets u))
                                 (all_items (LockFree.buckets u))
                                 (calloc_buckets (2 * LockFree.num_buckets u))))
                   (all_items (LockFree.buckets u))).
    { rewrite all_items_fold_prepend by (try apply length_calloc; lia).
      rewrite all_items_calloc, app_nil_r. reflexivity. }
    split; [exact Hp|]. unfold node_count.
    rewrite (Permutation_length Hp). reflexivity.
Qed.

Lemma resize_keeps_the_nodes_witness :
  (exists g' t',
      Locked.resize initial_globals locked_duplicate = Ok (g', t')
      /\ node_count (Locked.buckets t') = 2)
  /\ (exists g' u',
      LockFree.resize initial_globals lockfree_example = Ok (g', u')
      /\ node_count (LockFree.buckets u') = 8).
Proof.
  assert (Ht : locked_sized locked_duplicate) by (repeat split; simpl; lia).
  assert (Hu : lockfree_sized lockfree_example) by (repeat split; simpl; lia).
  assert (H1 : 2 * Locked.num_buckets locked_duplicate <= SIZE_MAX)
    by (unfold SIZE_MAX; simpl; lia).
  assert (H2 : 2 * Locked.num_locks locked_duplicate <= SIZE_MAX)
    by (unfold SIZE_MAX; simpl; lia).
  assert (H3 : 2 * LockFree.num_buckets lockfree_example <= SIZE_MAX)
    by (unfold SIZE_MAX; simpl; lia).
  destruct (resize_keeps_the_nodes initial_globals locked_duplicate
              lockfree_example Ht Hu H1 H2 H3)
    as [(g' & t' & Hr & _ & Hn) (g2 & u' & Hr2 & _ & Hn2)].
  split.
  - exists g', t'. split; [exact Hr | rewrite Hn; reflexivity].
  - exists g2, u'. split; [exact Hr2 | rewrite Hn2; reflexivity].
Defined.

(** ** Where resize puts the nodes of a chain *)

Lemma slot_double nb k : 0 < nb -> slot (2 * nb) k mod nb = slot nb k.
Proof.
  intros Hnb. unfold slot. apply Z.mod_mod_divide.
  exists 2. reflexivity.
Qed.

Lemma filter_none {A} (p : A -> bool) (l : list A) :
  (forall x, In x l -> p x = false) -> List.filter p l = [].
Proof.
  induction l as [|x l IH]; intros H; simpl; [reflexivity|].
  rewrite (H x (or_introl eq_refl)). apply IH. intros y Hy. apply H. right. exact Hy.
Qed.

Lemma filter_foreign_bucket nb (p : Item -> bool) m j c :
  forallb (fun it => slot nb (key it) =? j) c = true ->
  (forall it, p it = true -> slot nb (key it) = m) ->
  m <> j -> List.filter p c = [].
Proof.
  intros Hc Hp Hne. apply filter_none. intros it Hin.
  rewrite forallb_forall in Hc. specialize (Hc it Hin). apply Z.eqb_eq in Hc.
  destruct (p it) eqn:E; [|reflexivity]. apply Hp in E. congruence.
Qed.

(** The nodes that pass a filter on one bucket of the old table come from
    that bucket alone. *)
Lemma filter_all_items nb (p : Item -> bool) m bs : forall j,
  placed nb j bs = true ->
  (forall it, p it = true -> slot nb (key it) = m) ->
  (m < j -> List.filter p (all_items bs) = [])
  /\ (j <= m -> List.filter p (all_items bs) = List.filter p (chain_at bs (m - j))).
Proof.
  induction bs as [|b bs IH]; intros j Hpl Hp.
  - split; [reflexivity|]. intros _. unfold chain_at. rewrite lookup_nil. reflexivity.
  - simpl in Hpl. apply andb_true_iff in Hpl as [Hb Hpl].
    destruct (IH (j + 1) Hpl Hp) as [IHlt IHge].
    unfold all_items in *. simpl. rewrite List.filter_app. split.
    + intros Hlt. rewrite (filter_foreign_bucket nb p m j (head b)) by (assumption || lia).
      apply IHlt. lia.
    + intros Hge. destruct (Z.eq_dec m j) as [E|E].
      * rewrite IHlt by lia. rewrite app_nil_r.
        replace (m - j) with 0 by lia. reflexivity.
      * rewrite (filter_foreign_bucket nb p m j (head b)) by (assumption || lia).
        rewrite IHge by lia. simpl. unfold chain_at.
        replace (Z.to_nat (m - j)) with (S (Z.to_nat (m - (j + 1)))) by lia.
        reflexivity.
Qed.

Lemma length_filter_le {A} (p : A -> bool) (l : list A) :
  (length (List.filter p l) <= length l)%nat.
Proof.
  induction l as [|x l IH]; simpl; [lia|]. destruct (p x); simpl; lia.
Qed.

(** The chains of the array that the rehash builds from an array with I2. *)
Lemma rehash_chain_structure nb bs i :
  buckets_ok nb bs = true -> 0 <= i < 2 * nb ->
  chain_at (fold_left (prepend (2 * nb)) (all_items bs) (calloc_buckets (2 * nb))) i
  = rev (List.filter (fun it => slot (2 * nb) (key it) =? i) (chain_at bs (i mod nb))).
Proof.
  intros Hok Hi. destruct (buckets_ok_sized _ _ Hok) as [Hnb Hlen].
  unfold buckets_ok in Hok. apply andb_true_iff in Hok as [_ Hpl].
  rewrite chain_at_fold_prepend by (try apply length_calloc; lia).
  rewrite chain_at_calloc, app_nil_r. f_equal.
  pose proof (Z.mod_pos_bound i nb ltac:(lia)) as Hm.
  destruct (filter_all_items nb (fun it => slot (2 * nb) (key it) =? i)
              (i mod nb) bs 0 Hpl) as [_ H].
  - intros it E. apply Z.eqb_eq in E. rewrite <- E. symmetry.
    apply slot_double. lia.
  - rewrite H by lia. replace (i mod nb - 0) with (i mod nb) by lia. reflexivity.
Qed.

(** X9.  On a table that satisfies I2 and I5 (with at least one lock and
    sizes that double within [size_t]), [resize] splits every chain between
    two buckets: bucket [i] of the new table holds, in reverse order, the
    nodes of the old bucket [i mod num_buckets] whose key hashes to [i], and
    nothing else; so no chain of the new table is longer than the chain it
    comes from.  Both variants. *)
Theorem resize_splits_chains (g : Globals) (i : Z)
    (t : Locked.ChainedHashTable) (u : LockFree.ChainedHashTable) :
  buckets_ok (Locked.num_buckets t) (Locked.buckets t) = true ->
  1 <= Locked.num_locks t ->
  2 * Locked.num_buckets t <= SIZE_MAX ->
  2 * Locked.num_locks t <= SIZE_MAX ->
  buckets_ok (LockFree.num_buckets u) (LockFree.buckets u) = true ->
  2 * LockFree.num_buckets u <= SIZE_MAX ->
  (exists g' t',
      Locked.resize g t = Ok (g', t')
      /\ (0 <= i < 2 * Locked.num_buckets t ->
          chain_at (Locked.buckets t') i
          = rev (List.filter
                   (fun it => slot (2 * Locked.num_buckets t) (key it) =? i)
                   (chain_at (Locked.buckets t) (i mod Locked.num_buckets t)))
          /\ (length (chain_at (Locked.buckets t') i)
              <= length (chain_at (Locked.buckets t) (i mod Locked.num_buckets t)))%nat))
  /\ (exists g' u',
      LockFree.resize g u = Ok (g', u')
      /\ (0 <= i < 2 * LockFree.num_buckets u ->
          chain_at (LockFree.buckets u') i
          = rev (List.filter
                   (fun it => slot (2 * LockFree.num_buckets u) (key it) =? i)
                   (chain_at (LockFree.buckets u) (i mod LockFree.num_buckets u)))
          /\ (length (chain_at (LockFree.buckets u') i)
              <= length (chain_at (LockFree.buckets u) (i mod LockFree.num_buckets u)))%nat)).
Proof.
  intros Hok Hnl Hfb Hfl Hoku Hfu.
  destruct (buckets_ok_sized _ _ Hok) as [Hnb Hlen].
  destruct (buckets_ok_sized _ _ Hoku) as [Hnbu Hlenu].
  split.
  - eexists _, _.
    split; [apply locked_resize_result; [unfold locked_sized; auto | assumption..]|].
    simpl. intros Hi. rewrite rehash_chain_structure by assumption.
    split; [reflexivity|]. rewrite length_rev. apply length_filter_le.
  - eexists _, _.
    split; [apply lockfree_resize_result; [unfold lockfree_sized; auto | assumption]|].
    simpl. intros Hi. rewrite rehash_chain_structure by assumption.
    split; [reflexivity|]. rewrite length_rev. apply length_filter_le.
Qed.

Lemma resize_splits_chains_witness :
  (exists g' t',
      Locked.resize initial_globals locked_example = Ok (g', t')
      /\ chain_at (Locked.buckets t') 3
         = [mkItem 2 1; mkItem 6 3; mkItem 10 5; mkItem 14 7])
  /\ (exists g' u',
      LockFree.resize initial_globals lockfree_example = Ok (g', u')
      /\ chain_at (LockFree.buckets u') 3
         = [mkItem 2 1; mkItem 6 3; mkItem 10 5; mkItem 14 7]).
Proof.
  assert (H1 : 2 * Locked.num_buckets locked_example <= SIZE_MAX)
    by (unfold SIZE_MAX; simpl; lia).
  assert (H2 : 2 * Locked.num_locks locked_example <= SIZE_MAX)
    by (unfold SIZE_MAX; simpl; lia).
  assert (H3 : 2 * LockFree.num_buckets lockfree_example <= SIZE_MAX)
    by (unfold SIZE_MAX; simpl; lia).
  assert (H4 : 1 <= Locked.num_locks locked_example) by (simpl; lia).
  assert (Hi : 0 <= 3 < 2 * 2) by lia.
  destruct (resize_splits_chains initial_globals 3
              locked_example lockfree_example eq_refl H4 H1 H2 eq_refl H3)
    as [(g' & t' & Hr & Hc) (g2 & u' & Hr2 & Hc2)].
  split.
  - exists g', t'. split; [exact Hr|]. destruct (Hc Hi) as [-> _]. reflexivity.
  - exists g2, u'. split; [exact Hr2|]. destruct (Hc2 Hi) as [-> _]. reflexivity.
Defined.

(** ** The item counter and the number of nodes *)

Lemma int_wrap_succ n : int_wrap (int_wrap n + 1) = int_wrap (n + 1).
Proof.
  unfold int_wrap.
  replace ((n + 2 ^ 31) mod 2 ^ 32 - 2 ^ 31 + 1 + 2 ^ 31)
    with ((n + 2 ^ 31) mod 2 ^ 32 + 1) by lia.
  rewrite Z.add_mod_idemp_l by lia. f_equal. f_equal. lia.
Qed.

Lemma length_insert_scan k v c d : length (insert_scan k v c d).2 = length c.
Proof.
  rewrite <- (length_map key), insert_scan_keys, length_map. reflexivity.
Qed.

Lemma node_count_put bs nb k v :
  0 < nb -> Z.of_nat (length bs) = nb ->
  node_count (put bs nb k v)
  = node_count bs + (if has_key k (chain_at bs (slot nb k)) then 0 else 1).
Proof.
  intros Hnb Hlen. pose proof (slot_range nb k Hnb) as Hs.
  unfold put, node_count.
  pose proof (length_insert_scan k v (chain_at bs (slot nb k)) 0) as Hl.
  pose proof (insert_scan_succeeded k v (chain_at bs (slot nb k)) 0) as Hsucc.
  destruct (insert_scan k v (chain_at bs (slot nb k)) 0) as [[s d] c']; simpl in *.
  rewrite <- Hsucc.
  match goal with
  | |- context [write_head bs ?i ?h] =>
      pose proof (Permutation_length (all_items_write_head bs i h ltac:(lia))) as Hp
  end.
  rewrite !length_app in Hp. destruct s; simpl in Hp; lia.
Qed.

(** ** The resize trigger and the node that was added *)

Lemma put_chains bs nb k v :
  0 < nb -> Z.of_nat (length bs) = nb ->
  chain_at (put bs nb k v) (slot nb k)
  = (if has_key k (chain_at bs (slot nb k))
     then (insert_scan k v (chain_at bs (slot nb k)) 0).2
     else mkItem k v :: chain_at bs (slot nb k))
  /\ forall i, 0 <= i -> i <> slot nb k ->
               chain_at (put bs nb k v) i = chain_at bs i.
Proof.
  intros Hnb Hlen. pose proof (slot_range nb k Hnb) as Hs.
  unfold put.
  pose proof (insert_scan_succeeded k v (chain_at bs (slot nb k)) 0) as Hsucc.
  destruct (insert_scan k v (chain_at bs (slot nb k)) 0) as [[s d] c']; simpl in *.
  rewrite <- Hsucc. split.
  - rewrite chain_at_write_head_eq by lia. reflexivity.
  - intros i Hi Hne. apply chain_at_write_head_ne; lia.
Qed.

(** What an insert with non-sentinel arguments leaves in the table, given
    [added_node]: a new node at the head of the key's chain or the same
    nodes with the value written; the other chains as they were. *)
Lemma put_added bs nb k v (added : bool) :
  0 < nb -> Z.of_nat (length bs) = nb ->
  added = negb (has_key k (chain_at bs (slot nb k))) ->
  (added = true ->
   chain_at (put bs nb k v) (slot nb k) = mkItem k v :: chain_at bs (slot nb k))
  /\ (added = false ->
      map key (chain_at (put bs nb k v) (slot nb k))
      = map key (chain_at bs (slot nb k)))
  /\ find_in (put bs nb k v) nb k = v
  /\ (forall i, 0 <= i -> i <> slot nb k ->
                chain_at (put bs nb k v) i = chain_at bs i)
  /\ node_count (put bs nb k v) = node_count bs + (if added then 1 else 0).
Proof.
  intros Hnb Hlen ->.
  destruct (put_chains bs nb k v Hnb Hlen) as [Hc Hother].
  rewrite node_count_put by assumption.
  rewrite find_in_put, Z.eqb_refl by assumption.
  destruct (has_key k (chain_at bs (slot nb k))); simpl.
  - split; [discriminate|]. split; [|auto].
    intros _. rewrite Hc. apply insert_scan_keys.
  - split; [intros _; exact Hc|]. split; [discriminate | auto].
Qed.

Lemma trigger_by_node_count g (added : bool) d g' n n' :
  n' = n + (if added then 1 else 0) ->
  (resize_needed g = 0 ->
   (resize_needed g' = 1 <->
    added = true /\ resize_enabled g <> 0 /\ MAX_CHAIN_SIZE <= d)) ->
  resize_needed g = 0 ->
  (resize_needed g' = 1 <->
   n' = n + 1 /\ resize_enabled g <> 0 /\ MAX_CHAIN_SIZE <= d).
Proof.
  intros Hn Htrig H0. rewrite (Htrig H0).
  destruct added; split; intros (A & B & C); repeat split; auto; try lia;
    discriminate.
Qed.

(** C4.  For an insert with non-sentinel arguments on a sized table, let
    [added] and [depth] be the values of [added_node] and [depth] at the end
    of its critical section.  [added] is true exactly when the chain of the
    key's bucket had no node with that key, and then [depth] is the length of
    that chain (chains of at most [INT_MAX] nodes).  If [resize_needed] was
    0 before, it is 1 afterwards if and only if a node was added, resizing is
    enabled and [depth >= MAX_CHAIN_SIZE]; an insert that writes to an
    existing node, whatever the chain's length, and an insert that finds the
    flag already set leave the globals as they were.  The table returned is
    the one the critical section left, with the sizes it had: when [added]
    is true the chain of the key's bucket is the new node followed by the
    old chain, and the table has one node more; when it is false the chain
    has the nodes it had and the table has as many nodes as before; in both
    cases the key is found with the value, and the other chains are as they
    were.  So with [resize_needed] 0 before, it is 1 afterwards if and only
    if the table has gained a node, resizing is enabled and
    [depth >= MAX_CHAIN_SIZE].  Both variants. *)
Theorem resize_trigger_condition (g : Globals) (k v : Z)
    (t : Locked.ChainedHashTable) (u : LockFree.ChainedHashTable) :
  locked_sized t -> lockfree_sized u ->
  k <> INVALID_KEY -> v <> INVALID_VALUE ->
  (exists t1 added depth g' t',
      Locked.insert_section t k v = Ok (t1, added, depth)
      /\ Locked.insert g t k v = Ok (g', t')
      /\ added = negb (has_key k (chain_at (Locked.buckets t)
                                           (slot (Locked.num_buckets t) k)))
      /\ (added = true ->
          Z.of_nat (length (chain_at (Locked.buckets t)
                                     (slot (Locked.num_buckets t) k))) <= INT_MAX ->
          depth = Z.of_nat (length (chain_at (Locked.buckets t)
                                             (slot (Locked.num_buckets t) k))))
      /\ (resize_needed g = 0 ->
          (resize_needed g' = 1 <->
           added = true /\ resize_enabled g <> 0 /\ MAX_CHAIN_SIZE <= depth))
      /\ (added = false -> g' = g)
      /\ (resize_needed g <> 0 -> g' = g)
      /\ Locked.buckets t' = Locked.buckets t1
      /\ Locked.num_buckets t' = Locked.num_buckets t
      /\ Locked.num_locks t' = Locked.num_locks t
      /\ (added = true ->
          chain_at (Locked.buckets t') (slot (Locked.num_buckets t) k)
          = mkItem k v :: chain_at (Locked.buckets t) (slot (Locked.num_buckets t) k))
      /\ (added = false ->
          map key (chain_at (Locked.buckets t') (slot (Locked.num_buckets t) k))
          = map key (chain_at (Locked.buckets t) (slot (Locked.num_buckets t) k)))
      /\ find_in (Locked.buckets t') (Locked.num_buckets t) k = v
      /\ (forall i, 0 <= i -> i <> slot (Locked.num_buckets t) k ->
                    chain_at (Locked.buckets t') i = chain_at (Locked.buckets t) i)
      /\ node_count (Locked.buckets t')
         = node_count (Locked.buckets t) + (if added then 1 else 0)
      /\ (resize_needed g = 0 ->
          (resize_needed g' = 1 <->
           node_count (Locked.buckets t') = node_count (Locked.buckets t) + 1
           /\ resize_enabled g <> 0 /\ MAX_CHAIN_SIZE <= depth)))
  /\ (exists u1 added depth g' u',
      LockFree.insert_section u k v = Ok (u1, added, depth)
      /\ LockFree.insert g u k v = Ok (g', u')
      /\ added = negb (has_key k (chain_at (LockFree.buckets u)
                                           (slot (LockFree.num_buckets u) k)))
      /\ (added = true ->
          Z.of_nat (length (chain_at (LockFree.buckets u)
                                     (slot (LockFree.num_buckets u) k))) <= INT_MAX ->
          depth = Z.of_nat (length (chain_at (LockFree.buckets u)
                                             (slot (LockFree.num_buckets u) k))))
      /\ (resize_needed g = 0 ->
          (resize_needed g' = 1 <->
           added = true /\ resize_enabled g <> 0 /\ MAX_CHAIN_SIZE <= depth))
      /\ (added = false -> g' = g)
      /\ (resize_needed g <> 0 -> g' = g)
      /\ LockFree.buckets u' = LockFree.buckets u1
      /\ LockFree.num_buckets u' = LockFree.num_buckets u
      /\ (added = true ->
          chain_at (LockFree.buckets u') (slot (LockFree.num_buckets u) k)
          = mkItem k v
              :: chain_at (LockFree.buckets u) (slot (LockFree.num_buckets u) k))
      /\ (added = false ->
          map key (chain_at (LockFree.buckets u') (slot (LockFree.num_buckets u) k))
          = map key (chain_at (LockFree.buckets u) (slot (LockFree.num_buckets u) k)))
      /\ find_in (LockFree.buckets u') (LockFree.num_buckets u) k = v
      /\ (forall i, 0 <= i -> i <> slot (LockFree.num_buckets u) k ->
                    chain_at (LockFree.buckets u') i = chain_at (LockFree.buckets u) i)
      /\ node_count (LockFree.buckets u')
         = node_count (LockFree.buckets u) + (if added then 1 else 0)
      /\ (resize_needed g = 0 ->
          (resize_needed g' = 1 <->
           node_count (LockFree.buckets u') = node_count (LockFree.buckets u) + 1
           /\ resize_enabled g <> 0 /\ MAX_CHAIN_SIZE <= depth))).
Proof.
  intros Ht Hu Hk Hv. split.
  - set (c := chain_at (Locked.buckets t) (slot (Locked.num_buckets t) k)).
    set (added := negb (insert_scan k v c 0).1.1).
    set (depth := (insert_scan k v c 0).1.2).
    set (t1 := Locked.set_buckets t
                 (put (Locked.buckets t) (Locked.num_buckets t) k v)).
    exists t1, added, depth,
      (Locked.insert_epilogue g t1 added depth).1,
      (Locked.insert_epilogue g t1 added depth).2.
    destruct (locked_epilogue_shape g t1 added depth) as (Hb & Hnb & Hnl).
    destruct Ht as (H1 & H2 & H3).
    assert (Ha : added = negb (has_key k c))
      by (unfold added; rewrite insert_scan_succeeded; reflexivity).
    destruct (put_added (Locked.buckets t) (Locked.num_buckets t) k v added
                ltac:(lia) H2 Ha) as (P1 & P2 & P3 & P4 & P5).
    assert (Hglob := epilogue_globals_cases g added depth _
                       (locked_epilogue_globals g t1 added depth)).
    destruct Hglob as (G1 & G2 & G3).
    split; [apply locked_insert_section_put; unfold locked_sized; auto|].
    split; [rewrite locked_insert_put by (unfold locked_sized; auto);
            f_equal; apply surjective_pairing|].
    split; [exact Ha|].
    split.
    { intros Hadd Hlen. rewrite Ha in Hadd. apply negb_true_iff in Hadd.
      unfold depth. rewrite insert_scan_depth by (assumption || lia). lia. }
    split; [exact G1|]. split; [exact G2|]. split; [exact G3|].
    rewrite Hb, Hnb, Hnl. simpl Locked.buckets. simpl Locked.num_buckets.
    simpl Locked.num_locks.
    repeat (split; [first [reflexivity | assumption]|]).
    apply (trigger_by_node_count g added depth _ _ _ P5 G1).
  - set (c := chain_at (LockFree.buckets u) (slot (LockFree.num_buckets u) k)).
    set (added := negb (insert_scan k v c 0).1.1).
    set (depth := (insert_scan k v c 0).1.2).
    set (u1 := LockFree.set_buckets u
                 (put (LockFree.buckets u) (LockFree.num_buckets u) k v)).
    exists u1, added, depth,
      (LockFree.insert_epilogue g u1 added depth).1,
      (LockFree.insert_epilogue g u1 added depth).2.
    destruct (lockfree_epilogue_shape g u1 added depth) as (Hb & Hnb).
    destruct Hu as (H1 & H2).
    assert (Ha : added = negb (has_key k c))
      by (unfold added; rewrite insert_scan_succeeded; reflexivity).
    destruct (put_added (LockFree.buckets u) (LockFree.num_buckets u) k v added
                ltac:(lia) H2 Ha) as (P1 & P2 & P3 & P4 & P5).
    assert (Hglob := epilogue_globals_cases g added depth _
                       (lockfree_epilogue_globals g u1 added depth)).
    destruct Hglob as (G1 & G2 & G3).
    split; [apply lockfree_insert_section_put; unfold lockfree_sized; auto|].
    split; [rewrite lockfree_insert_put by (unfold lockfree_sized; auto);
            f_equal; apply surjective_pairing|].
    split; [exact Ha|].
    split.
    { intros Hadd Hlen. rewrite Ha in Hadd. apply negb_true_iff in Hadd.
      unfold depth. rewrite insert_scan_depth by (assumption || lia). lia. }
    split; [exact G1|]. split; [exact G2|]. split; [exact G3|].
    rewrite Hb, Hnb. simpl LockFree.buckets. simpl LockFree.num_buckets.
    repeat (split; [first [reflexivity | assumption]|]).
    apply (trigger_by_node_count g added depth _ _ _ P5 G1).
Qed.

Lemma resize_trigger_condition_witness :
  (exists g' t',
      Locked.insert initial_globals locked_example 18 9 = Ok (g', t')
      /\ resize_needed g' = 1
      /\ node_count (Locked.buckets t') = node_count (Locked.buckets locked_example) + 1)
  /\ (exists g' u',
      LockFree.insert initial_globals lockfree_example 18 9 = Ok (g', u')
      /\ resize_needed g' = 1
      /\ node_count (LockFree.buckets u')
         = node_count (LockFree.buckets lockfree_example) + 1).
Proof.
  assert (Hk : 18 <> INVALID_KEY) by (unfold INVALID_KEY, UINT64_MAX; lia).
  assert (Hv : 9 <> INVALID_VALUE) by (unfold INVALID_VALUE, UINT64_MAX; lia).
  assert (Ht : locked_sized locked_example) by (repeat split; simpl; lia).
  assert (Hu : lockfree_sized lockfree_example) by (repeat split; simpl; lia).
  destruct (resize_trigger_condition initial_globals 18 9
              locked_example lockfree_example Ht Hu Hk Hv)
    as [(t1 & a & d & g' & t' & _ & Hins & Ha & Hd & Htrig & _ & _ & _ & _ & _
         & _ & _ & _ & _ & Hn & _)
        (u1 & a2 & d2 & g2 & u' & _ & Hins2 & Ha2 & Hd2 & Htrig2 & _ & _ & _ & _
         & _ & _ & _ & _ & Hn2 & _)].
  split.
  - exists g', t'. split; [exact Hins|]. split.
    + apply Htrig; [reflexivity|].
      split; [exact Ha|]. split; [simpl; lia|].
      rewrite Hd; [vm_compute; discriminate | exact Ha | vm_compute; discriminate].
    + rewrite Hn, Ha. reflexivity.
  - exists g2, u'. split; [exact Hins2|]. split.
    + apply Htrig2; [reflexivity|].
      split; [exact Ha2|]. split; [simpl; lia|].
      rewrite Hd2; [vm_compute; discriminate | exact Ha2 | vm_compute; discriminate].
    + rewrite Hn2, Ha2. reflexivity.
Defined.

Lemma locked_run_ops_items ops : forall g t,
  speed_test g = 0 ->
  buckets_ok (Locked.num_buckets t) (Locked.buckets t) = true ->
  1 <= Locked.num_locks t ->
  Locked.num_buckets t * 2 ^ Z.of_nat (resizes_of ops) <= SIZE_MAX ->
  Locked.num_locks t * 2 ^ Z.of_nat (resizes_of ops) <= SIZE_MAX ->
  Locked.num_items t = int_wrap (node_count (Locked.buckets t)) ->
  exists g' t',
    Locked.run_ops g t ops = Ok (g', t')
    /\ Locked.num_items t' = int_wrap (node_count (Locked.buckets t')).
Proof.
  induction ops as [|[k0 v0|] ops IH]; intros g t Hsp Hok Hnl Hfb Hfl Hn; simpl.
  - exists g, t. auto.
  - simpl in Hfb, Hfl.
    destruct (buckets_ok_sized _ _ Hok) as [Hnb Hlen].
    assert (Hs : locked_sized t) by (unfold locked_sized; auto).
    destruct (locked_insert_items g t k0 v0 Hs) as (g1 & t1 & Hi & Hsp1 & Hn1).
    rewrite Hi. simpl.
    assert (H1 : buckets_ok (Locked.num_buckets t1) (Locked.buckets t1) = true
                 /\ Locked.num_buckets t1 = Locked.num_buckets t
                 /\ Locked.num_locks t1 = Locked.num_locks t
                 /\ Locked.num_items t1 = int_wrap (node_count (Locked.buckets t1))).
    { destruct (Z.eq_dec k0 INVALID_KEY) as [Ek|Ek];
        [|destruct (Z.eq_dec v0 INVALID_VALUE) as [Ev|Ev]].
      - rewrite locked_insert_sentinel in Hi by auto. injection Hi as <- <-. auto.
      - rewrite locked_insert_sentinel in Hi by auto. injection Hi as <- <-. auto.
      - destruct (locked_insert_buckets _ _ _ _ _ _ Hs Ek Ev Hi) as (Hb & Hnb1 & Hnl1).
        rewrite Hb, Hnb1, Hnl1.
        split; [apply buckets_ok_put; assumption|]. split; [reflexivity|].
        split; [reflexivity|].
        rewrite Hn1, Hsp, node_count_put by (assumption || lia).
        destruct (Z.eqb_spec k0 INVALID_KEY); [contradiction|].
        destruct (Z.eqb_spec v0 INVALID_VALUE); [contradiction|]. simpl.
        destruct (has_key k0 _); simpl.
        + rewrite Hn. f_equal. lia.
        + rewrite Hn. apply int_wrap_succ. }
    destruct H1 as (Hok1 & Hnb1 & Hnl1 & Hni1).
    apply IH; try assumption; try congruence.
  - simpl in Hfb, Hfl.
    rewrite Nat2Z.inj_succ, Z.pow_succ_r in Hfb, Hfl by lia.
    destruct (buckets_ok_sized _ _ Hok) as [Hnb Hlen].
    assert (Hpow : 1 <= 2 ^ Z.of_nat (resizes_of ops))
      by (pose proof (Z.pow_pos_nonneg 2 (Z.of_nat (resizes_of ops))); lia).
    assert (Hs : locked_sized t) by (unfold locked_sized; auto).
    rewrite locked_resize_result by (assumption || nia). simpl.
    apply IH; simpl; try assumption; try lia.
    + apply (buckets_ok_rehash (Locked.num_buckets t)); [assumption | lia].
    + rewrite Hn. f_equal. unfold node_count. f_equal.
      apply Permutation_length.
      rewrite all_items_fold_prepend by (try apply length_calloc; lia).
      rewrite all_items_calloc, app_nil_r. reflexivity.
Qed.

Lemma lockfree_run_ops_items ops : forall g t,
  speed_test g = 0 ->
  buckets_ok (LockFree.num_buckets t) (LockFree.buckets t) = true ->
  LockFree.num_buckets t * 2 ^ Z.of_nat (resizes_of ops) <= SIZE_MAX ->
  LockFree.num_items t = int_wrap (node_count (LockFree.buckets t)) ->
  exists g' t',
    LockFree.run_ops g t ops = Ok (g', t')
    /\ LockFree.num_items t' = int_wrap (node_count (LockFree.buckets t')).
Proof.
  induction ops as [|[k0 v0|] ops IH]; intros g t Hsp Hok Hfb Hn; simpl.
  - exists g, t. auto.
  - simpl in Hfb.
    destruct (buckets_ok_sized _ _ Hok) as [Hnb Hlen].
    assert (Hs : lockfree_sized t) by (unfold lockfree_sized; auto).
    destruct (lockfree_insert_items g t k0 v0 Hs) as (g1 & t1 & Hi & Hsp1 & Hn1).
    rewrite Hi. simpl.
    assert (H1 : buckets_ok (LockFree.num_buckets t1) (LockFree.buckets t1) = true
                 /\ LockFree.num_buckets t1 = LockFree.num_buckets t
                 /\ LockFree.num_items t1 = int_wrap (node_count (LockFree.buckets t1))).
    { destruct (Z.eq_dec k0 INVALID_KEY) as [Ek|Ek];
        [|destruct (Z.eq_dec v0 INVALID_VALUE) as [Ev|Ev]].
      - rewrite lockfree_insert_sentinel in Hi by auto. injection Hi as <- <-. auto.
      - rewrite lockfree_insert_sentinel in Hi by auto. injection Hi as <- <-. auto.
      - destruct (lockfree_insert_buckets _ _ _ _ _ _ Hs Ek Ev Hi) as (Hb & Hnb1).
        rewrite Hb, Hnb1.
        split; [apply buckets_ok_put; assumption|]. split; [reflexivity|].
        rewrite Hn1, Hsp, node_count_put by (assumption || lia).
        destruct (Z.eqb_spec k0 INVALID_KEY); [contradiction|].
        destruct (Z.eqb_spec v0 INVALID_VALUE); [contradiction|]. simpl.
        destruct (has_key k0 _); simpl.
        + rewrite Hn. f_equal. lia.
        + rewrite Hn. apply int_wrap_succ. }
    destruct H1 as (Hok1 & Hnb1 & Hni1).
    apply IH; try assumption; try congruence.
  - simpl in Hfb.
    rewrite Nat2Z.inj_succ, Z.pow_succ_r in Hfb by lia.
    destruct (buckets_ok_sized _ _ Hok) as [Hnb Hlen].
    assert (Hpow : 1 <= 2 ^ Z.of_nat (resizes_of ops))
      by (pose proof (Z.pow_pos_nonneg 2 (Z.of_nat (resizes_of ops))); lia).
    assert (Hs : lockfree_sized t) by (unfold lockfree_sized; auto).
    rewrite lockfree_resize_result by (assumption || nia). simpl.
    apply IH; simpl; try assumption; try lia.
    + apply (buckets_ok_rehash (LockFree.num_buckets t)); [assumption | lia].
    + rewrite Hn. f_equal. unfold node_count. f_equal.
      apply Permutation_length.
      rewrite all_items_fold_prepend by (try apply length_calloc; lia).
      rewrite all_items_calloc, app_nil_r. reflexivity.
Qed.

(** X10.  With metric tracking enabled ([speed_test == 0]), after any
    history of inserts (sentinel arguments included) and resizes on a fresh
    table, [num_items] is the number of nodes in the table, as an [int]:
    equal to it while the table has at most [INT_MAX] nodes.  Both
    variants. *)
Theorem num_items_is_the_number_of_nodes (nb nl : Z) (g : Globals)
    (ops : list table_op) :
  speed_test g = 0 ->
  1 <= nb -> 1 <= nl ->
  nb * 2 ^ Z.of_nat (resizes_of ops) <= SIZE_MAX ->
  nl * 2 ^ Z.of_nat (resizes_of ops) <= SIZE_MAX ->
  (exists g' t',
      Locked.run_ops g (Locked.create_table nb nl) ops = Ok (g', t')
      /\ Locked.num_items t' = int_wrap (node_count (Locked.buckets t'))
      /\ (node_count (Locked.buckets t') <= INT_MAX ->
          Locked.num_items t' = node_count (Locked.buckets t')))
  /\ (exists g' u',
      LockFree.run_ops g (LockFree.create_table nb nl) ops = Ok (g', u')
      /\ LockFree.num_items u' = int_wrap (node_count (LockFree.buckets u'))
      /\ (node_count (LockFree.buckets u') <= INT_MAX ->
          LockFree.num_items u' = node_count (LockFree.buckets u'))).
Proof.
  intros Hsp Hnb Hnl Hfb Hfl.
  assert (Hsmall : forall n, 0 <= n -> n <= INT_MAX -> int_wrap n = n).
  { intros n H0 H1. apply int_wrap_small. unfold INT_MIN, INT_MAX in *. lia. }
  split.
  - destruct (locked_run_ops_items ops g (Locked.create_table nb nl))
      as (g' & t' & Hrun & Hn); simpl; try assumption.
    { apply buckets_ok_calloc. assumption. }
    { unfold node_count. rewrite all_items_calloc. reflexivity. }
    exists g', t'. split; [exact Hrun|]. split; [exact Hn|].
    intros Hle. rewrite Hn. apply Hsmall; [unfold node_count; lia | exact Hle].
  - destruct (lockfree_run_ops_items ops g (LockFree.create_table nb nl))
      as (g' & t' & Hrun & Hn); simpl; try assumption.
    { apply buckets_ok_calloc. assumption. }
    { unfold node_count. rewrite all_items_calloc. reflexivity. }
    exists g', t'. split; [exact Hrun|]. split; [exact Hn|].
    intros Hle. rewrite Hn. apply Hsmall; [unfold node_count; lia | exact Hle].
Qed.

Lemma num_items_is_the_number_of_nodes_witness :
  (exists g' t',
      Locked.run_ops initial_globals (Locked.create_table 2 1)
        [OpInsert 7 1; OpInsert 9 2; OpResize; OpInsert 7 5; OpInsert INVALID_KEY 3]
      = Ok (g', t')
      /\ Locked.num_items t' = int_wrap (node_count (Locked.buckets t')))
  /\ (exists g' u',
      LockFree.run_ops initial_globals (LockFree.create_table 2 1)
        [OpInsert 7 1; OpInsert 9 2; OpResize; OpInsert 7 5; OpInsert INVALID_KEY 3]
      = Ok (g', u')
      /\ LockFree.num_items u' = int_wrap (node_count (LockFree.buckets u'))).
Proof.
  assert (H1 : 1 <= 2) by lia.
  assert (H2 : 1 <= 1) by lia.
  destruct (num_items_is_the_number_of_nodes 2 1 initial_globals
              [OpInsert 7 1; OpInsert 9 2; OpResize; OpInsert 7 5;
               OpInsert INVALID_KEY 3] eq_refl H1 H2)
    as [(g' & t' & Hr & Hn & _) (g2 & u' & Hr2 & Hn2 & _)].
  - unfold SIZE_MAX; simpl; lia.
  - unfold SIZE_MAX; simpl; lia.
  - split; [exists g', t' | exists g2, u']; auto.
Defined.

(** * Further properties of the driver *)

(** ** The chunks of a dispatch phase *)

Lemma find_last_newline_spec buffer n :
  match Driver.find_last_newline buffer n with
  | Some i => 0 <= i < Z.of_nat n /\ buffer i = Driver.newline
  | None => forall j, 0 <= j < Z.of_nat n -> buffer j <> Driver.newline
  end.
Proof.
  induction n as [|n IH]; simpl.
  - intros j Hj. lia.
  - destruct (Z.eqb_spec (buffer (Z.of_nat n)) Driver.newline) as [E|E].
    + split; [lia | exact E].
    + destruct (Driver.find_last_newline buffer n) as [i|].
      * destruct IH as [Hi Hb]. split; [lia | exact Hb].
      * intros j Hj. destruct (Z.eq_dec j (Z.of_nat n)) as [->|Hne];
          [exact E | apply IH; lia].
Qed.

Lemma dispatch_loop_covers flag f0 p0 fuel : forall st r,
  covering f0 p0 st ->
  ~ In 0 (Driver.reads st) ->
  Driver.dispatch_loop flag fuel st = Some r ->
  covering f0 p0 r
  /\ (In 0 (Driver.reads r) -> Driver.pos (Driver.file r) = Driver.size f0).
Proof.
  induction fuel as [|fuel IH]; intros st r Hcov Hreads; [discriminate|].
  destruct Hcov as (Hc & Hsz & Hpos & Htc & Hall).
  simpl Driver.dispatch_loop.
  set (bytes := Z.min Driver.FILE_CHUNK_SIZE
                  (Z.max 0 (Driver.size (Driver.file st) - Driver.pos (Driver.file st)))).
  assert (Hbytes : 0 <= bytes <= Driver.FILE_CHUNK_SIZE
                   /\ Driver.pos (Driver.file st) + bytes <= Driver.size f0
                   /\ (bytes < Driver.FILE_CHUNK_SIZE ->
                       Driver.pos (Driver.file st) + bytes = Driver.size f0)).
  { unfold bytes, Driver.FILE_CHUNK_SIZE. rewrite Hsz. lia. }
  destruct Hbytes as (Hb1 & Hb2 & Hb3). clearbody bytes.
  destruct (Z.eqb_spec bytes 0) as [Eb|Eb].
  { intros [= <-]. simpl. subst bytes. rewrite Z.add_0_r in *. split.
    - unfold covering. simpl. repeat split; auto; lia.
    - intros _. apply Hb3. unfold Driver.FILE_CHUNK_SIZE. lia. }
  destruct (if bytes =? Driver.FILE_CHUNK_SIZE then _ else _)
    as [bytes1 f2] eqn:Echunk.
  assert (Hchunk : Driver.contents f2 = Driver.contents f0
                   /\ Driver.size f2 = Driver.size f0
                   /\ Driver.pos f2 = Driver.pos (Driver.file st) + bytes1
                   /\ 0 <= Driver.pos f2 <= Driver.size f0
                   /\ chunk_ok f0 (Driver.mkTask (Driver.pos (Driver.file st)) bytes1)).
  { unfold chunk_ok. simpl.
    destruct (Z.eqb_spec bytes Driver.FILE_CHUNK_SIZE) as [Efull|Efull].
    - pose proof (find_last_newline_spec
                    (fun i => Driver.contents (Driver.file st)
                                (Driver.pos (Driver.file st) + i))
                    (Z.to_nat bytes)) as Hfl.
      destruct (Driver.find_last_newline _ _) as [ln|].
      + injection Echunk as <- <-. simpl. destruct Hfl as [Hln Hnl].
        rewrite Hc in Hnl.
        split; [exact Hc|]. split; [exact Hsz|]. split; [lia|].
        split; [lia|]. split; [lia|].
        left. rewrite <- Hnl. f_equal. lia.
      + injection Echunk as <- <-. simpl.
        split; [exact Hc|]. split; [exact Hsz|]. split; [lia|].
        split; [lia|]. split; [lia|].
        right; right. split; [exact Efull|].
        intros j Hj. rewrite <- Hc. apply Hfl. lia.
    - injection Echunk as <- <-. simpl.
      split; [exact Hc|]. split; [exact Hsz|]. split; [lia|].
      split; [lia|]. split; [lia|].
      right; left. apply Hb3. lia. }
  destruct Hchunk as (Hc2 & Hsz2 & Hp2 & Hr2 & Hok2).
  assert (Hnext : forall e c tr,
            covering f0 p0
              (Driver.mkDispatch f2 e c tr
                 (Driver.mkTask (Driver.pos (Driver.file st)) bytes1 :: Driver.tasks st)
                 (bytes :: Driver.reads st))
            /\ ~ In 0 (bytes :: Driver.reads st)).
  { intros e c tr. split.
    - unfold covering. simpl. repeat split; auto; try lia.
    - intros [E|E]; [lia | contradiction]. }
  destruct (negb (Driver.end_of_file st =? 0)).
  { intros [= <-]. destruct (Hnext (Driver.end_of_file st) (Driver.count st)
                               (Driver.temp_resize_needed st)) as [H1 H2].
    split; [exact H1 | intros H; contradiction]. }
  destruct (_ <=? _).
  { intros [= <-]. destruct (Hnext (Driver.end_of_file st)
                               (int_wrap (Driver.count st + 1))
                               (Driver.temp_resize_needed st)) as [H1 H2].
    split; [exact H1 | intros H; contradiction]. }
  destruct (negb (_ =? 0)).
  { intros [= <-]. destruct (Hnext (Driver.end_of_file st)
                               (int_wrap (Driver.count st + 1))
                               (flag (int_wrap (Driver.count st + 1)))) as [H1 H2].
    split; [exact H1 | intros H; contradiction]. }
  intros Hrun.
  destruct (Hnext (Driver.end_of_file st) (int_wrap (Driver.count st + 1))
              (flag (int_wrap (Driver.count st + 1)))) as [H1 H2].
  apply (IH _ r H1 H2 Hrun).
Qed.

(** X11.  A dispatch phase entered with [end_of_file == 0] at an offset
    within the input ends, and its tasks own the bytes from that offset to
    the new file position one after the other, without gap or overlap.
    Each chunk has between 1 and [FILE_CHUNK_SIZE] bytes and ends after a
    newline, at the end of the input, or (a full chunk without any newline)
    inside a line that is longer than a chunk.  [end_of_file] is 1
    afterwards only if the whole input has been handed out. *)
Theorem dispatch_covers_the_input (flag : Z -> Z) (f : Driver.FILE) :
  0 <= Driver.pos f <= Driver.size f ->
  exists st,
    Driver.dispatch_phase flag (Z.to_nat (Driver.MAX_TASK_POOL - 1)) f 0 = Some st
    /\ tasks_cover (Driver.tasks st) (Driver.pos f) (Driver.pos (Driver.file st))
    /\ Forall (chunk_ok f) (Driver.tasks st)
    /\ Driver.pos f <= Driver.pos (Driver.file st) <= Driver.size f
    /\ (Driver.end_of_file st = 1 -> Driver.pos (Driver.file st) = Driver.size f).
Proof.
  intros Hpos.
  destruct (dispatch_phase_terminates flag f) as [st Hrun].
  exists st. split; [exact Hrun|].
  pose proof (dispatch_phase_outcome flag _ f st Hrun) as Hout.
  unfold Driver.dispatch_phase in Hrun.
  destruct (Driver.dispatch_loop flag _ _) as [r|] eqn:El; [|discriminate].
  injection Hrun as <-.
  assert (Hcov0 : covering f (Driver.pos f) (Driver.mkDispatch f 0 0 0 [] [])).
  { unfold covering. simpl. repeat split; auto; lia. }
  assert (Hrd0 : ~ In 0 (Driver.reads (Driver.mkDispatch f 0 0 0 [] [])))
    by (simpl; tauto).
  destruct (dispatch_loop_covers flag f (Driver.pos f) _ _ r Hcov0 Hrd0 El)
    as [(Hc & Hsz & Hp & Htc & Hall) Hex].
  assert (Hsame : Driver.tasks (Driver.after_loop r) = Driver.tasks r
                  /\ Driver.file (Driver.after_loop r) = Driver.file r
                  /\ Driver.reads (Driver.after_loop r) = Driver.reads r).
  { unfold Driver.after_loop. destruct (_ && _); auto. }
  destruct Hsame as (-> & -> & Hrd).
  split; [exact Htc|]. split; [exact Hall|]. split.
  - split; [|lia]. clear - Htc Hall.
    revert Htc Hall. generalize (Driver.pos (Driver.file r)).
    induction (Driver.tasks r) as [|T ts IH]; intros pend Htc Hall; simpl in Htc.
    + lia.
    + destruct Htc as [<- Htc]. inversion Hall as [|? ? [Hb _] Hrest]; subst.
      specialize (IH _ Htc Hrest). lia.
  - intros He. apply Hex. rewrite <- Hrd.
    destruct Hout as [(_ & Hin & _) | (He0 & _)]; [exact Hin | congruence].
Qed.

Lemma dispatch_covers_the_input_witness :
  exists st,
    Driver.dispatch_phase (fun _ => 0) 255 two_lines_file 0 = Some st
    /\ Driver.tasks st = [Driver.mkTask 0 12]
    /\ Driver.end_of_file st = 1
    /\ Driver.pos (Driver.file st) = Driver.size two_lines_file.
Proof.
  assert (Hpos : 0 <= Driver.pos two_lines_file <= Driver.size two_lines_file)
    by (simpl; lia).
  destruct (dispatch_covers_the_input (fun _ => 0) two_lines_file Hpos)
    as (st & Hrun & _ & _ & _ & Hex).
  exists st. split; [exact Hrun|].
  assert (E : option_map (fun s => (Driver.tasks s, Driver.end_of_file s))
                (Driver.dispatch_phase (fun _ => 0) 255 two_lines_file 0)
              = Some ([Driver.mkTask 0 12], 1)) by (vm_compute; reflexivity).
  change (Z.to_nat (Driver.MAX_TASK_POOL - 1)) with 255%nat in Hrun.
  rewrite Hrun in E. simpl in E. injection E as Et Ee.
  split; [exact Et|]. split; [exact Ee|]. apply Hex. exact Ee.
Defined.

(** * Properties of the line parser and of the task body *)

(** ** Decimal numerals *)

Lemma read_digits_stop rest acc :
  no_digit_ahead rest -> Task.read_digits rest acc = (acc, rest).
Proof.
  unfold no_digit_ahead. destruct rest as [|c rest]; simpl; [reflexivity|].
  intros ->. reflexivity.
Qed.

Lemma read_digits_uint_acc d rest : forall acc,
  no_digit_ahead rest ->
  Task.read_digits (uint_bytes d ++ rest) (Z.pos acc)
  = (Z.pos (Pos.of_uint_acc d acc), rest).
Proof.
  induction d as [|d IH|d IH|d IH|d IH|d IH|d IH|d IH|d IH|d IH|d IH];
    intros acc Hrest; simpl;
    [apply read_digits_stop; assumption | ..];
    match goal with
    | |- Task.read_digits _ ?a = _ =>
        match type of (IH) with
        | forall acc0, _ -> Task.read_digits _ (Z.pos acc0) = (Z.pos (Pos.of_uint_acc _ acc0), _) =>
            idtac
        end
    end;
    rewrite <- IH by assumption; f_equal; lia.
Qed.

Lemma read_digits_uint d rest :
  no_digit_ahead rest ->
  Task.read_digits (uint_bytes d ++ rest) 0 = (Z.of_N (Pos.of_uint d), rest).
Proof.
  intros Hrest.
  induction d as [|d IH|d IH|d IH|d IH|d IH|d IH|d IH|d IH|d IH|d IH]; simpl;
    [apply read_digits_stop; assumption | exact IH | ..];
    apply (read_digits_uint_acc d rest _ Hrest).
Qed.

Lemma uint_bytes_head d :
  d <> Decimal.Nil ->
  exists c tl, uint_bytes d = c :: tl /\ 48 <= c <= 57.
Proof.
  destruct d; intros H; try contradiction; simpl; eexists _, _;
    (split; [reflexivity | lia]).
Qed.

Lemma to_uint_not_nil n : N.to_uint n <> Decimal.Nil.
Proof.
  destruct n as [|p]; simpl; [discriminate|].
  apply DecimalPos.Unsigned.to_uint_nonnil.
Qed.

Lemma read_digits_decimal n rest :
  0 <= n -> no_digit_ahead rest ->
  Task.read_digits (decimal n ++ rest) 0 = (n, rest).
Proof.
  intros Hn Hrest. unfold decimal. rewrite read_digits_uint by assumption.
  f_equal. change (Pos.of_uint (N.to_uint (Z.to_N n))) with (N.of_uint (N.to_uint (Z.to_N n))).
  rewrite DecimalN.Unsigned.of_to. lia.
Qed.

Lemma decimal_head n :
  exists c tl, decimal n = c :: tl /\ 48 <= c <= 57.
Proof. apply uint_bytes_head, to_uint_not_nil. Qed.

(** [strtoull] reads back a 64-bit number written in decimal after a
    space. *)
Lemma strtoull_decimal n rest :
  is_u64 n -> no_digit_ahead rest ->
  Task.strtoull (32 :: decimal n ++ rest) = (n, rest).
Proof.
  intros [Hn0 Hn1] Hrest.
  pose proof (read_digits_decimal n rest Hn0 Hrest) as Hread.
  destruct (decimal_head n) as (c & tl & Hd & Hc).
  rewrite Hd in *. simpl app in *.
  assert (Hsp : Task.isspace c = false).
  { unfold Task.isspace.
    destruct (Z.eqb_spec c 32); [lia|].
    destruct (Z.leb_spec 9 c); destruct (Z.leb_spec c 13); simpl; auto; lia. }
  assert (Hskip : Task.skip_spaces (32 :: c :: tl ++ rest) = c :: tl ++ rest).
  { change (Task.skip_spaces (32 :: c :: tl ++ rest))
      with (if Task.isspace c then Task.skip_spaces (tl ++ rest)
            else c :: tl ++ rest).
    rewrite Hsp. reflexivity. }
  unfold Task.strtoull. rewrite Hskip.
  assert (Hsign : match c :: tl ++ rest with
                  | 45 :: r => (true, r)
                  | 43 :: r => (false, r)
                  | _ => (false, c :: tl ++ rest)
                  end = (false, c :: tl ++ rest)).
  { assert (Hcases : c = 48 \/ c = 49 \/ c = 50 \/ c = 51 \/ c = 52 \/ c = 53
                     \/ c = 54 \/ c = 55 \/ c = 56 \/ c = 57) by lia.
    destruct Hcases as [->|[->|[->|[->|[->|[->|[->|[->|[->| ->]]]]]]]]];
      reflexivity. }
  rewrite Hsign. simpl Task.deref.
  assert (Hdig : Task.isdigit c = true).
  { unfold Task.isdigit. apply andb_true_iff. split; apply Z.leb_le; lia. }
  rewrite Hdig, Hread.
  destruct (Z.ltb_spec UINT64_MAX n); [lia | reflexivity].
Qed.

(** ** The line parser *)

Lemma format_line_app l rest :
  format_line l ++ rest
  = line_op l :: 32 :: decimal (line_key l)
      ++ (32 :: decimal (line_value l) ++ (10 :: rest)).
Proof.
  unfold format_line. simpl. f_equal. f_equal.
  rewrite <- app_assoc. simpl. rewrite <- app_assoc. reflexivity.
Qed.

Lemma skip_blanks_op c rest :
  c <> 32 -> c <> 9 -> c <> 10 -> Task.skip_blanks (c :: rest) = c :: rest.
Proof.
  intros H1 H2 H3. simpl.
  destruct (Z.eqb_spec c 32); [contradiction|].
  destruct (Z.eqb_spec c 9); [contradiction|].
  destruct (Z.eqb_spec c 10); [contradiction|]. reflexivity.
Qed.

Lemma parse_line_format l rest :
  well_formed_line l ->
  Task.parse_line (format_line l ++ rest)
  = Some (line_op l, line_key l, line_value l, 10 :: rest).
Proof.
  intros (H0 & H32 & H9 & H10 & Hk & Hv).
  rewrite format_line_app. unfold Task.parse_line.
  rewrite skip_blanks_op by assumption.
  destruct (Z.eqb_spec (line_op l) 0); [contradiction|].
  rewrite strtoull_decimal by (assumption || reflexivity).
  rewrite strtoull_decimal by (assumption || reflexivity).
  reflexivity.
Qed.

Lemma parse_line_after_newline s : Task.parse_line (10 :: s) = Task.parse_line s.
Proof. reflexivity. Qed.

(** X12.  [parse_line] reads back every line written as an opcode byte, a
    space, the key in decimal, a space, the value in decimal and a newline
    (opcode other than NUL, space, tab and newline; key and value below
    [2^64]): it stores the opcode, the key and the value, and returns the
    cursor at the newline that ends the line; newlines left from the line
    before are skipped. *)
Theorem parse_line_reads_back (l : Line) (rest : list Z) :
  well_formed_line l ->
  Task.parse_line (format_line l ++ rest)
  = Some (line_op l, line_key l, line_value l, 10 :: rest)
  /\ Task.parse_line (10 :: format_line l ++ rest)
     = Some (line_op l, line_key l, line_value l, 10 :: rest).
Proof.
  intros Hl. rewrite parse_line_after_newline.
  split; apply parse_line_format; exact Hl.
Qed.

Lemma parse_line_reads_back_witness :
  Task.parse_line [73; 32; 49; 50; 32; 55; 10; 76]
  = Some (73, 12, 7, [10; 76]).
Proof.
  assert (Hl : well_formed_line (mkLine 73 12 7)).
  { unfold well_formed_line, is_u64, UINT64_MAX. simpl. lia. }
  exact (proj1 (parse_line_reads_back (mkLine 73 12 7) [76] Hl)).
Defined.

(** ** Progress of the parser *)

Lemma length_skip_spaces s : (length (Task.skip_spaces s) <= length s)%nat.
Proof.
  induction s as [|c s IH]; simpl; [lia|].
  destruct (Task.isspace c); simpl; lia.
Qed.

Lemma length_skip_blanks s : (length (Task.skip_blanks s) <= length s)%nat.
Proof.
  induction s as [|c s IH]; simpl; [lia|].
  destruct (_ || _); simpl; lia.
Qed.

Lemma length_read_digits s : forall acc,
  (length (Task.read_digits s acc).2 <= length s)%nat.
Proof.
  induction s as [|c s IH]; intros acc; simpl; [lia|].
  destruct (Task.isdigit c); simpl; [|lia].
  specialize (IH (acc * 10 + (c - 48))). lia.
Qed.

Lemma length_strtoull s : (length (Task.strtoull s).2 <= length s)%nat.
Proof.
  unfold Task.strtoull.
  pose proof (length_skip_spaces s) as Hs.
  set (s1 := Task.skip_spaces s) in *.
  assert (Hsign : forall neg s2,
            (length s2 <= length s)%nat ->
            (length (if Task.isdigit (Task.deref s2)
                     then let '(n, end_ptr) := Task.read_digits s2 0 in
                          if (UINT64_MAX <? n)%Z then (UINT64_MAX, end_ptr)
                          else (if neg : bool then wrap64 (- n)%Z else n, end_ptr)
                     else (0%Z, s)).2 <= length s)%nat).
  { intros neg s2 H2. destruct (Task.isdigit (Task.deref s2)); [|simpl; lia].
    pose proof (length_read_digits s2 0) as Hr.
    destruct (Task.read_digits s2 0) as [n e]. simpl in Hr.
    destruct (UINT64_MAX <? n); simpl; lia. }
  destruct s1 as [|c r]; [apply (Hsign false); simpl; lia|].
  simpl in Hs.
  destruct (Z.eq_dec c 45) as [->|H45]; [apply (Hsign true); lia|].
  destruct (Z.eq_dec c 43) as [->|H43]; [apply (Hsign false); lia|].
  assert (Hm : match c :: r with
               | 45 :: rest => (true, rest)
               | 43 :: rest => (false, rest)
               | _ => (false, c :: r)
               end = (false, c :: r)).
  { destruct c as [|p|p]; try reflexivity.
    do 6 (try destruct p as [p|p|]); try reflexivity; contradiction. }
  rewrite Hm. apply (Hsign false). simpl. lia.
Qed.

(** [parse_line] moves on: the cursor it returns is strictly further. *)
Lemma parse_line_progress cursor op k v cursor' :
  Task.parse_line cursor = Some (op, k, v, cursor') ->
  (length cursor' < length cursor)%nat.
Proof.
  unfold Task.parse_line. pose proof (length_skip_blanks cursor) as Hb.
  destruct (Task.skip_blanks cursor) as [|c rest]; [discriminate|].
  destruct (c =? 0); [discriminate|].
  pose proof (length_strtoull rest) as H1.
  destruct (Task.strtoull rest) as [key e1].
  pose proof (length_strtoull e1) as H2.
  destruct (Task.strtoull e1) as [val e2].
  intros [= _ _ _ <-]. simpl in *. lia.
Qed.

(** ** One [insert] on a sized table *)

Lemma locked_insert_step g t k v :
  locked_sized t ->
  exists g' t',
    Locked.insert g t k v = Ok (g', t')
    /\ locked_sized t' /\ speed_test g' = speed_test g.
Proof.
  intros Ht.
  destruct (locked_insert_items g t k v Ht) as (g' & t' & Hi & Hsp & _).
  exists g', t'. split; [exact Hi|]. split; [|exact Hsp].
  destruct (Z.eq_dec k INVALID_KEY) as [Ek|Ek].
  { rewrite locked_insert_sentinel in Hi by auto. congruence. }
  destruct (Z.eq_dec v INVALID_VALUE) as [Ev|Ev].
  { rewrite locked_insert_sentinel in Hi by auto. congruence. }
  destruct (locked_insert_buckets g t k v g' t' Ht Ek Ev Hi) as (Hb & Hnb & Hnl).
  destruct Ht as (H1 & H2 & H3).
  unfold locked_sized. rewrite Hb, Hnb, Hnl, length_put. auto.
Qed.

Lemma lockfree_insert_step g t k v :
  lockfree_sized t ->
  exists g' t',
    LockFree.insert g t k v = Ok (g', t')
    /\ lockfree_sized t' /\ speed_test g' = speed_test g.
Proof.
  intros Ht.
  destruct (lockfree_insert_items g t k v Ht) as (g' & t' & Hi & Hsp & _).
  exists g', t'. split; [exact Hi|]. split; [|exact Hsp].
  destruct (Z.eq_dec k INVALID_KEY) as [Ek|Ek].
  { rewrite lockfree_insert_sentinel in Hi by auto. congruence. }
  destruct (Z.eq_dec v INVALID_VALUE) as [Ev|Ev].
  { rewrite lockfree_insert_sentinel in Hi by auto. congruence. }
  destruct (lockfree_insert_buckets g t k v g' t' Ht Ek Ev Hi) as (Hb & Hnb).
  destruct Ht as (H1 & H2).
  unfold lockfree_sized. rewrite Hb, Hnb, length_put. auto.
Qed.

Lemma insert_all_locked pairs : forall g t,
  insert_all Task.locked_ops g t pairs = Locked.run_inserts g t pairs.
Proof.
  induction pairs as [|[k v] pairs IH]; intros g t; simpl; [reflexivity|].
  destruct (Locked.insert g t k v) as [[g' t']|f]; simpl; [apply IH | reflexivity].
Qed.

Lemma insert_all_lock_free pairs : forall g t,
  insert_all Task.lock_free_ops g t pairs = LockFree.run_inserts g t pairs.
Proof.
  induction pairs as [|[k v] pairs IH]; intros g t; simpl; [reflexivity|].
  destruct (LockFree.insert g t k v) as [[g' t']|f]; simpl; [apply IH | reflexivity].
Qed.

(** ** The task body on a buffer of well-formed lines *)

Lemma wrap64_incr x n : wrap64 (Task.incr x + n) = wrap64 (x + (1 + n)).
Proof.
  unfold Task.incr, wrap64. rewrite Z.add_mod_idemp_l by lia.
  f_equal. lia.
Qed.

Lemma count_op_cons c l ls :
  count_op c (l :: ls) = (if line_op l =? c then 1 else 0) + count_op c ls.
Proof.
  unfold count_op. simpl. destruct (line_op l =? c); simpl; lia.
Qed.

Lemma count_op_nil c : count_op c [] = 0.
Proof. reflexivity. Qed.

Section TaskOnLines.

Variable ops : Task.TableOps.
Variable sized : Task.table ops -> Prop.
Hypothesis lookup_returns :
  forall t k, sized t -> exists v, Task.lookup ops t k = Ok v.
Hypothesis insert_returns :
  forall g t k v, sized t ->
  exists g' t', Task.insert ops g t k v = Ok (g', t')
                /\ sized t' /\ speed_test g' = speed_test g.

Lemma task_loop_lines ls : forall fuel pre g t m,
  pre = [] \/ pre = [10] ->
  Forall well_formed_line ls ->
  (length ls < fuel)%nat ->
  sized t ->
  exists g' t' m',
    insert_all ops g t (line_inserts ls) = Ok (g', t')
    /\ sized t' /\ speed_test g' = speed_test g
    /\ Task.task_loop ops fuel (pre ++ format_lines ls) g t m = Some (Ok (g', t', m'))
    /\ wrap64 (Task.temp_ops m') = wrap64 (Task.temp_ops m + Z.of_nat (length ls))
    /\ wrap64 (Task.temp_lookups m') = wrap64 (Task.temp_lookups m + count_op 76 ls)
    /\ wrap64 (Task.temp_inserts m') = wrap64 (Task.temp_inserts m + count_op 73 ls).
Proof.
  induction ls as [|l ls IH]; intros fuel pre g t m Hpre Hls Hfuel Ht.
  - exists g, t, m. simpl. split; [reflexivity|]. split; [exact Ht|].
    split; [reflexivity|].
    rewrite count_op_nil, !Z.add_0_r.
    destruct fuel as [|fuel]; [simpl in Hfuel; lia|].
    split; [|auto].
    destruct Hpre as [-> | ->]; reflexivity.
  - inversion Hls as [|? ? Hl Hrest]; subst.
    destruct fuel as [|fuel]; [simpl in Hfuel; lia|].
    simpl in Hfuel.
    assert (Hparse : Task.parse_line (pre ++ format_lines (l :: ls))
                     = Some (line_op l, line_key l, line_value l,
                             [10] ++ format_lines ls)).
    { unfold format_lines. simpl. fold (format_lines ls).
      destruct Hpre as [-> | ->]; simpl app.
      - apply parse_line_format. exact Hl.
      - rewrite parse_line_after_newline. apply parse_line_format. exact Hl. }
    assert (Hcond : (match pre ++ format_lines (l :: ls) with
                     | [] => false | _ => true end
                     && negb (Task.deref (pre ++ format_lines (l :: ls)) =? 0)) = true).
    { destruct Hl as (H0 & _).
      destruct Hpre as [-> | ->]; [|reflexivity].
      unfold format_lines. simpl.
      destruct (Z.eqb_spec (line_op l) 0); [contradiction | reflexivity]. }
    rewrite !count_op_cons. simpl line_inserts.
    cbn [Task.task_loop]. rewrite Hcond, Hparse.
    destruct (Z.eqb_spec (line_op l) 76) as [E76|E76].
    + destruct (Z.eqb_spec (line_op l) 73) as [E73|_]; [lia|].
      destruct (lookup_returns t (line_key l) Ht) as (lv & Hlv). rewrite Hlv.
      match goal with
      | |- context [Task.task_loop ops fuel _ g t ?m0] =>
          destruct (IH fuel [10] g t m0 ltac:(auto) Hrest ltac:(lia) Ht)
            as (g' & t' & m' & Hrun & Hs' & Hsp & Hloop & Ho & Hlk & Hin)
      end.
      exists g', t', m'. rewrite Hloop.
      split; [exact Hrun|]. split; [exact Hs'|]. split; [exact Hsp|].
      split; [reflexivity|].
      rewrite Ho, Hlk, Hin.
      destruct (speed_test g =? 0); [destruct (lv =? INVALID_VALUE)|];
        cbn [Task.temp_ops Task.temp_lookups Task.temp_inserts];
        rewrite !wrap64_incr; cbn [length]; repeat split; f_equal; lia.
    + destruct (Z.eqb_spec (line_op l) 73) as [E73|E73].
      * destruct (insert_returns g t (line_key l) (line_value l) Ht)
          as (g1 & t1 & Hi & Hs1 & Hsp1).
        rewrite Hi. cbn [bind fst snd].
        match goal with
        | |- context [Task.task_loop ops fuel _ g1 t1 ?m0] =>
            destruct (IH fuel [10] g1 t1 m0 ltac:(auto) Hrest ltac:(lia) Hs1)
              as (g' & t' & m' & Hrun & Hs' & Hsp & Hloop & Ho & Hlk & Hin)
        end.
        exists g', t', m'. rewrite Hloop.
        split; [cbn [insert_all]; rewrite Hi; exact Hrun|].
        split; [exact Hs'|]. split; [congruence|].
        split; [reflexivity|].
        rewrite Ho, Hlk, Hin.
        cbn [Task.temp_ops Task.temp_lookups Task.temp_inserts].
        rewrite !wrap64_incr; cbn [length]; repeat split; f_equal; lia.
      * match goal with
        | |- context [Task.task_loop ops fuel _ g t ?m0] =>
            destruct (IH fuel [10] g t m0 ltac:(auto) Hrest ltac:(lia) Ht)
              as (g' & t' & m' & Hrun & Hs' & Hsp & Hloop & Ho & Hlk & Hin)
        end.
        exists g', t', m'. rewrite Hloop.
        split; [exact Hrun|]. split; [exact Hs'|]. split; [exact Hsp|].
        split; [reflexivity|].
        rewrite Ho, Hlk, Hin.
        cbn [Task.temp_ops Task.temp_lookups Task.temp_inserts].
        rewrite !wrap64_incr; cbn [length]; repeat split; f_equal; lia.
Qed.

Lemma run_task_lines ls fuel g t metrics :
  Forall well_formed_line ls -> (length ls < fuel)%nat -> sized t ->
  exists g' t' metrics',
    insert_all ops g t (line_inserts ls) = Ok (g', t')
    /\ sized t' /\ speed_test g' = speed_test g
    /\ Task.run_task ops fuel (format_lines ls) g t metrics
       = Some (Ok (g', t', metrics'))
    /\ if speed_test g =? 0
       then Task.total_ops metrics'
            = wrap64 (Task.total_ops metrics + Z.of_nat (length ls))
            /\ Task.total_lookups metrics'
               = wrap64 (Task.total_lookups metrics + count_op 76 ls)
            /\ Task.total_inserts metrics'
               = wrap64 (Task.total_inserts metrics + count_op 73 ls)
       else metrics' = metrics.
Proof.
  intros Hls Hfuel Ht.
  destruct (task_loop_lines ls fuel [] g t (Task.mkTemps 0 0 0 0 0 0)
              ltac:(auto) Hls Hfuel Ht)
    as (g' & t' & m' & Hrun & Hs' & Hsp & Hloop & Ho & Hlk & Hin).
  simpl app in Hloop. cbn [Task.temp_ops Task.temp_lookups Task.temp_inserts] in *.
  exists g', t'. unfold Task.run_task. rewrite Hloop, Hsp.
  eexists. split; [exact Hrun|]. split; [exact Hs'|]. split; [reflexivity|].
  split; [reflexivity|].
  destruct (speed_test g =? 0); [|reflexivity].
  unfold Task.add_metrics. cbn [Task.total_ops Task.total_lookups Task.total_inserts].
  unfold wrap64 in *.
  rewrite <- (Z.add_mod_idemp_r _ (Task.temp_ops m')) by lia.
  rewrite <- (Z.add_mod_idemp_r _ (Task.temp_lookups m')) by lia.
  rewrite <- (Z.add_mod_idemp_r _ (Task.temp_inserts m')) by lia.
  rewrite Ho, Hlk, Hin. simpl Z.add.
  rewrite !Z.add_mod_idemp_r by lia. auto.
Qed.

End TaskOnLines.

(** X13.  A task whose buffer is a sequence of well-formed lines, run on a
    sized table, returns; the table and the globals afterwards are those of
    the [insert] calls of the lines with the opcode ['I'], in the order of
    the lines (lines with ['L'] and with any other opcode leave the table as
    it is); and unless [speed_test] is set, [total_ops] has grown by the
    number of lines, [total_lookups] by the number of ['L'] lines and
    [total_inserts] by the number of ['I'] lines, modulo [2^64].  Both
    variants. *)
Theorem task_runs_the_inserts_of_its_lines (ls : list Line) (g : Globals)
    (t : Locked.ChainedHashTable) (u : LockFree.ChainedHashTable)
    (run_metrics : Task.MetricObject) :
  Forall well_formed_line ls -> locked_sized t -> lockfree_sized u ->
  (exists g' t' run_metrics',
      Locked.run_inserts g t (line_inserts ls) = Ok (g', t')
      /\ Task.run_task Task.locked_ops (S (length ls)) (format_lines ls)
           g t run_metrics = Some (Ok (g', t', run_metrics'))
      /\ counted_lines g ls run_metrics run_metrics')
  /\ (exists g' u' run_metrics',
      LockFree.run_inserts g u (line_inserts ls) = Ok (g', u')
      /\ Task.run_task Task.lock_free_ops (S (length ls)) (format_lines ls)
           g u run_metrics = Some (Ok (g', u', run_metrics'))
      /\ counted_lines g ls run_metrics run_metrics').
Proof.
  intros Hls Ht Hu. split.
  - destruct (run_task_lines Task.locked_ops locked_sized) with
      (ls := ls) (fuel := S (length ls)) (g := g) (t := t) (metrics := run_metrics)
      as (g' & t' & m' & Hrun & _ & _ & Htask & Hcount); try assumption.
    + intros t0 k H0. eexists. apply (locked_lookup_find t0 k H0).
    + intros g0 t0 k v H0. apply locked_insert_step. exact H0.
    + lia.
    + exists g', t', m'. rewrite <- insert_all_locked. auto.
  - destruct (run_task_lines Task.lock_free_ops lockfree_sized) with
      (ls := ls) (fuel := S (length ls)) (g := g) (t := u) (metrics := run_metrics)
      as (g' & t' & m' & Hrun & _ & _ & Htask & Hcount); try assumption.
    + intros t0 k H0. eexists. apply (lockfree_lookup_find t0 k H0).
    + intros g0 t0 k v H0. apply lockfree_insert_step. exact H0.
    + lia.
    + exists g', t', m'. rewrite <- insert_all_lock_free. auto.
Qed.

Lemma task_runs_the_inserts_of_its_lines_witness :
  exists g' t' run_metrics',
    Locked.run_inserts initial_globals (Locked.create_table 4 2) [(1, 2); (5, 6)]
    = Ok (g', t')
    /\ Task.run_task Task.locked_ops 5
         (format_lines [mkLine 73 1 2; mkLine 76 1 2; mkLine 88 3 4; mkLine 73 5 6])
         initial_globals (Locked.create_table 4 2) (Task.mkMetrics 0 0 0 0 0 0)
       = Some (Ok (g', t', run_metrics'))
    /\ Task.total_ops run_metrics' = 4
    /\ Task.total_lookups run_metrics' = 1
    /\ Task.total_inserts run_metrics' = 2.
Proof.
  assert (Hwf : forall c k v, (c = 73 \/ c = 76 \/ c = 88) ->
                  0 <= k <= 10 -> 0 <= v <= 10 -> well_formed_line (mkLine c k v)).
  { intros c k v Hc Hk Hv. unfold well_formed_line, is_u64, UINT64_MAX. simpl. lia. }
  assert (Hls : Forall well_formed_line
                  [mkLine 73 1 2; mkLine 76 1 2; mkLine 88 3 4; mkLine 73 5 6]).
  { repeat constructor; apply Hwf; lia. }
  assert (Ht : locked_sized (Locked.create_table 4 2)).
  { apply locked_sized_create; lia. }
  assert (Hu : lockfree_sized (LockFree.create_table 4 2)).
  { apply lockfree_sized_create; lia. }
  destruct (task_runs_the_inserts_of_its_lines
              [mkLine 73 1 2; mkLine 76 1 2; mkLine 88 3 4; mkLine 73 5 6]
              initial_globals (Locked.create_table 4 2) (LockFree.create_table 4 2)
              (Task.mkMetrics 0 0 0 0 0 0) Hls Ht Hu)
    as [(g' & t' & m' & Hrun & Htask & Hcount) _].
  exists g', t', m'. split; [exact Hrun|]. split; [exact Htask|]. exact Hcount.
Defined.

(** ** The task body on any buffer *)

Lemma locked_insert_speed_test g t k v r :
  Locked.insert g t k v = Ok r -> speed_test r.1 = speed_test g.
Proof.
  unfold Locked.insert.
  destruct (k =? INVALID_KEY); [intros [= <-]; reflexivity|].
  destruct (v =? INVALID_VALUE); [intros [= <-]; reflexivity|].
  destruct (Locked.insert_section t k v) as [[[c a] d]|f]; simpl; [|discriminate].
  intros [= <-]. unfold Locked.insert_epilogue.
  destruct a; [|reflexivity]. simpl.
  destruct (negb _ && _); [|reflexivity].
  destruct (resize_needed g =? 0); reflexivity.
Qed.

Lemma lockfree_insert_speed_test g t k v r :
  LockFree.insert g t k v = Ok r -> speed_test r.1 = speed_test g.
Proof.
  unfold LockFree.insert.
  destruct (k =? INVALID_KEY); [intros [= <-]; reflexivity|].
  destruct (v =? INVALID_VALUE); [intros [= <-]; reflexivity|].
  destruct (LockFree.insert_section t k v) as [[[c a] d]|f]; simpl; [|discriminate].
  intros [= <-]. unfold LockFree.insert_epilogue.
  destruct a; [|reflexivity]. simpl.
  destruct (negb _ && _); [|reflexivity].
  destruct (resize_needed g =? 0); reflexivity.
Qed.

Lemma incr_small x : 0 <= x < UINT64_MAX -> Task.incr x = x + 1.
Proof.
  intros H. unfold Task.incr, wrap64. apply Z.mod_small.
  unfold UINT64_MAX in H. lia.
Qed.

Section TaskOnAnyBuffer.

Variable ops : Task.TableOps.
Hypothesis insert_keeps_speed_test :
  forall g t k v r, Task.insert ops g t k v = Ok r -> speed_test r.1 = speed_test g.

Lemma task_loop_terminates fuel : forall cursor g t m,
  (length cursor < fuel)%nat ->
  exists r, Task.task_loop ops fuel cursor g t m = Some r.
Proof.
  induction fuel as [|fuel IH]; intros cursor g t m Hf; [lia|].
  cbn [Task.task_loop].
  destruct (_ && _); [|eauto].
  destruct (Task.parse_line cursor) as [[[[op k] v] c']|] eqn:Ep; [|eauto].
  apply parse_line_progress in Ep.
  destruct (op =? 76).
  { destruct (Task.lookup ops t k); [apply IH; lia | eauto]. }
  destruct (op =? 73); [|apply IH; lia].
  destruct (Task.insert ops g t k v) as [[g1 t1]|f]; [apply IH; lia | eauto].
Qed.

Lemma task_loop_counters fuel : forall cursor g t m g' t' m',
  Task.task_loop ops fuel cursor g t m = Some (Ok (g', t', m')) ->
  speed_test g = 0 ->
  temps_consistent m ->
  Task.temp_ops m + Z.of_nat (length cursor) <= UINT64_MAX ->
  temps_consistent m'
  /\ Task.temp_ops m' <= Task.temp_ops m + Z.of_nat (length cursor)
  /\ speed_test g' = 0.
Proof.
  induction fuel as [|fuel IH]; intros cursor g t m g' t' m' Hrun Hsp Hm Hlen;
    [discriminate|].
  cbn [Task.task_loop] in Hrun.
  destruct (_ && _).
  2:{ injection Hrun as <- <- <-. split; [exact Hm|]. split; [lia | exact Hsp]. }
  destruct (Task.parse_line cursor) as [[[[op k] v] c']|] eqn:Ep.
  2:{ injection Hrun as <- <- <-. split; [exact Hm|]. split; [lia | exact Hsp]. }
  apply parse_line_progress in Ep.
  destruct Hm as (H1 & H2 & H3 & H4 & H5 & H6).
  assert (Ho : Task.incr (Task.temp_ops m) = Task.temp_ops m + 1)
    by (apply incr_small; lia).
  destruct (op =? 76).
  { destruct (Task.lookup ops t k) as [lv|f]; [|discriminate].
    rewrite Hsp in Hrun. cbn [Z.eqb] in Hrun.
    cbn [Task.temp_ops Task.temp_lookups Task.temp_succ_lookups
         Task.temp_missed_lookups Task.temp_inserts Task.temp_failed_match] in Hrun.
    assert (Hl : Task.incr (Task.temp_lookups m) = Task.temp_lookups m + 1)
      by (apply incr_small; lia).
    destruct (lv =? INVALID_VALUE).
    - apply IH in Hrun; try assumption.
      + cbn [Task.temp_ops] in Hrun. destruct Hrun as (A & B & C).
        split; [exact A|]. split; [lia | exact C].
      + unfold temps_consistent.
        cbn [Task.temp_ops Task.temp_lookups Task.temp_succ_lookups
             Task.temp_missed_lookups Task.temp_inserts Task.temp_failed_match].
        rewrite Ho, Hl, incr_small by lia. lia.
      + cbn [Task.temp_ops]. lia.
    - apply IH in Hrun; try assumption.
      + cbn [Task.temp_ops] in Hrun. destruct Hrun as (A & B & C).
        split; [exact A|]. split; [lia | exact C].
      + unfold temps_consistent.
        cbn [Task.temp_ops Task.temp_lookups Task.temp_succ_lookups
             Task.temp_missed_lookups Task.temp_inserts Task.temp_failed_match].
        rewrite Ho, Hl, (incr_small (Task.temp_succ_lookups m)) by lia.
        destruct (negb (lv =? v));
          [rewrite (incr_small (Task.temp_failed_match m)) by lia|]; lia.
      + cbn [Task.temp_ops]. lia. }
  destruct (op =? 73).
  { destruct (Task.insert ops g t k v) as [[g1 t1]|f] eqn:Ei; [|discriminate].
    apply insert_keeps_speed_test in Ei. simpl in Ei.
    apply IH in Hrun; try congruence.
    - cbn [Task.temp_ops] in Hrun. destruct Hrun as (A & B & C).
      split; [exact A|]. split; [lia | exact C].
    - unfold temps_consistent.
      cbn [Task.temp_ops Task.temp_lookups Task.temp_succ_lookups
           Task.temp_missed_lookups Task.temp_inserts Task.temp_failed_match].
      rewrite Ho, (incr_small (Task.temp_inserts m)) by lia. lia.
    - cbn [Task.temp_ops]. lia. }
  apply IH in Hrun; try assumption.
  - cbn [Task.temp_ops] in Hrun. destruct Hrun as (A & B & C).
    split; [exact A|]. split; [lia | exact C].
  - unfold temps_consistent.
    cbn [Task.temp_ops Task.temp_lookups Task.temp_succ_lookups
         Task.temp_missed_lookups Task.temp_inserts Task.temp_failed_match].
    rewrite Ho. lia.
  - cbn [Task.temp_ops]. lia.
Qed.

Lemma run_task_counters buffer g t metrics :
  Z.of_nat (length buffer) <= UINT64_MAX ->
  speed_test g = 0 ->
  exists r,
    Task.run_task ops (S (length buffer)) buffer g t metrics = Some r
    /\ adds_consistent_counters buffer metrics r.
Proof.
  intros Hlen Hsp. unfold Task.run_task.
  destruct (task_loop_terminates (S (length buffer)) buffer g t
              (Task.mkTemps 0 0 0 0 0 0) ltac:(lia)) as (r & Hr).
  rewrite Hr. destruct r as [[[g' t'] m']|f].
  - destruct (task_loop_counters _ _ _ _ _ _ _ _ Hr Hsp) as (A & B & C).
    { unfold temps_consistent. simpl. lia. }
    { simpl. lia. }
    rewrite C. simpl Z.eqb. cbn iota.
    eexists. split; [reflexivity|].
    intros g2 t2 m2 [= <- <- <-]. exists m'. simpl in B. auto.
  - eexists. split; [reflexivity|]. intros g2 t2 m2 [=].
Qed.

End TaskOnAnyBuffer.

(** X14.  With metric tracking enabled ([speed_test == 0]), a task ends on
    every buffer, whatever its bytes and whatever the table: it returns or
    it stops at the fault of a table operation, within one loop iteration
    per byte.  When it returns, what it has added to [run_metrics] is
    consistent: the lookups are the hits plus the misses, the failed
    matches are at most the hits, lookups and inserts together are at most
    the counted lines, and these are at most the bytes of the buffer.  Both
    variants. *)
Theorem task_ends_with_consistent_counters (buffer : list Z) (g : Globals)
    (t : Locked.ChainedHashTable) (u : LockFree.ChainedHashTable)
    (run_metrics : Task.MetricObject) :
  Z.of_nat (length buffer) <= UINT64_MAX ->
  speed_test g = 0 ->
  (exists r,
      Task.run_task Task.locked_ops (S (length buffer)) buffer g t run_metrics
      = Some r
      /\ adds_consistent_counters buffer run_metrics r)
  /\ (exists r,
      Task.run_task Task.lock_free_ops (S (length buffer)) buffer g u run_metrics
      = Some r
      /\ adds_consistent_counters buffer run_metrics r).
Proof.
  intros Hlen Hsp. split.
  - apply run_task_counters; try assumption.
    intros g0 t0 k v r. apply locked_insert_speed_test.
  - apply run_task_counters; try assumption.
    intros g0 t0 k v r. apply lockfree_insert_speed_test.
Qed.

Lemma task_ends_with_consistent_counters_witness :
  exists r,
    Task.run_task Task.locked_ops 13 two_lines initial_globals
      (Locked.create_table 4 2) (Task.mkMetrics 0 0 0 0 0 0) = Some r
    /\ adds_consistent_counters two_lines (Task.mkMetrics 0 0 0 0 0 0) r.
Proof.
  assert (Hlen : Z.of_nat (length two_lines) <= UINT64_MAX).
  { unfold UINT64_MAX. simpl. lia. }
  exact (proj1 (task_ends_with_consistent_counters two_lines initial_globals
                  (Locked.create_table 4 2) (LockFree.create_table 4 2)
                  (Task.mkMetrics 0 0 0 0 0 0) Hlen eq_refl)).
Defined.

(** ** The lookups of a task against a reference *)

Lemma locked_insert_contents g t k v :
  locked_sized t ->
  exists g' t',
    Locked.insert g t k v = Ok (g', t')
    /\ locked_sized t' /\ speed_test g' = speed_test g
    /\ forall k', locked_contents t' k' = store_insert (locked_contents t) k v k'.
Proof.
  intros Ht.
  destruct (locked_insert_step g t k v Ht) as (g' & t' & Hi & Hs' & Hsp).
  exists g', t'. split; [exact Hi|]. split; [exact Hs'|]. split; [exact Hsp|].
  intros k'. unfold store_insert.
  destruct (Z.eqb_spec k INVALID_KEY) as [Ek|Ek].
  { rewrite locked_insert_sentinel in Hi by auto. injection Hi as <- <-. reflexivity. }
  destruct (Z.eqb_spec v INVALID_VALUE) as [Ev|Ev].
  { rewrite locked_insert_sentinel in Hi by auto. injection Hi as <- <-. reflexivity. }
  destruct (locked_insert_buckets g t k v g' t' Ht Ek Ev Hi) as (Hb & Hnb & Hnl).
  destruct Ht as (H1 & H2 & H3). simpl.
  unfold locked_contents. rewrite Hb, Hnb, find_in_put by (assumption || lia).
  destruct (Z.eqb_spec k' INVALID_KEY) as [E1|E1]; [|reflexivity].
  destruct (Z.eqb_spec k' k); [congruence | reflexivity].
Qed.

Lemma lockfree_insert_contents g t k v :
  lockfree_sized t ->
  exists g' t',
    LockFree.insert g t k v = Ok (g', t')
    /\ lockfree_sized t' /\ speed_test g' = speed_test g
    /\ forall k', lockfree_contents t' k' = store_insert (lockfree_contents t) k v k'.
Proof.
  intros Ht.
  destruct (lockfree_insert_step g t k v Ht) as (g' & t' & Hi & Hs' & Hsp).
  exists g', t'. split; [exact Hi|]. split; [exact Hs'|]. split; [exact Hsp|].
  intros k'. unfold store_insert.
  destruct (Z.eqb_spec k INVALID_KEY) as [Ek|Ek].
  { rewrite lockfree_insert_sentinel in Hi by auto. injection Hi as <- <-. reflexivity. }
  destruct (Z.eqb_spec v INVALID_VALUE) as [Ev|Ev].
  { rewrite lockfree_insert_sentinel in Hi by auto. injection Hi as <- <-. reflexivity. }
  destruct (lockfree_insert_buckets g t k v g' t' Ht Ek Ev Hi) as (Hb & Hnb).
  destruct Ht as (H1 & H2). simpl.
  unfold lockfree_contents. rewrite Hb, Hnb, find_in_put by (assumption || lia).
  destruct (Z.eqb_spec k' INVALID_KEY) as [E1|E1]; [|reflexivity].
  destruct (Z.eqb_spec k' k); [congruence | reflexivity].
Qed.

Lemma reference_counts_ext ls : forall f f',
  (forall k, f k = f' k) -> reference_counts f ls = reference_counts f' ls.
Proof.
  induction ls as [|l ls IH]; intros f f' Hf; simpl; [reflexivity|].
  rewrite (Hf (line_key l)), (IH f f' Hf).
  destruct (line_op l =? 76); [reflexivity|].
  destruct (line_op l =? 73); [|reflexivity].
  apply IH. intros k. unfold store_insert. rewrite !Hf. reflexivity.
Qed.

Section TaskAgainstReference.

Variable ops : Task.TableOps.
Variable stands_for : Task.table ops -> (Z -> Z) -> Prop.
Hypothesis lookup_reads :
  forall t f k, stands_for t f -> Task.lookup ops t k = Ok (f k).
Hypothesis insert_updates :
  forall g t f k v, stands_for t f ->
  exists g' t', Task.insert ops g t k v = Ok (g', t')
                /\ stands_for t' (store_insert f k v)
                /\ speed_test g' = speed_test g.

Lemma task_loop_reference ls : forall fuel pre g t f m,
  pre = [] \/ pre = [10] ->
  Forall well_formed_line ls ->
  (length ls < fuel)%nat ->
  stands_for t f ->
  speed_test g = 0 ->
  exists g' t' m',
    Task.task_loop ops fuel (pre ++ format_lines ls) g t m = Some (Ok (g', t', m'))
    /\ speed_test g' = 0
    /\ wrap64 (Task.temp_succ_lookups m')
       = wrap64 (Task.temp_succ_lookups m + (reference_counts f ls).1.1)
    /\ wrap64 (Task.temp_missed_lookups m')
       = wrap64 (Task.temp_missed_lookups m + (reference_counts f ls).1.2)
    /\ wrap64 (Task.temp_failed_match m')
       = wrap64 (Task.temp_failed_match m + (reference_counts f ls).2).
Proof.
  induction ls as [|l ls IH]; intros fuel pre g t f m Hpre Hls Hfuel Ht Hsp.
  - exists g, t, m. simpl. rewrite !Z.add_0_r.
    destruct fuel as [|fuel]; [simpl in Hfuel; lia|].
    split; [|auto].
    destruct Hpre as [-> | ->]; reflexivity.
  - inversion Hls as [|? ? Hl Hrest]; subst.
    destruct fuel as [|fuel]; [simpl in Hfuel; lia|].
    simpl in Hfuel.
    assert (Hparse : Task.parse_line (pre ++ format_lines (l :: ls))
                     = Some (line_op l, line_key l, line_value l,
                             [10] ++ format_lines ls)).
    { unfold format_lines. simpl. fold (format_lines ls).
      destruct Hpre as [-> | ->]; simpl app.
      - apply parse_line_format. exact Hl.
      - rewrite parse_line_after_newline. apply parse_line_format. exact Hl. }
    assert (Hcond : (match pre ++ format_lines (l :: ls) with
                     | [] => false | _ => true end
                     && negb (Task.deref (pre ++ format_lines (l :: ls)) =? 0)) = true).
    { destruct Hl as (H0 & _).
      destruct Hpre as [-> | ->]; [|reflexivity].
      unfold format_lines. simpl.
      destruct (Z.eqb_spec (line_op l) 0); [contradiction | reflexivity]. }
    cbn [Task.task_loop reference_counts]. rewrite Hcond, Hparse.
    destruct (line_op l =? 76).
    + rewrite (lookup_reads t f (line_key l) Ht), Hsp. cbn [Z.eqb].
      match goal with
      | |- context [Task.task_loop ops fuel _ g t ?m0] =>
          destruct (IH fuel [10] g t f m0 ltac:(auto) Hrest ltac:(lia) Ht Hsp)
            as (g' & t' & m' & Hloop & Hsp' & Hh & Hm & Hx)
      end.
      exists g', t', m'. rewrite Hloop.
      split; [reflexivity|]. split; [exact Hsp'|].
      rewrite Hh, Hm, Hx.
      destruct (f (line_key l) =? INVALID_VALUE);
        [|destruct (f (line_key l) =? line_value l)];
        cbn [negb fst snd Task.temp_succ_lookups Task.temp_missed_lookups
             Task.temp_failed_match];
        rewrite ?wrap64_incr; repeat split; f_equal; lia.
    + destruct (line_op l =? 73).
      * destruct (insert_updates g t f (line_key l) (line_value l) Ht)
          as (g1 & t1 & Hi & Hs1 & Hsp1).
        rewrite Hi.
        match goal with
        | |- context [Task.task_loop ops fuel _ g1 t1 ?m0] =>
            destruct (IH fuel [10] g1 t1 _ m0 ltac:(auto) Hrest ltac:(lia) Hs1
                        ltac:(congruence))
              as (g' & t' & m' & Hloop & Hsp' & Hh & Hm & Hx)
        end.
        exists g', t', m'. rewrite Hloop.
        split; [reflexivity|]. split; [exact Hsp'|].
        rewrite Hh, Hm, Hx.
        cbn [Task.temp_succ_lookups Task.temp_missed_lookups Task.temp_failed_match].
        auto.
      * match goal with
        | |- context [Task.task_loop ops fuel _ g t ?m0] =>
            destruct (IH fuel [10] g t f m0 ltac:(auto) Hrest ltac:(lia) Ht Hsp)
              as (g' & t' & m' & Hloop & Hsp' & Hh & Hm & Hx)
        end.
        exists g', t', m'. rewrite Hloop.
        split; [reflexivity|]. split; [exact Hsp'|].
        rewrite Hh, Hm, Hx.
        cbn [Task.temp_succ_lookups Task.temp_missed_lookups Task.temp_failed_match].
        auto.
Qed.

Lemma run_task_reference ls fuel g t f metrics :
  Forall well_formed_line ls -> (length ls < fuel)%nat ->
  stands_for t f -> speed_test g = 0 ->
  exists g' t' metrics',
    Task.run_task ops fuel (format_lines ls) g t metrics
    = Some (Ok (g', t', metrics'))
    /\ counted_lookups f ls metrics metrics'.
Proof.
  intros Hls Hfuel Ht Hsp.
  destruct (task_loop_reference ls fuel [] g t f (Task.mkTemps 0 0 0 0 0 0)
              ltac:(auto) Hls Hfuel Ht Hsp)
    as (g' & t' & m' & Hloop & Hsp' & Hh & Hm & Hx).
  simpl app in Hloop.
  cbn [Task.temp_succ_lookups Task.temp_missed_lookups Task.temp_failed_match] in *.
  exists g', t'. unfold Task.run_task. rewrite Hloop, Hsp'. cbn [Z.eqb].
  eexists. split; [reflexivity|].
  unfold counted_lookups, Task.add_metrics.
  cbn [Task.successful_lookups Task.missed_lookups Task.failed_match].
  unfold wrap64 in *.
  rewrite <- (Z.add_mod_idemp_r _ (Task.temp_succ_lookups m')) by lia.
  rewrite <- (Z.add_mod_idemp_r _ (Task.temp_missed_lookups m')) by lia.
  rewrite <- (Z.add_mod_idemp_r _ (Task.temp_failed_match m')) by lia.
  rewrite Hh, Hm, Hx. simpl Z.add.
  rewrite !Z.add_mod_idemp_r by lia. auto.
Qed.

End TaskAgainstReference.

(** X15.  With metric tracking enabled, the lookup counters of a task on a
    buffer of well-formed lines are those of a map from keys to values:
    reading the table before the task as the function that [lookup]
    computes, every ['I'] line with non-sentinel key and value updates the
    function at its key and every ['L'] line reads it; the line is a miss
    when the function gives [INVALID_VALUE] (so is every lookup of
    [INVALID_KEY]), else a hit, and a failed match when the value found is
    not the value on the line.  [successful_lookups], [missed_lookups] and
    [failed_match] grow by these numbers, modulo [2^64].  Both variants. *)
Theorem task_lookups_agree_with_a_map (ls : list Line) (g : Globals)
    (t : Locked.ChainedHashTable) (u : LockFree.ChainedHashTable)
    (run_metrics : Task.MetricObject) :
  Forall well_formed_line ls -> locked_sized t -> lockfree_sized u ->
  speed_test g = 0 ->
  (exists g' t' run_metrics',
      Task.run_task Task.locked_ops (S (length ls)) (format_lines ls)
        g t run_metrics = Some (Ok (g', t', run_metrics'))
      /\ counted_lookups (locked_contents t) ls run_metrics run_metrics')
  /\ (exists g' u' run_metrics',
      Task.run_task Task.lock_free_ops (S (length ls)) (format_lines ls)
        g u run_metrics = Some (Ok (g', u', run_metrics'))
      /\ counted_lookups (lockfree_contents u) ls run_metrics run_metrics').
Proof.
  intros Hls Ht Hu Hsp. split.
  - apply (run_task_reference Task.locked_ops
             (fun t0 f => locked_sized t0 /\ forall k, f k = locked_contents t0 k));
      try assumption; [| |lia|split; [assumption | reflexivity]].
    + intros t0 f k (H0 & Hf). rewrite Hf. apply (locked_lookup_find t0 k H0).
    + intros g0 t0 f k v (H0 & Hf).
      destruct (locked_insert_contents g0 t0 k v H0) as (g' & t' & Hi & Hs' & Hg & Hc).
      exists g', t'. split; [exact Hi|]. split; [|exact Hg].
      split; [exact Hs'|]. intros k'. rewrite Hc. unfold store_insert.
      rewrite !Hf. reflexivity.
  - apply (run_task_reference Task.lock_free_ops
             (fun t0 f => lockfree_sized t0 /\ forall k, f k = lockfree_contents t0 k));
      try assumption; [| |lia|split; [assumption | reflexivity]].
    + intros t0 f k (H0 & Hf). rewrite Hf. apply (lockfree_lookup_find t0 k H0).
    + intros g0 t0 f k v (H0 & Hf).
      destruct (lockfree_insert_contents g0 t0 k v H0) as (g' & t' & Hi & Hs' & Hg & Hc).
      exists g', t'. split; [exact Hi|]. split; [|exact Hg].
      split; [exact Hs'|]. intros k'. rewrite Hc. unfold store_insert.
      rewrite !Hf. reflexivity.
Qed.

Lemma task_lookups_agree_with_a_map_witness :
  exists g' t' run_metrics',
    Task.run_task Task.locked_ops 6
      (format_lines [mkLine 76 1 2; mkLine 73 1 2; mkLine 76 1 2;
                     mkLine 73 1 3; mkLine 76 1 2])
      initial_globals (Locked.create_table 4 2) (Task.mkMetrics 0 0 0 0 0 0)
    = Some (Ok (g', t', run_metrics'))
    /\ Task.successful_lookups run_metrics' = 2
    /\ Task.missed_lookups run_metrics' = 1
    /\ Task.failed_match run_metrics' = 1.
Proof.
  assert (Hwf : forall c k v, (c = 73 \/ c = 76) ->
                  0 <= k <= 10 -> 0 <= v <= 10 -> well_formed_line (mkLine c k v)).
  { intros c k v Hc Hk Hv. unfold well_formed_line, is_u64, UINT64_MAX. simpl. lia. }
  assert (Hls : Forall well_formed_line
                  [mkLine 76 1 2; mkLine 73 1 2; mkLine 76 1 2;
                   mkLine 73 1 3; mkLine 76 1 2]).
  { repeat constructor; apply Hwf; lia. }
  assert (Ht : locked_sized (Locked.create_table 4 2)).
  { apply locked_sized_create; lia. }
  assert (Hu : lockfree_sized (LockFree.create_table 4 2)).
  { apply lockfree_sized_create; lia. }
  destruct (task_lookups_agree_with_a_map
              [mkLine 76 1 2; mkLine 73 1 2; mkLine 76 1 2;
               mkLine 73 1 3; mkLine 76 1 2]
              initial_globals (Locked.create_table 4 2) (LockFree.create_table 4 2)
              (Task.mkMetrics 0 0 0 0 0 0) Hls Ht Hu eq_refl)
    as [(g' & t' & m' & Htask & Hcount) _].
  exists g', t', m'. split; [exact Htask | exact Hcount].
Defined.

(** * The options [-r] and [-s] *)

Lemma set_resize_needed_same g : resize_needed g = 0 -> set_resize_needed g 0 = g.
Proof. destruct g as [a b c]. simpl. intros ->. reflexivity. Qed.

Lemma locked_insert_section_items t k v r :
  Locked.insert_section t k v = Ok r -> Locked.num_items r.1.1 = Locked.num_items t.
Proof.
  unfold Locked.insert_section.
  destruct (hash1 k (Locked.num_buckets t)) as [b|f]; simpl; [|discriminate].
  destruct (Locked.get_lock_idx t b) as [i|f]; simpl; [|discriminate].
  destruct (read_bucket (Locked.buckets t) b) as [bk|f]; simpl; [|discriminate].
  destruct (insert_scan k v (head bk) 0) as [[s d] c].
  destruct s; intros [= <-]; reflexivity.
Qed.

Lemma lockfree_insert_section_items t k v r :
  LockFree.insert_section t k v = Ok r ->
  LockFree.num_items r.1.1 = LockFree.num_items t.
Proof.
  unfold LockFree.insert_section.
  destruct (hash1 k (LockFree.num_buckets t)) as [b|f]; simpl; [|discriminate].
  destruct (read_bucket (LockFree.buckets t) b) as [bk|f]; simpl; [|discriminate].
  destruct (insert_scan k v (head bk) 0) as [[s d] c].
  destruct s; [intros [= <-]; reflexivity|].
  destruct (LockFree.compare_capture _ _ _ _) as [[oh bs']|f]; simpl; [|discriminate].
  destruct (decide (oh = head bk)); [intros [= <-]; reflexivity | discriminate].
Qed.

Lemma locked_insert_options g t k v r :
  Locked.insert g t k v = Ok r ->
  resize_enabled r.1 = resize_enabled g /\ speed_test r.1 = speed_test g
  /\ (resize_enabled g = 0 -> r.1 = g)
  /\ (speed_test g <> 0 -> Locked.num_items r.2 = Locked.num_items t).
Proof.
  unfold Locked.insert.
  destruct (k =? INVALID_KEY); [intros [= <-]; auto|].
  destruct (v =? INVALID_VALUE); [intros [= <-]; auto|].
  destruct (Locked.insert_section t k v) as [[[c a] d]|f] eqn:Es; simpl; [|discriminate].
  apply locked_insert_section_items in Es. simpl in Es.
  intros [= <-]. unfold Locked.insert_epilogue.
  destruct a; [|simpl; auto]. simpl.
  repeat split.
  - destruct (negb _ && _); [|reflexivity].
    destruct (resize_needed g =? 0); reflexivity.
  - destruct (negb _ && _); [|reflexivity].
    destruct (resize_needed g =? 0); reflexivity.
  - intros ->. reflexivity.
  - intros Hsp. destruct (Z.eqb_spec (speed_test g) 0); [contradiction | exact Es].
Qed.

Lemma lockfree_insert_options g t k v r :
  LockFree.insert g t k v = Ok r ->
  resize_enabled r.1 = resize_enabled g /\ speed_test r.1 = speed_test g
  /\ (resize_enabled g = 0 -> r.1 = g)
  /\ (speed_test g <> 0 -> LockFree.num_items r.2 = LockFree.num_items t).
Proof.
  unfold LockFree.insert.
  destruct (k =? INVALID_KEY); [intros [= <-]; auto|].
  destruct (v =? INVALID_VALUE); [intros [= <-]; auto|].
  destruct (LockFree.insert_section t k v) as [[[c a] d]|f] eqn:Es; simpl; [|discriminate].
  apply lockfree_insert_section_items in Es. simpl in Es.
  intros [= <-]. unfold LockFree.insert_epilogue.
  destruct a; [|simpl; auto]. simpl.
  repeat split.
  - destruct (negb _ && _); [|reflexivity].
    destruct (resize_needed g =? 0); reflexivity.
  - destruct (negb _ && _); [|reflexivity].
    destruct (resize_needed g =? 0); reflexivity.
  - intros ->. reflexivity.
  - intros Hsp. destruct (Z.eqb_spec (speed_test g) 0); [contradiction | exact Es].
Qed.

Lemma locked_rehash_chain_items c : forall t t',
  Locked.rehash_chain t c = Ok t' -> Locked.num_items t' = Locked.num_items t.
Proof.
  induction c as [|it c IH]; intros t t'; simpl; [intros [= <-]; reflexivity|].
  unfold Locked.resize_insert at 1.
  destruct (hash1 (key it) (Locked.num_buckets t)) as [b|f]; simpl; [|discriminate].
  destruct (Locked.get_lock_idx t b) as [i|f]; simpl; [|discriminate].
  destruct (read_bucket (Locked.buckets t) b) as [bk|f]; simpl; [|discriminate].
  intros H. apply IH in H. exact H.
Qed.

Lemma locked_rehash_buckets_items curr n : forall t i t',
  Locked.rehash_buckets curr t i n = Ok t' -> Locked.num_items t' = Locked.num_items t.
Proof.
  induction n as [|n IH]; intros t i t'; simpl; [intros [= <-]; reflexivity|].
  destruct (read_bucket (Locked.buckets curr) i) as [bk|f]; simpl; [|discriminate].
  destruct (Locked.rehash_chain t (head bk)) as [t1|f] eqn:E; simpl; [|discriminate].
  apply locked_rehash_chain_items in E. intros H. apply IH in H. congruence.
Qed.

Lemma lockfree_rehash_chain_items c : forall t t',
  LockFree.rehash_chain t c = Ok t' -> LockFree.num_items t' = LockFree.num_items t.
Proof.
  induction c as [|it c IH]; intros t t'; simpl; [intros [= <-]; reflexivity|].
  unfold LockFree.resize_insert at 1.
  destruct (hash1 (key it) (LockFree.num_buckets t)) as [b|f]; simpl; [|discriminate].
  destruct (read_bucket (LockFree.buckets t) b) as [bk|f]; simpl; [|discriminate].
  destruct (LockFree.compare_capture _ _ _ _) as [[oh bs']|f]; simpl; [|discriminate].
  destruct (decide (oh = head bk)); [|discriminate].
  intros H. apply IH in H. exact H.
Qed.

Lemma lockfree_rehash_buckets_items curr n : forall t i t',
  LockFree.rehash_buckets curr t i n = Ok t' ->
  LockFree.num_items t' = LockFree.num_items t.
Proof.
  induction n as [|n IH]; intros t i t'; simpl; [intros [= <-]; reflexivity|].
  destruct (read_bucket (LockFree.buckets curr) i) as [bk|f]; simpl; [|discriminate].
  destruct (LockFree.rehash_chain t (head bk)) as [t1|f] eqn:E; simpl; [|discriminate].
  apply lockfree_rehash_chain_items in E. intros H. apply IH in H. congruence.
Qed.

Lemma locked_resize_options g t r :
  Locked.resize g t = Ok r ->
  r.1 = set_resize_needed g 0 /\ Locked.num_items r.2 = Locked.num_items t.
Proof.
  unfold Locked.resize.
  destruct (Locked.rehash_buckets _ _ _ _) as [t1|f] eqn:E; simpl; [|discriminate].
  apply locked_rehash_buckets_items in E. intros [= <-]. auto.
Qed.

Lemma lockfree_resize_options g t r :
  LockFree.resize g t = Ok r ->
  r.1 = set_resize_needed g 0 /\ LockFree.num_items r.2 = LockFree.num_items t.
Proof.
  unfold LockFree.resize.
  destruct (LockFree.rehash_buckets _ _ _ _) as [t1|f] eqn:E; simpl; [|discriminate].
  apply lockfree_rehash_buckets_items in E. intros [= <-]. auto.
Qed.

Lemma locked_run_ops_options ops : forall g t r,
  Locked.run_ops g t ops = Ok r ->
  resize_enabled r.1 = resize_enabled g /\ speed_test r.1 = speed_test g
  /\ (resize_enabled g = 0 -> resize_needed g = 0 -> r.1 = g)
  /\ (speed_test g <> 0 -> Locked.num_items r.2 = Locked.num_items t).
Proof.
  induction ops as [|[k v|] ops IH]; intros g t r; simpl.
  - intros [= <-]. auto.
  - destruct (Locked.insert g t k v) as [r1|f] eqn:Ei; simpl; [|discriminate].
    apply locked_insert_options in Ei as (A & B & C & D).
    intros H. apply IH in H as (A' & B' & C' & D').
    split; [congruence|]. split; [congruence|]. split.
    + intros He Hn. rewrite (C He) in *. auto.
    + intros Hs. rewrite D', D by congruence. reflexivity.
  - destruct (Locked.resize g t) as [r1|f] eqn:Er; simpl; [|discriminate].
    apply locked_resize_options in Er as (A & B).
    intros H. apply IH in H as (A' & B' & C' & D').
    rewrite A in *. simpl in *.
    split; [congruence|]. split; [congruence|]. split.
    + intros He Hn. rewrite C' by auto. apply set_resize_needed_same. exact Hn.
    + intros Hs. rewrite D', B by congruence. reflexivity.
Qed.

Lemma lockfree_run_ops_options ops : forall g t r,
  LockFree.run_ops g t ops = Ok r ->
  resize_enabled r.1 = resize_enabled g /\ speed_test r.1 = speed_test g
  /\ (resize_enabled g = 0 -> resize_needed g = 0 -> r.1 = g)
  /\ (speed_test g <> 0 -> LockFree.num_items r.2 = LockFree.num_items t).
Proof.
  induction ops as [|[k v|] ops IH]; intros g t r; simpl.
  - intros [= <-]. auto.
  - destruct (LockFree.insert g t k v) as [r1|f] eqn:Ei; simpl; [|discriminate].
    apply lockfree_insert_options in Ei as (A & B & C & D).
    intros H. apply IH in H as (A' & B' & C' & D').
    split; [congruence|]. split; [congruence|]. split.
    + intros He Hn. rewrite (C He) in *. auto.
    + intros Hs. rewrite D', D by congruence. reflexivity.
  - destruct (LockFree.resize g t) as [r1|f] eqn:Er; simpl; [|discriminate].
    apply lockfree_resize_options in Er as (A & B).
    intros H. apply IH in H as (A' & B' & C' & D').
    rewrite A in *. simpl in *.
    split; [congruence|]. split; [congruence|]. split.
    + intros He Hn. rewrite C' by auto. apply set_resize_needed_same. exact Hn.
    + intros Hs. rewrite D', B by congruence. reflexivity.
Qed.

(** X16.  No history of inserts and resizes writes [resize_enabled] or
    [speed_test].  With resizing disabled ([-r], [resize_enabled == 0]) and
    no resize pending, the globals after the history are the globals
    before it: no insert raises [resize_needed], however long its chain.
    In a speed test ([-s], [speed_test != 0]) [num_items] is never written:
    it is after the history what it was before.  Whatever the table (no
    assumption on its sizes), for every history that returns; both
    variants. *)
Theorem options_are_respected (ops : list table_op) (g g' : Globals)
    (t t' : Locked.ChainedHashTable) (u u' : LockFree.ChainedHashTable) :
  (Locked.run_ops g t ops = Ok (g', t') ->
   resize_enabled g' = resize_enabled g /\ speed_test g' = speed_test g
   /\ (resize_enabled g = 0 -> resize_needed g = 0 -> g' = g)
   /\ (speed_test g <> 0 -> Locked.num_items t' = Locked.num_items t))
  /\ (LockFree.run_ops g u ops = Ok (g', u') ->
      resize_enabled g' = resize_enabled g /\ speed_test g' = speed_test g
      /\ (resize_enabled g = 0 -> resize_needed g = 0 -> g' = g)
      /\ (speed_test g <> 0 -> LockFree.num_items u' = LockFree.num_items u)).
Proof.
  split; intros H.
  - apply (locked_run_ops_options ops g t (g', t') H).
  - apply (lockfree_run_ops_options ops g u (g', u') H).
Qed.

Lemma options_are_respected_witness :
  exists g' t',
    Locked.run_ops (mkGlobals 0 1 0) locked_example
      [OpInsert 18 9; OpResize; OpInsert 20 1] = Ok (g', t')
    /\ g' = mkGlobals 0 1 0 /\ Locked.num_items t' = 8.
Proof.
  destruct (Locked.run_ops (mkGlobals 0 1 0) locked_example
              [OpInsert 18 9; OpResize; OpInsert 20 1]) as [[g' t']|f] eqn:E;
    [|vm_compute in E; discriminate].
  exists g', t'.
  destruct (options_are_respected [OpInsert 18 9; OpResize; OpInsert 20 1]
              (mkGlobals 0 1 0) g' locked_example t'
              lockfree_example lockfree_example) as [H _].
  destruct (H E) as (_ & _ & Hg & Hn).
  split; [reflexivity|]. split; [apply Hg; reflexivity|].
  rewrite Hn; [reflexivity | discriminate].
Defined.

(** * Properties of the parallel region *)

(** ** A single region on an input smaller than a chunk *)

Lemma map_nth_seq_app (pre bytes : list Z) :
  map (fun i => nth i (pre ++ bytes) 0) (seq (length pre) (length bytes)) = bytes.
Proof.
  revert pre. induction bytes as [|b bytes IH]; intros pre; simpl; [reflexivity|].
  f_equal.
  - rewrite app_nth2 by lia. rewrite Nat.sub_diag. reflexivity.
  - specialize (IH (pre ++ [b])). rewrite <- app_assoc in IH. simpl in IH.
    rewrite length_app in IH. simpl in IH. rewrite Nat.add_1_r in IH. exact IH.
Qed.

Lemma buffer_of_file_of bytes :
  Program.buffer_of (file_of bytes) (Driver.mkTask 0 (Z.of_nat (length bytes))) = bytes.
Proof.
  unfold Program.buffer_of, file_of. simpl. rewrite Nat2Z.id.
  transitivity (map (fun i => nth i ([] ++ bytes) 0)
                    (seq (length (@nil Z)) (length bytes)));
    [|apply map_nth_seq_app].
  apply map_ext. intros i. simpl app. f_equal. lia.
Qed.

Lemma dispatch_loop_at_end flag fuel st :
  Driver.size (Driver.file st) <= Driver.pos (Driver.file st) ->
  Driver.dispatch_loop flag (S fuel) st
  = Some (Driver.mkDispatch
            (Driver.mkFILE (Driver.contents (Driver.file st))
                           (Driver.size (Driver.file st))
                           (Driver.pos (Driver.file st)))
            1 (Driver.count st) (Driver.temp_resize_needed st)
            (Driver.tasks st) (0 :: Driver.reads st)).
Proof.
  intros H. cbn [Driver.dispatch_loop]. unfold Driver.fread.
  replace (Z.min Driver.FILE_CHUNK_SIZE
             (Z.max 0 (Driver.size (Driver.file st) - Driver.pos (Driver.file st))))
    with 0 by (unfold Driver.FILE_CHUNK_SIZE; lia).
  rewrite Z.add_0_r. reflexivity.
Qed.

Lemma dispatch_loop_short flag fuel f :
  Driver.pos f = 0 -> 1 <= Driver.size f < Driver.FILE_CHUNK_SIZE ->
  exists r,
    Driver.dispatch_loop flag (S (S fuel)) (Driver.mkDispatch f 0 0 0 [] []) = Some r
    /\ Driver.tasks r = [Driver.mkTask 0 (Driver.size f)]
    /\ Driver.file r = Driver.mkFILE (Driver.contents f) (Driver.size f) (Driver.size f)
    /\ Driver.count r = 1
    /\ (Driver.end_of_file r = 1
        \/ (Driver.end_of_file r = 0 /\ Driver.temp_resize_needed r <> 0)).
Proof.
  intros Hp Hs. cbn [Driver.dispatch_loop]. unfold Driver.fread at 1.
  cbn [Driver.file Driver.end_of_file Driver.count Driver.tasks Driver.reads
       Driver.temp_resize_needed].
  rewrite Hp.
  replace (Z.min Driver.FILE_CHUNK_SIZE (Z.max 0 (Driver.size f - 0)))
    with (Driver.size f) by lia.
  destruct (Z.eqb_spec (Driver.size f) 0) as [E|_]; [lia|].
  destruct (Z.eqb_spec (Driver.size f) Driver.FILE_CHUNK_SIZE) as [E|_]; [lia|].
  cbn [negb Z.eqb]. change (int_wrap (0 + 1)) with 1.
  change (Driver.MAX_TASK_POOL - 1 <=? 1) with false. cbn iota.
  rewrite Z.add_0_l.
  destruct (Z.eqb_spec (flag 1) 0) as [E|E]; cbn [negb].
  - unfold Driver.fread. cbn [Driver.size Driver.pos Driver.contents].
    replace (Z.min Driver.FILE_CHUNK_SIZE (Z.max 0 (Driver.size f - Driver.size f)))
      with 0 by (unfold Driver.FILE_CHUNK_SIZE; lia).
    cbn [Z.eqb]. rewrite Z.add_0_r.
    eexists. split; [reflexivity|]. simpl. auto.
  - eexists. split; [reflexivity|]. simpl. repeat split; auto.
Qed.

Lemma dispatch_phase_short flag f :
  Driver.pos f = 0 -> 1 <= Driver.size f < Driver.FILE_CHUNK_SIZE ->
  exists d,
    Driver.dispatch_phase flag (Z.to_nat (Driver.MAX_TASK_POOL - 1)) f 0 = Some d
    /\ Driver.tasks d = [Driver.mkTask 0 (Driver.size f)]
    /\ Driver.file d = Driver.mkFILE (Driver.contents f) (Driver.size f) (Driver.size f).
Proof.
  intros Hp Hs. unfold Driver.dispatch_phase.
  change (Z.to_nat (Driver.MAX_TASK_POOL - 1)) with (S (S 253)).
  destruct (dispatch_loop_short flag 253 f Hp Hs) as (r & Hr & Ht & Hf & _).
  rewrite Hr. eexists. split; [reflexivity|].
  unfold Driver.after_loop. destruct (_ && _); simpl; auto.
Qed.

Lemma dispatch_phase_at_end flag f :
  Driver.size f <= Driver.pos f ->
  exists d,
    Driver.dispatch_phase flag (Z.to_nat (Driver.MAX_TASK_POOL - 1)) f 0 = Some d
    /\ Driver.tasks d = [] /\ Driver.end_of_file d = 1
    /\ Driver.pos (Driver.file d) = Driver.pos f.
Proof.
  intros H. unfold Driver.dispatch_phase.
  change (Z.to_nat (Driver.MAX_TASK_POOL - 1)) with (S 254).
  rewrite dispatch_loop_at_end by exact H.
  eexists. split; [reflexivity|].
  unfold Driver.after_loop. destruct (_ && _); simpl; auto.
Qed.

(** ** A whole run on an input smaller than a chunk *)

Lemma length_format_lines ls : (length ls <= length (format_lines ls))%nat.
Proof.
  induction ls as [|l ls IH]; [simpl; lia|].
  unfold format_lines in *. simpl. rewrite !length_app. simpl. lia.
Qed.

Lemma locked_resize_contents g t :
  buckets_ok (Locked.num_buckets t) (Locked.buckets t) = true ->
  1 <= Locked.num_locks t ->
  2 * Locked.num_buckets t <= SIZE_MAX -> 2 * Locked.num_locks t <= SIZE_MAX ->
  exists t',
    Locked.resize g t = Ok (set_resize_needed g 0, t')
    /\ forall k, Locked.lookup t' k = Ok (locked_contents t k).
Proof.
  intros Hok Hnl Hfb Hfl.
  destruct (buckets_ok_sized _ _ Hok) as [Hnb Hlen].
  assert (Ht : locked_sized t) by (unfold locked_sized; auto).
  eexists. split; [apply locked_resize_result; assumption|].
  intros k.
  pose proof (buckets_ok_rehash (Locked.num_buckets t) (2 * Locked.num_buckets t)
                (Locked.buckets t) Hok ltac:(lia)) as Hok'.
  destruct (buckets_ok_sized _ _ Hok') as [Hnb' Hlen'].
  rewrite locked_lookup_find by (unfold locked_sized; simpl; split; [lia | split; [exact Hlen' | lia]]).
  simpl. unfold locked_contents.
  rewrite (find_in_rehash (Locked.num_buckets t)) by (assumption || lia).
  reflexivity.
Qed.

Lemma lockfree_resize_contents g t :
  buckets_ok (LockFree.num_buckets t) (LockFree.buckets t) = true ->
  2 * LockFree.num_buckets t <= SIZE_MAX ->
  exists t',
    LockFree.resize g t = Ok (set_resize_needed g 0, t')
    /\ forall k, LockFree.lookup t' k = Ok (lockfree_contents t k).
Proof.
  intros Hok Hfb.
  destruct (buckets_ok_sized _ _ Hok) as [Hnb Hlen].
  assert (Ht : lockfree_sized t) by (unfold lockfree_sized; auto).
  eexists. split; [apply lockfree_resize_result; assumption|].
  intros k.
  pose proof (buckets_ok_rehash (LockFree.num_buckets t) (2 * LockFree.num_buckets t)
                (LockFree.buckets t) Hok ltac:(lia)) as Hok'.
  destruct (buckets_ok_sized _ _ Hok') as [Hnb' Hlen'].
  rewrite lockfree_lookup_find by (unfold lockfree_sized; simpl; split; [lia | exact Hlen']).
  simpl. unfold lockfree_contents.
  rewrite (find_in_rehash (LockFree.num_buckets t)) by (assumption || lia).
  reflexivity.
Qed.

Lemma parts_in_step team late phase eof :
  in_step team late -> Program.parts team (late phase) eof = false.
Proof.
  unfold Program.parts. intros [H|H].
  - destruct (Z.ltb_spec 1 team); [lia | reflexivity].
  - rewrite H, andb_false_r. reflexivity.
Qed.

Section SmallInput.

Variable ops : Task.TableOps.
Variable stands_for : Task.table ops -> (Z -> Z) -> Prop.
Hypothesis lookup_reads :
  forall t f k, stands_for t f -> Task.lookup ops t k = Ok (f k).
Hypothesis insert_updates :
  forall g t f k v, stands_for t f ->
  exists g' t', Task.insert ops g t k v = Ok (g', t')
                /\ stands_for t' (store_insert f k v)
                /\ speed_test g' = speed_test g.
Hypothesis resize_keeps :
  forall g t f, stands_for t f ->
  exists g' t', Task.resize ops g t = Ok (g', t')
                /\ forall k, Task.lookup ops t' k = Ok (f k).

Lemma insert_all_stands pairs : forall g t f g' t',
  stands_for t f ->
  insert_all ops g t pairs = Ok (g', t') ->
  stands_for t' (store_after f pairs).
Proof.
  induction pairs as [|[k v] pairs IH]; intros g t f g' t' Ht; simpl.
  - intros [= <- <-]. exact Ht.
  - destruct (insert_updates g t f k v Ht) as (g1 & t1 & Hi & Hs1 & _).
    rewrite Hi. simpl. intros H. apply (IH _ _ _ _ _ Hs1 H).
Qed.

Lemma resize_if_needed_keeps g t f :
  stands_for t f ->
  exists g' t',
    Program.resize_if_needed ops g t = Ok (g', t')
    /\ resize_needed g' = 0
    /\ forall k, Task.lookup ops t' k = Ok (f k).
Proof.
  intros Ht. unfold Program.resize_if_needed.
  destruct (Z.eqb_spec (resize_needed g) 0) as [E|E]; simpl.
  - exists g, t. split; [reflexivity|]. split; [exact E|].
    intros k. apply lookup_reads. exact Ht.
  - destruct (resize_keeps g t f Ht) as (g1 & t1 & Hr & Hl).
    rewrite Hr. simpl. eexists _, _. split; [reflexivity|]. auto.
Qed.

Lemma main_loop_small_input ls team late flag g t f :
  in_step team late ->
  Forall well_formed_line ls ->
  Z.of_nat (length (format_lines ls)) < Driver.FILE_CHUNK_SIZE ->
  stands_for t f ->
  exists r,
    Program.main_loop ops team late flag 3 0
      (Program.mkRun g t (Task.mkMetrics 0 0 0 0 0 0) (file_of (format_lines ls)) 0)
    = Some (Program.Finished r)
    /\ run_agrees g f ls r.
Proof.
  intros Hstep Hls Hsmall Ht.
  destruct ls as [|l0 ls0].
  - (* an empty input: the first read returns no byte *)
    cbn [Program.main_loop Program.end_of_file Program.stream Program.globals
         Program.chained Program.run_metrics Z.eqb].
    destruct (dispatch_phase_at_end (flag 0%nat) (file_of (format_lines [])))
      as (d & Hd & Htasks & Heof & Hpos); [simpl; lia|].
    rewrite Hd, Htasks, (parts_in_step _ _ _ _ Hstep). cbn [rev Program.run_tasks].
    destruct (resize_if_needed_keeps g t f Ht) as (g2 & t2 & Hr & Hn & Hl).
    rewrite Hr, Heof. cbn [Program.end_of_file Z.eqb].
    eexists. split; [reflexivity|].
    unfold run_agrees. cbn [Program.end_of_file Program.globals Program.stream
                            Program.chained Program.run_metrics].
    split; [reflexivity|]. split; [exact Hn|]. split; [rewrite Hpos; reflexivity|].
    split; [exact Hl|].
    split; [unfold counted_lines; destruct (speed_test g =? 0); simpl; auto|].
    intros _. unfold counted_lookups. simpl. auto.
  - assert (Hlen : 1 <= Z.of_nat (length (format_lines (l0 :: ls0)))).
    { pose proof (length_format_lines (l0 :: ls0)) as H.
      simpl length in H at 1. lia. }
    remember (l0 :: ls0) as ls eqn:Els. clear Els l0 ls0.
    cbn [Program.main_loop Program.end_of_file Program.stream Program.globals
         Program.chained Program.run_metrics Z.eqb].
    destruct (dispatch_phase_short (flag 0%nat) (file_of (format_lines ls)))
      as (d & Hd & Htasks & Hfile);
      [reflexivity | unfold file_of; cbn [Driver.size]; lia |].
    rewrite Hd, Htasks, (parts_in_step _ _ _ _ Hstep).
    cbn [rev app Program.run_tasks].
    cbn [file_of Driver.size]. rewrite buffer_of_file_of.
    (* the single task *)
    destruct (run_task_lines ops (fun t0 => exists f0, stands_for t0 f0)) with
      (ls := ls) (fuel := S (length (format_lines ls))) (g := g) (t := t)
      (metrics := Task.mkMetrics 0 0 0 0 0 0)
      as (g1 & t1 & m1 & Hall & _ & Hsp1 & Htask & Hcount).
    { intros t0 k (f0 & H0). eexists. apply (lookup_reads t0 f0 k H0). }
    { intros g0 t0 k v (f0 & H0).
      destruct (insert_updates g0 t0 f0 k v H0) as (g' & t' & Hi & Hs' & Hg).
      exists g', t'. split; [exact Hi|]. split; [eauto | exact Hg]. }
    { exact Hls. }
    { pose proof (length_format_lines ls). lia. }
    { exists f. exact Ht. }
    rewrite Htask.
    pose proof (insert_all_stands _ _ _ _ _ _ Ht Hall) as Ht1.
    destruct (resize_if_needed_keeps g1 t1 _ Ht1) as (g2 & t2 & Hr & Hn & Hl).
    rewrite Hr.
    assert (Hlook : speed_test g = 0 ->
                    counted_lookups f ls (Task.mkMetrics 0 0 0 0 0 0) m1).
    { intros Hsp.
      destruct (run_task_reference ops stands_for lookup_reads insert_updates
                  ls (S (length (format_lines ls))) g t f
                  (Task.mkMetrics 0 0 0 0 0 0) Hls
                  ltac:(pose proof (length_format_lines ls); lia) Ht Hsp)
        as (g' & t' & m' & Htask' & Hc).
      rewrite Htask in Htask'. injection Htask' as _ _ <-. exact Hc. }
    destruct (Z.eqb_spec (Driver.end_of_file d) 0) as [Eeof|Eeof].
    + (* the flag was seen: a second phase finds the end of the input *)
      cbn [Program.main_loop Program.end_of_file Program.stream Program.globals
           Program.chained Program.run_metrics].
      rewrite Eeof. cbn [Z.eqb].
      destruct (dispatch_phase_at_end (flag 1%nat) (Driver.file d))
        as (d2 & Hd2 & Htasks2 & Heof2 & Hpos2);
        [rewrite Hfile; cbn [Driver.size Driver.pos]; lia|].
      rewrite Hd2, Htasks2, (parts_in_step _ _ _ _ Hstep).
      cbn [rev Program.run_tasks].
      unfold Program.resize_if_needed. rewrite Hn. cbn [Z.eqb negb].
      rewrite Heof2. cbn [Z.eqb].
      eexists. split; [reflexivity|].
      unfold run_agrees. cbn [Program.end_of_file Program.globals Program.stream
                              Program.chained Program.run_metrics].
      split; [reflexivity|]. split; [exact Hn|].
      split; [rewrite Hpos2, Hfile; reflexivity|].
      split; [exact Hl|]. split; [exact Hcount | exact Hlook].
    + cbn [Program.main_loop Program.end_of_file].
      destruct (Z.eqb_spec (Driver.end_of_file d) 0) as [|_]; [contradiction|].
      eexists. split; [reflexivity|].
      unfold run_agrees. cbn [Program.end_of_file Program.globals Program.stream
                              Program.chained Program.run_metrics].
      assert (Heof1 : Driver.end_of_file d = 1).
      { unfold Driver.dispatch_phase in Hd.
        destruct (Driver.dispatch_loop _ _ _) as [r0|] eqn:El; [|discriminate].
        injection Hd as <-.
        change (Z.to_nat (Driver.MAX_TASK_POOL - 1)) with (S (S 253)) in El.
        destruct (dispatch_loop_short (flag 0%nat) 253 (file_of (format_lines ls)))
          as (r1 & Hr1 & _ & _ & Hc1 & Hcase);
          [reflexivity | unfold file_of; cbn [Driver.size]; lia |].
        rewrite Hr1 in El. injection El as <-.
        unfold Driver.after_loop in *. rewrite Hc1 in *.
        change (negb (1 =? Driver.MAX_TASK_POOL - 1)) with true in *.
        cbn [andb] in *.
        destruct (Z.eqb_spec (Driver.temp_resize_needed r1) 0) as [E0|E0];
          [reflexivity|].
        destruct Hcase as [H1|[H1 _]]; [exact H1 | contradiction]. }
      split; [exact Heof1|]. split; [exact Hn|].
      split; [rewrite Hfile; reflexivity|].
      split; [exact Hl|]. split; [exact Hcount | exact Hlook].
Qed.

End SmallInput.

Lemma locked_insert_invariants g t k v :
  buckets_ok (Locked.num_buckets t) (Locked.buckets t) = true ->
  1 <= Locked.num_locks t ->
  exists g' t',
    Locked.insert g t k v = Ok (g', t')
    /\ buckets_ok (Locked.num_buckets t') (Locked.buckets t') = true
    /\ Locked.num_buckets t' = Locked.num_buckets t
    /\ Locked.num_locks t' = Locked.num_locks t
    /\ speed_test g' = speed_test g
    /\ forall k', locked_contents t' k' = store_insert (locked_contents t) k v k'.
Proof.
  intros Hok Hnl.
  destruct (buckets_ok_sized _ _ Hok) as [Hnb Hlen].
  assert (Ht : locked_sized t) by (unfold locked_sized; auto).
  destruct (locked_insert_contents g t k v Ht) as (g' & t' & Hi & _ & Hsp & Hc).
  exists g', t'. split; [exact Hi|].
  assert (H : buckets_ok (Locked.num_buckets t') (Locked.buckets t') = true
              /\ Locked.num_buckets t' = Locked.num_buckets t
              /\ Locked.num_locks t' = Locked.num_locks t).
  { destruct (Z.eq_dec k INVALID_KEY) as [Ek|Ek].
    { rewrite locked_insert_sentinel in Hi by auto. injection Hi as <- <-. auto. }
    destruct (Z.eq_dec v INVALID_VALUE) as [Ev|Ev].
    { rewrite locked_insert_sentinel in Hi by auto. injection Hi as <- <-. auto. }
    destruct (locked_insert_buckets g t k v g' t' Ht Ek Ev Hi) as (-> & -> & ->).
    split; [apply buckets_ok_put; exact Hok | auto]. }
  destruct H as (A & B & C). auto.
Qed.

Lemma lockfree_insert_invariants g t k v :
  buckets_ok (LockFree.num_buckets t) (LockFree.buckets t) = true ->
  exists g' t',
    LockFree.insert g t k v = Ok (g', t')
    /\ buckets_ok (LockFree.num_buckets t') (LockFree.buckets t') = true
    /\ LockFree.num_buckets t' = LockFree.num_buckets t
    /\ speed_test g' = speed_test g
    /\ forall k', lockfree_contents t' k' = store_insert (lockfree_contents t) k v k'.
Proof.
  intros Hok.
  destruct (buckets_ok_sized _ _ Hok) as [Hnb Hlen].
  assert (Ht : lockfree_sized t) by (unfold lockfree_sized; auto).
  destruct (lockfree_insert_contents g t k v Ht) as (g' & t' & Hi & _ & Hsp & Hc).
  exists g', t'. split; [exact Hi|].
  assert (H : buckets_ok (LockFree.num_buckets t') (LockFree.buckets t') = true
              /\ LockFree.num_buckets t' = LockFree.num_buckets t).
  { destruct (Z.eq_dec k INVALID_KEY) as [Ek|Ek].
    { rewrite lockfree_insert_sentinel in Hi by auto. injection Hi as <- <-. auto. }
    destruct (Z.eq_dec v INVALID_VALUE) as [Ev|Ev].
    { rewrite lockfree_insert_sentinel in Hi by auto. injection Hi as <- <-. auto. }
    destruct (lockfree_insert_buckets g t k v g' t' Ht Ek Ev Hi) as (-> & ->).
    split; [apply buckets_ok_put; exact Hok | auto]. }
  destruct H as (A & B). auto.
Qed.

(** X17.  A run of the parallel region by a team of one thread ([-t 1]),
    or by a larger team in which no thread tests [while (!end_of_file)]
    after the [single] region of the same iteration has written
    [end_of_file], on an input smaller than one chunk ([FILE_CHUNK_SIZE]
    bytes) that consists of well-formed lines, started with zeroed counters
    on a table that satisfies the invariants and can be doubled once:
    whatever the [single] region reads from [resize_needed] while the task
    runs, every thread leaves the loop within two phases without a fault,
    with [end_of_file == 1], no resize pending and the whole input read;
    every lookup on the final table (resized or not) returns the value of
    the last insert line with that key, else what the table held before;
    and [run_metrics] counts the lines, the lookups, the inserts, the hits,
    the misses and the failed matches of the input.  Both variants. *)
Theorem small_input_run_is_complete (ls : list Line) (team : Z)
    (late : nat -> bool) (flag : nat -> Z -> Z)
    (g : Globals) (t : Locked.ChainedHashTable) (u : LockFree.ChainedHashTable) :
  in_step team late ->
  Forall well_formed_line ls ->
  Z.of_nat (length (format_lines ls)) < Driver.FILE_CHUNK_SIZE ->
  buckets_ok (Locked.num_buckets t) (Locked.buckets t) = true ->
  1 <= Locked.num_locks t ->
  2 * Locked.num_buckets t <= SIZE_MAX ->
  2 * Locked.num_locks t <= SIZE_MAX ->
  buckets_ok (LockFree.num_buckets u) (LockFree.buckets u) = true ->
  2 * LockFree.num_buckets u <= SIZE_MAX ->
  (exists r,
      Program.main_loop Task.locked_ops team late flag 3 0
        (@Program.mkRun Task.locked_ops g t (Task.mkMetrics 0 0 0 0 0 0)
           (file_of (format_lines ls)) 0)
      = Some (Program.Finished r)
      /\ run_agrees g (locked_contents t) ls r)
  /\ (exists r,
      Program.main_loop Task.lock_free_ops team late flag 3 0
        (@Program.mkRun Task.lock_free_ops g u (Task.mkMetrics 0 0 0 0 0 0)
           (file_of (format_lines ls)) 0)
      = Some (Program.Finished r)
      /\ run_agrees g (lockfree_contents u) ls r).
Proof.
  intros Hstep Hls Hsmall Hok Hnl Hfb Hfl Hoku Hfu. split.
  - apply (main_loop_small_input Task.locked_ops
             (fun t0 f =>
                buckets_ok (Locked.num_buckets t0) (Locked.buckets t0) = true
                /\ 1 <= Locked.num_locks t0
                /\ 2 * Locked.num_buckets t0 <= SIZE_MAX
                /\ 2 * Locked.num_locks t0 <= SIZE_MAX
                /\ forall k, f k = locked_contents t0 k)); try assumption.
    + intros t0 f k (H1 & H2 & _ & _ & Hf).
      destruct (buckets_ok_sized _ _ H1) as [Hnb Hlen].
      rewrite Hf. apply locked_lookup_find. unfold locked_sized. auto.
    + intros g0 t0 f k v (H1 & H2 & H3 & H4 & Hf).
      destruct (locked_insert_invariants g0 t0 k v H1 H2)
        as (g' & t' & Hi & A & B & C & D & E).
      exists g', t'. split; [exact Hi|]. split; [|exact D].
      split; [exact A|]. rewrite B, C. repeat split; try assumption.
      intros k'. rewrite E. unfold store_insert. rewrite !Hf. reflexivity.
    + intros g0 t0 f (H1 & H2 & H3 & H4 & Hf).
      destruct (locked_resize_contents g0 t0 H1 H2 H3 H4) as (t' & Hr & Hl).
      eexists _, t'. split; [exact Hr|]. intros k. rewrite Hl, Hf. reflexivity.
    + repeat split; assumption.
  - apply (main_loop_small_input Task.lock_free_ops
             (fun t0 f =>
                buckets_ok (LockFree.num_buckets t0) (LockFree.buckets t0) = true
                /\ 2 * LockFree.num_buckets t0 <= SIZE_MAX
                /\ forall k, f k = lockfree_contents t0 k)); try assumption.
    + intros t0 f k (H1 & _ & Hf).
      destruct (buckets_ok_sized _ _ H1) as [Hnb Hlen].
      rewrite Hf. apply lockfree_lookup_find. unfold lockfree_sized. auto.
    + intros g0 t0 f k v (H1 & H3 & Hf).
      destruct (lockfree_insert_invariants g0 t0 k v H1)
        as (g' & t' & Hi & A & B & D & E).
      exists g', t'. split; [exact Hi|]. split; [|exact D].
      split; [exact A|]. rewrite B. repeat split; try assumption.
      intros k'. rewrite E. unfold store_insert. rewrite !Hf. reflexivity.
    + intros g0 t0 f (H1 & H3 & Hf).
      destruct (lockfree_resize_contents g0 t0 H1 H3) as (t' & Hr & Hl).
      eexists _, t'. split; [exact Hr|]. intros k. rewrite Hl, Hf. reflexivity.
    + repeat split; assumption.
Qed.

Lemma small_input_run_is_complete_witness :
  exists r,
    Program.main_loop Task.locked_ops 1 (fun _ => true) (fun _ _ => 0) 3 0
      (@Program.mkRun Task.locked_ops initial_globals (Driver.initial_table 64)
         (Task.mkMetrics 0 0 0 0 0 0)
         (file_of (format_lines [mkLine 73 1 2; mkLine 76 1 2;
                                 mkLine 73 1 3; mkLine 76 1 2]))
         0)
    = Some (Program.Finished r)
    /\ run_agrees initial_globals (locked_contents (Driver.initial_table 64))
         [mkLine 73 1 2; mkLine 76 1 2; mkLine 73 1 3; mkLine 76 1 2] r.
Proof.
  assert (Hstep : in_step 1 (fun _ => true)) by (left; lia).
  assert (Hwf : forall c k v, (c = 73 \/ c = 76) ->
                  0 <= k <= 10 -> 0 <= v <= 10 -> well_formed_line (mkLine c k v)).
  { intros c k v Hc Hk Hv. unfold well_formed_line, is_u64, UINT64_MAX. simpl. lia. }
  assert (Hls : Forall well_formed_line
                  [mkLine 73 1 2; mkLine 76 1 2; mkLine 73 1 3; mkLine 76 1 2]).
  { repeat constructor; apply Hwf; lia. }
  assert (Hsmall : Z.of_nat (length (format_lines
                     [mkLine 73 1 2; mkLine 76 1 2; mkLine 73 1 3; mkLine 76 1 2]))
                   < Driver.FILE_CHUNK_SIZE) by (vm_compute; reflexivity).
  assert (Hok : buckets_ok (Locked.num_buckets (Driver.initial_table 64))
                  (Locked.buckets (Driver.initial_table 64)) = true)
    by (vm_compute; reflexivity).
  assert (Hnl : 1 <= Locked.num_locks (Driver.initial_table 64))
    by (vm_compute; discriminate).
  assert (Hfb : 2 * Locked.num_buckets (Driver.initial_table 64) <= SIZE_MAX)
    by (vm_compute; discriminate).
  assert (Hfl : 2 * Locked.num_locks (Driver.initial_table 64) <= SIZE_MAX)
    by (vm_compute; discriminate).
  assert (Hoku : buckets_ok (LockFree.num_buckets (Driver.initial_table_lock_free 64))
                   (LockFree.buckets (Driver.initial_table_lock_free 64)) = true)
    by (vm_compute; reflexivity).
  assert (Hfu : 2 * LockFree.num_buckets (Driver.initial_table_lock_free 64) <= SIZE_MAX)
    by (vm_compute; discriminate).
  exact (proj1 (small_input_run_is_complete _ 1 (fun _ => true) (fun _ _ => 0)
                  initial_globals
                  (Driver.initial_table 64) (Driver.initial_table_lock_free 64)
                  Hstep Hls Hsmall Hok Hnl Hfb Hfl Hoku Hfu)).
Defined.

(** ** The run ends *)

Lemma tasks_cover_le f ts : forall p0 pend,
  tasks_cover ts p0 pend -> Forall (chunk_ok f) ts -> p0 <= pend.
Proof.
  induction ts as [|T ts IH]; intros p0 pend; simpl.
  - intros ->. lia.
  - intros [H1 H2] Hall. inversion Hall as [|? ? [Hb _] Hrest]; subst.
    specialize (IH _ _ H2 Hrest). lia.
Qed.

Lemma tasks_cover_lt f ts p0 pend :
  tasks_cover ts p0 pend -> Forall (chunk_ok f) ts -> ts <> [] -> p0 < pend.
Proof.
  destruct ts as [|T ts]; [contradiction|]. simpl.
  intros [H1 H2] Hall _. inversion Hall as [|? ? [Hb _] Hrest]; subst.
  pose proof (tasks_cover_le f ts _ _ H2 Hrest). lia.
Qed.

(** A dispatch loop that is left without end of file has spawned a task. *)
Lemma dispatch_loop_spawns flag fuel : forall st r,
  Driver.dispatch_loop flag fuel st = Some r ->
  Driver.end_of_file r = 0 -> Driver.tasks r <> [].
Proof.
  induction fuel as [|fuel IH]; intros st r; [discriminate|].
  cbn [Driver.dispatch_loop].
  destruct (Driver.fread (Driver.file st)) as [bytes f1].
  destruct (bytes =? 0); [intros [= <-]; simpl; discriminate|].
  destruct (if bytes =? Driver.FILE_CHUNK_SIZE then _ else _) as [bytes1 f2].
  destruct (negb (Driver.end_of_file st =? 0)); [intros [= <-]; simpl; discriminate|].
  destruct (_ <=? _); [intros [= <-]; simpl; discriminate|].
  destruct (negb (_ =? 0)); [intros [= <-]; simpl; discriminate|].
  apply IH.
Qed.

Lemma dispatch_phase_progress flag f d :
  0 <= Driver.pos f <= Driver.size f ->
  Driver.dispatch_phase flag (Z.to_nat (Driver.MAX_TASK_POOL - 1)) f 0 = Some d ->
  Driver.contents (Driver.file d) = Driver.contents f
  /\ Driver.size (Driver.file d) = Driver.size f
  /\ Driver.pos f <= Driver.pos (Driver.file d) <= Driver.size f
  /\ (Driver.end_of_file d = 0 /\ Driver.pos f < Driver.pos (Driver.file d)
      \/ Driver.end_of_file d = 1 /\ Driver.pos (Driver.file d) = Driver.size f)
  /\ tasks_cover (Driver.tasks d) (Driver.pos f) (Driver.pos (Driver.file d))
  /\ Forall (chunk_ok f) (Driver.tasks d).
Proof.
  intros Hpos Hrun.
  pose proof (dispatch_phase_outcome flag _ f d Hrun) as Hout.
  unfold Driver.dispatch_phase in Hrun.
  destruct (Driver.dispatch_loop flag _ _) as [r|] eqn:El; [|discriminate].
  injection Hrun as <-.
  assert (Hcov0 : covering f (Driver.pos f) (Driver.mkDispatch f 0 0 0 [] [])).
  { unfold covering. simpl. repeat split; auto; lia. }
  assert (Hrd0 : ~ In 0 (Driver.reads (Driver.mkDispatch f 0 0 0 [] [])))
    by (simpl; tauto).
  destruct (dispatch_loop_covers flag f (Driver.pos f) _ _ r Hcov0 Hrd0 El)
    as [(Hc & Hsz & Hp & Htc & Hall) Hex].
  pose proof (dispatch_loop_spawns flag _ _ r El) as Hspawn.
  assert (Hsame : Driver.tasks (Driver.after_loop r) = Driver.tasks r
                  /\ Driver.file (Driver.after_loop r) = Driver.file r
                  /\ Driver.reads (Driver.after_loop r) = Driver.reads r
                  /\ (Driver.end_of_file (Driver.after_loop r) = 0 ->
                      Driver.end_of_file r = 0)).
  { unfold Driver.after_loop. destruct (_ && _); simpl; auto.
    repeat split; auto. discriminate. }
  destruct Hsame as (Ets & Efile & Erd & Heof0).
  rewrite Efile in *. rewrite Erd in Hout. rewrite Ets.
  pose proof (tasks_cover_le f _ _ _ Htc Hall) as Hle.
  split; [exact Hc|]. split; [exact Hsz|]. split; [lia|].
  split; [|split; [exact Htc | exact Hall]].
  destruct Hout as [(He & Hin & _)|(He & Hin)].
  - right. split; [exact He | apply Hex; exact Hin].
  - left. split; [exact He|].
    apply (tasks_cover_lt f _ _ _ Htc Hall). apply Hspawn. apply Heof0. exact He.
Qed.

Lemma run_tasks_terminates ops f tasks : forall g t m,
  exists r, Program.run_tasks ops f tasks g t m = Some r.
Proof.
  induction tasks as [|T tasks IH]; intros g t m; simpl; [eauto|].
  unfold Task.run_task.
  destruct (task_loop_terminates ops (S (length (Program.buffer_of f T)))
              (Program.buffer_of f T) g t (Task.mkTemps 0 0 0 0 0 0) ltac:(lia))
    as (r & Hr).
  rewrite Hr. destruct r as [[[g' t'] m']|e]; [apply IH | eauto].
Qed.

Lemma resize_if_needed_clears ops g t g' t' :
  Program.resize_if_needed ops g t = Ok (g', t') -> resize_needed g' = 0.
Proof.
  unfold Program.resize_if_needed.
  destruct (Z.eqb_spec (resize_needed g) 0) as [E|E]; simpl.
  - intros [= <- <-]. exact E.
  - destruct (Task.resize ops g t) as [r|e]; simpl; [|discriminate].
    intros [= <- <-]. reflexivity.
Qed.

Lemma main_loop_ends ops team late flag f0 fuel :
  forall phase (st : Program.Run ops),
  Driver.contents (Program.stream st) = Driver.contents f0 ->
  Driver.size (Program.stream st) = Driver.size f0 ->
  0 <= Driver.pos (Program.stream st) <= Driver.size f0 ->
  Program.end_of_file st = 0 ->
  (Z.to_nat (Driver.size f0 - Driver.pos (Program.stream st)) + 2 <= fuel)%nat ->
  exists r,
    Program.main_loop ops team late flag fuel phase st = Some r
    /\ (forall st', r = Program.Finished st' ->
         Program.end_of_file st' = 1
         /\ Driver.pos (Program.stream st') = Driver.size f0
         /\ Driver.contents (Program.stream st') = Driver.contents f0
         /\ resize_needed (Program.globals st') = 0)
    /\ (r = Program.Parted -> 1 < team /\ exists p, late p = true)
    /\ (1 < team -> (forall p, late p = true) ->
        forall st', r <> Program.Finished st').
Proof.
  induction fuel as [|fuel IH]; intros phase st Hc Hsz Hpos Heof Hfuel; [lia|].
  cbn [Program.main_loop]. rewrite Heof. cbn [Z.eqb].
  destruct (dispatch_phase_terminates (flag phase) (Program.stream st)) as [d Hd].
  rewrite Hd.
  destruct (dispatch_phase_progress (flag phase) (Program.stream st) d
              ltac:(lia) Hd) as (Hc' & Hsz' & Hpos' & Hcase & _).
  destruct (Program.parts team (late phase) (Driver.end_of_file d)) eqn:Eparts.
  { eexists. split; [reflexivity|].
    split; [intros st' [=]|]. split; [|intros _ _ st' [=]].
    intros _. unfold Program.parts in Eparts.
    apply andb_true_iff in Eparts as [Eparts _].
    apply andb_true_iff in Eparts as [Eteam Elate].
    apply Z.ltb_lt in Eteam. eauto. }
  destruct (run_tasks_terminates ops (Program.stream st) (rev (Driver.tasks d))
              (Program.globals st) (Program.chained st) (Program.run_metrics st))
    as (r1 & Hr1).
  rewrite Hr1. destruct r1 as [[[g1 t1] m1]|e].
  2:{ eexists. split; [reflexivity|].
      split; [intros st' [=]|]. split; [intros [=] | intros _ _ st' [=]]. }
  destruct (Program.resize_if_needed ops g1 t1) as [[g2 t2]|e] eqn:Er.
  2:{ eexists. split; [reflexivity|].
      split; [intros st' [=]|]. split; [intros [=] | intros _ _ st' [=]]. }
  apply resize_if_needed_clears in Er.
  destruct Hcase as [(He & Hlt)|(He & Hend)].
  - apply IH; cbn [Program.stream Program.end_of_file]; try congruence; lia.
  - destruct fuel as [|fuel]; [lia|].
    cbn [Program.main_loop Program.end_of_file]. rewrite He. cbn [Z.eqb].
    eexists. split; [reflexivity|]. split; [|split].
    + intros st' [= <-]. cbn [Program.end_of_file Program.stream Program.globals].
      repeat split; congruence.
    + intros [=].
    + intros Hteam Hlate st' _. unfold Program.parts in Eparts.
      rewrite Hlate, He in Eparts.
      destruct (Z.ltb_spec 1 team); [discriminate | lia].
Qed.

(** X18.  Every run of the parallel region comes to one of three ends,
    within one phase per byte of the input and one more, whatever the bytes
    of the file, the table, the table implementation behind [chained.h],
    the size of the team, the moments at which the threads test
    [while (!end_of_file)] and the values the [single] region reads from
    [resize_needed]: every thread leaves the loop, and then [end_of_file] is
    1, the whole input has been read and no resize is pending; or a table
    operation faults; or a thread leaves the loop while the others are
    inside the iteration, after which the barriers no longer match.  The
    third end needs a team of two or more threads and a thread that tests
    the condition after the [single] region has written [end_of_file]: a
    team of one thread never parts.  In a team of two or more in which some
    thread is late in every iteration, the loop is never left by every
    thread. *)
Theorem run_finishes_faults_or_parts (ops : Task.TableOps) (team : Z)
    (late : nat -> bool) (flag : nat -> Z -> Z)
    (g : Globals) (chained : Task.table ops) (run_metrics : Task.MetricObject)
    (f : Driver.FILE) :
  0 <= Driver.pos f <= Driver.size f ->
  exists r,
    Program.main_loop ops team late flag
      (Z.to_nat (Driver.size f - Driver.pos f) + 2) 0
      (Program.mkRun g chained run_metrics f 0) = Some r
    /\ (forall st, r = Program.Finished st ->
         Program.end_of_file st = 1
         /\ Driver.pos (Program.stream st) = Driver.size f
         /\ Driver.contents (Program.stream st) = Driver.contents f
         /\ resize_needed (Program.globals st) = 0)
    /\ (r = Program.Parted -> 1 < team /\ exists p, late p = true)
    /\ (1 < team -> (forall p, late p = true) ->
        forall st, r <> Program.Finished st).
Proof.
  intros Hpos.
  apply (main_loop_ends ops team late flag f);
    cbn [Program.stream Program.end_of_file]; auto; lia.
Qed.

Lemma run_finishes_faults_or_parts_witness :
  (exists r,
      Program.main_loop Task.lock_free_ops 1 (fun _ => true) (fun _ _ => 1) 14 0
        (@Program.mkRun Task.lock_free_ops initial_globals
           (Driver.initial_table_lock_free 2) (Task.mkMetrics 0 0 0 0 0 0)
           two_lines_file 0) = Some r
      /\ r <> Program.Parted)
  /\ (exists r,
      Program.main_loop Task.lock_free_ops 16 (fun _ => true) (fun _ _ => 1) 14 0
        (@Program.mkRun Task.lock_free_ops initial_globals
           (Driver.initial_table_lock_free 2) (Task.mkMetrics 0 0 0 0 0 0)
           two_lines_file 0) = Some r
      /\ forall st, r <> Program.Finished st).
Proof.
  assert (Hpos : 0 <= Driver.pos two_lines_file <= Driver.size two_lines_file)
    by (simpl; lia).
  split.
  - destruct (run_finishes_faults_or_parts Task.lock_free_ops 1 (fun _ => true)
                (fun _ _ => 1) initial_globals (Driver.initial_table_lock_free 2)
                (Task.mkMetrics 0 0 0 0 0 0) two_lines_file Hpos)
      as (r & Hr & _ & Hp & _).
    exists r. split; [exact Hr|]. intros E. destruct (Hp E) as [H _]. lia.
  - destruct (run_finishes_faults_or_parts Task.lock_free_ops 16 (fun _ => true)
                (fun _ _ => 1) initial_globals (Driver.initial_table_lock_free 2)
                (Task.mkMetrics 0 0 0 0 0 0) two_lines_file Hpos)
      as (r & Hr & _ & _ & Hn).
    exists r. split; [exact Hr|]. apply Hn; [lia | reflexivity].
Defined.

(** ** Lines and chunks *)












(** ** Counters of consecutive tasks *)











(** ** No line is longer than a chunk *)







(** ** A whole run with resizing disabled *)


Section WholeInput.

Variable ops : Task.TableOps.
Variable stands_for : Task.table ops -> (Z -> Z) -> Prop.
Hypothesis lookup_reads :
  forall t f k, stands_for t f -> Task.lookup ops t k = Ok (f k).
Hypothesis insert_updates :
  forall g t f k v, stands_for t f ->
  exists g' t', Task.insert ops g t k v = Ok (g', t')
                /\ stands_for t' (store_insert f k v)
                /\ speed_test g' = speed_test g.
Hypothesis insert_frozen :
  forall g t k v r,
    resize_enabled g = 0 -> Task.insert ops g t k v = Ok r -> r.1 = g.

Variable g : Globals.
Hypothesis resize_off : resize_enabled g = 0.
Hypothesis none_pending : resize_needed g = 0.



Variable ls : list Line.
Hypothesis lines_well_formed : Forall well_formed_line ls.

Variable fs : Driver.FILE.
Hypothesis same_contents :
  Driver.contents fs = Driver.contents (file_of (format_lines ls)).
Hypothesis same_size :
  Driver.size fs = Z.of_nat (length (format_lines ls)).



End WholeInput.



(** * Lines with a missing number *)

Lemma isspace_digit c : 48 <= c <= 57 -> Task.isspace c = false.
Proof.
  intros Hc. unfold Task.isspace.
  destruct (Z.eqb_spec c 32); [lia|].
  destruct (Z.leb_spec 9 c); destruct (Z.leb_spec c 13); simpl; auto; lia.
Qed.

Lemma no_sign c rest :
  c <> 45 -> c <> 43 ->
  match c :: rest with
  | 45 :: r => (true, r)
  | 43 :: r => (false, r)
  | _ => (false, c :: rest)
  end = (false, c :: rest).
Proof.
  intros H45 H43. destruct c as [|p|p]; try reflexivity.
  do 6 (try destruct p as [p|p|]); try reflexivity; contradiction.
Qed.

(** [strtoull] skips any white space, a newline included, before the
    number. *)
Lemma strtoull_after_space w n rest :
  Task.isspace w = true -> is_u64 n -> no_digit_ahead rest ->
  Task.strtoull (w :: decimal n ++ rest) = (n, rest).
Proof.
  intros Hw [Hn0 Hn1] Hrest.
  pose proof (read_digits_decimal n rest Hn0 Hrest) as Hread.
  destruct (decimal_head n) as (c & tl & Hd & Hc).
  rewrite Hd in *. simpl app in *.
  assert (Hskip : Task.skip_spaces (w :: c :: tl ++ rest) = c :: tl ++ rest).
  { change (Task.skip_spaces (w :: c :: tl ++ rest))
      with (if Task.isspace w
            then (if Task.isspace c then Task.skip_spaces (tl ++ rest)
                  else c :: tl ++ rest)
            else w :: c :: tl ++ rest).
    rewrite Hw, isspace_digit by exact Hc. reflexivity. }
  unfold Task.strtoull. rewrite Hskip, no_sign by lia. simpl Task.deref.
  assert (Hdig : Task.isdigit c = true).
  { unfold Task.isdigit. apply andb_true_iff. split; apply Z.leb_le; lia. }
  rewrite Hdig, Hread.
  destruct (Z.ltb_spec UINT64_MAX n); [lia | reflexivity].
Qed.

(** Without a digit after the white space (and an optional sign),
    [strtoull] returns 0 and leaves the pointer where it was. *)
Lemma strtoull_no_number c rest :
  Task.isspace c = false -> Task.isdigit c = false -> c <> 45 -> c <> 43 ->
  Task.strtoull (10 :: c :: rest) = (0, 10 :: c :: rest).
Proof.
  intros Hs Hd H45 H43. unfold Task.strtoull.
  assert (Hskip : Task.skip_spaces (10 :: c :: rest) = c :: rest).
  { change (Task.skip_spaces (10 :: c :: rest))
      with (if Task.isspace c then Task.skip_spaces rest else c :: rest).
    rewrite Hs. reflexivity. }
  rewrite Hskip, no_sign by assumption. simpl Task.deref. rewrite Hd. reflexivity.
Qed.

(** X20.  [parse_line] does not stop at the end of a line.  For a line that
    ends after its key (opcode, space, key in decimal, newline): if the
    next line starts with a byte that is no white space, digit or sign
    (an opcode letter), the value is read as 0 and the cursor returned is
    at the newline, so the line counts as an operation with value 0 and the
    next line is parsed as it is; if the next line starts with a number,
    that number is taken as the value of the line and the cursor is behind
    it. *)
Theorem parse_line_reads_across_lines (op k v c : Z) (rest : list Z) :
  op <> 0 -> op <> 32 -> op <> 9 -> op <> 10 ->
  is_u64 k -> is_u64 v -> no_digit_ahead rest ->
  Task.isspace c = false -> Task.isdigit c = false -> c <> 45 -> c <> 43 ->
  Task.parse_line (op :: 32 :: decimal k ++ 10 :: c :: rest)
  = Some (op, k, 0, 10 :: c :: rest)
  /\ Task.parse_line (op :: 32 :: decimal k ++ 10 :: decimal v ++ rest)
     = Some (op, k, v, rest).
Proof.
  intros H0 H32 H9 H10 Hk Hv Hrest Hs Hd H45 H43.
  unfold Task.parse_line. rewrite !skip_blanks_op by assumption.
  destruct (Z.eqb_spec op 0); [contradiction|].
  split.
  - rewrite strtoull_decimal by (assumption || reflexivity).
    rewrite strtoull_no_number by assumption. reflexivity.
  - rewrite strtoull_decimal by (assumption || reflexivity).
    rewrite strtoull_after_space by (assumption || reflexivity). reflexivity.
Qed.

Lemma parse_line_reads_across_lines_witness :
  Task.parse_line [73; 32; 49; 10; 76; 32; 51; 10]
  = Some (73, 1, 0, [10; 76; 32; 51; 10])
  /\ Task.parse_line [73; 32; 49; 10; 50; 32; 51; 10]
     = Some (73, 1, 2, [32; 51; 10]).
Proof.
  assert (Hk : is_u64 1) by (unfold is_u64, UINT64_MAX; lia).
  assert (Hv : is_u64 2) by (unfold is_u64, UINT64_MAX; lia).
  exact (parse_line_reads_across_lines 73 1 2 76 [32; 51; 10]
           ltac:(discriminate) ltac:(discriminate) ltac:(discriminate)
           ltac:(discriminate) Hk Hv eq_refl eq_refl eq_refl
           ltac:(discriminate) ltac:(discriminate)).
Defined.
